(** * Slug engine and name normaliser of js-kit: a shallow embedding

    The two modules under verification (slug/index.ts and name/index.ts) are
    pipelines of [String.prototype.replace] calls over regular expressions,
    some of them built at run time with [new RegExp(...)] from caller
    supplied text.  The embedding therefore has four layers:

    - ECMAScript strings as sequences of UTF-16 code units;
    - a backtracking matcher for the regular-expression fragment the two
      modules use, with [test] and global [replace] on top of it;
    - the [RegExp] constructor as a parser from pattern text to that
      fragment, so that run-time patterns are read the way the engine
      reads them;
    - the functions of the two modules, transcribed line by line. *)

From Stdlib Require Import List NArith ZArith Bool Arith Lia.
From Stdlib Require Decimal DecimalN DecimalFacts.
From Stdlib Require String Ascii.
Import ListNotations String.StringSyntax.

Set Implicit Arguments.

(** ** ECMAScript strings *)

(** A UTF-16 code unit, and a string as the sequence of its code units. *)
Abbreviation cu := N (only parsing).
Abbreviation jsstring := (list N) (only parsing).

(** An ASCII literal read as a string. *)
Definition str (s : String.string) : jsstring :=
  map Ascii.N_of_ascii (String.list_ascii_of_string s).

Delimit Scope string_scope with string.
Arguments str s%_string.

Fixpoint jsstring_eqb (a b : jsstring) : bool :=
  match a, b with
  | [], [] => true
  | x :: a', y :: b' => N.eqb x y && jsstring_eqb a' b'
  | _, _ => false
  end.

(** [Array.prototype.includes] on an array of strings. *)
Definition includes (l : list jsstring) (x : jsstring) : bool :=
  existsb (jsstring_eqb x) l.

(** [String.prototype.includes] with a one code unit needle. *)
Definition includesChar (s : jsstring) (c : cu) : bool :=
  existsb (N.eqb c) s.

(** Closed intervals of code units, the building block of character
    classes. *)
Definition range := (cu * cu)%type.

Definition in_range (c : cu) (r : range) : bool :=
  N.leb (fst r) c && N.leb c (snd r).

Definition in_ranges (rs : list range) (c : cu) : bool :=
  existsb (in_range c) rs.

Definition single (c : cu) : range := (c, c).

(** WhiteSpace and LineTerminator of ECMA-262: what [\s] matches and what
    [trim] removes. *)
Definition whiteSpace : list range :=
  [ (9, 13); (32, 32); (160, 160); (5760, 5760); (8192, 8202);
    (8232, 8233); (8239, 8239); (8287, 8287); (12288, 12288);
    (65279, 65279) ]%N.

Definition isWhiteSpace (c : cu) : bool := in_ranges whiteSpace c.

Fixpoint takeWhile (p : cu -> bool) (s : jsstring) : jsstring :=
  match s with
  | [] => []
  | c :: t => if p c then c :: takeWhile p t else []
  end.

Fixpoint dropWhile (p : cu -> bool) (s : jsstring) : jsstring :=
  match s with
  | [] => []
  | c :: t => if p c then dropWhile p t else s
  end.

Fixpoint dropWhileEnd (p : cu -> bool) (s : jsstring) : jsstring :=
  match s with
  | [] => []
  | c :: t =>
      match dropWhileEnd p t with
      | [] => if p c then [] else [c]
      | t' => c :: t'
      end
  end.

(** [String.prototype.trim]. *)
Definition trim (s : jsstring) : jsstring :=
  dropWhileEnd isWhiteSpace (dropWhile isWhiteSpace s).

(** ** Values and completions *)

(** The values a caller can pass where the signature says [string]; the
    guards of the four entry points inspect them with [!x] and [typeof].
    Numbers are kept as integers or NaN, which is all [!x] looks at. *)
Inductive jsvalue :=
| JSUndefined
| JSNull
| JSBoolean (b : bool)
| JSNumber (n : Z)
| JSNaN
| JSString (s : jsstring)
| JSObject.

Definition ToBoolean (v : jsvalue) : bool :=
  match v with
  | JSUndefined | JSNull | JSNaN => false
  | JSBoolean b => b
  | JSNumber n => negb (Z.eqb n 0)
  | JSString s => match s with [] => false | _ => true end
  | JSObject => true
  end.

Definition typeofIsString (v : jsvalue) : bool :=
  match v with JSString _ => true | _ => false end.

(** The string behind a value that passed [typeof v === 'string']. *)
Definition stringOf (v : jsvalue) : jsstring :=
  match v with JSString s => s | _ => [] end.

Inductive exn := SyntaxError.

(** How a call ends: with a value, with an exception, or on a pattern
    that lies outside the fragment of the pattern language modelled
    below. *)
Inductive outcome (A : Type) :=
| Returns (a : A)
| Throws (e : exn)
| OutsideModel.

Arguments Returns {A} a.
Arguments Throws {A} e.
Arguments OutsideModel {A}.

Definition bind {A B} (m : outcome A) (k : A -> outcome B) : outcome B :=
  match m with
  | Returns a => k a
  | Throws e => Throws e
  | OutsideModel => OutsideModel
  end.

Notation "x <- m ;; k" := (bind m (fun x => k))
  (at level 61, m at next level, right associativity).

Definition orDefault {A} (d : A) (o : option A) : A :=
  match o with Some a => a | None => d end.

(** ** Regular expressions *)

(** The fragment in use: literals, character classes, sequence,
    alternation, the greedy quantifiers [*], [+] and [{n,}] (all
    [Rep min]), and the assertions [^] and [$].  No flag other than [g]
    occurs in the sources, so matching is case sensitive and [^], [$] are
    anchored to the whole input. *)
Inductive regex :=
| Eps
| Chr (c : cu)
| Cls (neg : bool) (rs : list range)
| Seq (a b : regex)
| Alt (a b : regex)
| Rep (min : nat) (a : regex)
| Bol
| Eol.

(** A match state: the index reached and the input that is left. *)
Definition mstate := (nat * jsstring)%type.
Definition cont := mstate -> option mstate.
Definition matcher := mstate -> cont -> option mstate.

Definition clsMem (neg : bool) (rs : list range) (c : cu) : bool :=
  xorb neg (in_ranges rs c).

(** CharacterSetMatcher. *)
Definition charMatcher (p : cu -> bool) : matcher := fun x c =>
  match snd x with
  | [] => None
  | ch :: t => if p ch then c (S (fst x), t) else None
  end.

(** RepeatMatcher of ECMA-262 for a greedy quantifier without upper
    bound.  An iteration that is not required ([min = 0]) and consumes
    nothing is rejected, so every call either lowers [min] or shortens
    the input; [fuel] is only there to make that visible to the
    termination checker. *)
Fixpoint repeatMatcher (m : matcher) (fuel min : nat) (x : mstate) (c : cont)
  : option mstate :=
  match fuel with
  | O => None
  | S fuel' =>
      let d : cont := fun y =>
        if (min =? 0) && (fst y =? fst x) then None
        else repeatMatcher m fuel' (pred min) y c in
      if min =? 0 then
        match m x d with
        | Some z => Some z
        | None => c x
        end
      else m x d
  end.

Fixpoint compile (r : regex) : matcher :=
  match r with
  | Eps => fun x c => c x
  | Chr ch => charMatcher (N.eqb ch)
  | Cls neg rs => charMatcher (clsMem neg rs)
  | Seq a b => fun x c => compile a x (fun y => compile b y c)
  | Alt a b => fun x c =>
      match compile a x c with
      | Some z => Some z
      | None => compile b x c
      end
  | Rep min a => fun x c =>
      repeatMatcher (compile a) (S (min + length (snd x))) min x c
  | Bol => fun x c => if fst x =? 0 then c x else None
  | Eol => fun x c => match snd x with [] => c x | _ => None end
  end.

(** One attempt at index [i]: the end index of the match, if any. *)
Definition matchAt (r : regex) (i : nat) (rest : jsstring) : option nat :=
  match compile r (i, rest) Some with
  | Some z => Some (fst z)
  | None => None
  end.

(** RegExpBuiltinExec without the sticky flag: the first index from [i]
    on at which the pattern matches. *)
Fixpoint regExpExec (r : regex) (i : nat) (rest : jsstring)
  : option (nat * nat) :=
  match matchAt r i rest with
  | Some e => Some (i, e)
  | None =>
      match rest with
      | [] => None
      | _ :: t => regExpExec r (S i) t
      end
  end.

(** [RegExp.prototype.test] on a pattern without flags. *)
Definition test (r : regex) (s : jsstring) : bool :=
  match regExpExec r 0 s with Some _ => true | None => false end.

(** What [replace] is given as second argument, applied to the matched
    text, its position and the whole input. *)
Definition replacer := jsstring -> nat -> jsstring -> jsstring.

(** GetSubstitution for a pattern without capture groups: [$$], [$&],
    [$`] and [$'] are expanded, every other [$] stands for itself. *)
Fixpoint getSubstitution (matched before after tpl : jsstring) : jsstring :=
  match tpl with
  | [] => []
  | c :: t =>
      match t with
      | d :: t' =>
          if N.eqb c 36 then
            if N.eqb d 36 then 36%N :: getSubstitution matched before after t'
            else if N.eqb d 38 then matched ++ getSubstitution matched before after t'
            else if N.eqb d 96 then before ++ getSubstitution matched before after t'
            else if N.eqb d 39 then after ++ getSubstitution matched before after t'
            else c :: getSubstitution matched before after t
          else c :: getSubstitution matched before after t
      | [] => [c]
      end
  end.

(** A replacement given as a string. *)
Definition template (tpl : jsstring) : replacer := fun matched position input =>
  getSubstitution matched (firstn position input)
    (skipn (position + length matched) input) tpl.

(** A replacement given as a function of the matched text only. *)
Definition callback (f : jsstring -> jsstring) : replacer :=
  fun matched _ _ => f matched.

(** [String.prototype.replace] with a global pattern.  The input is walked
    once: [skip] counts the code units of the last match still to be
    passed over; at every other index the pattern is tried, and an empty
    match leaves the code unit under it in place, as the [lastIndex]
    bookkeeping of the standard does. *)
Fixpoint replaceLoop (r : regex) (f : replacer) (input : jsstring)
    (i : nat) (skip : nat) (rest : jsstring) {struct rest} : jsstring :=
  match skip with
  | S k =>
      match rest with
      | [] => []
      | _ :: t => replaceLoop r f input (S i) k t
      end
  | O =>
      match matchAt r i rest with
      | Some e =>
          f (firstn (e - i) rest) i input ++
          match rest with
          | [] => []
          | ch :: t =>
              if e =? i then ch :: replaceLoop r f input (S i) 0 t
              else replaceLoop r f input (S i) (e - i - 1) t
          end
      | None =>
          match rest with
          | [] => []
          | ch :: t => ch :: replaceLoop r f input (S i) 0 t
          end
      end
  end.

Definition replaceAll (r : regex) (f : replacer) (s : jsstring) : jsstring :=
  replaceLoop r f s 0 0 s.

(** ** The [RegExp] constructor *)

(** [new RegExp(pattern)] without flags, as a parser into [regex].  It
    covers what the templates of the two modules can produce: literals,
    identity escapes, classes with ranges, [(?: )] groups, [|], [^], [$],
    [*], [+] and [{n,}].  The early errors it reports are the ones the
    standard gives for such text (nothing to repeat, range out of order,
    unterminated class or group, unmatched parenthesis); anything else,
    such as lazy quantifiers, capture groups or class escapes, ends in
    [OutsideModel]. *)

Definition syntaxChars : jsstring := str ".*+?^${}()|[]\".

Definition isSyntaxChar (c : cu) : bool := includesChar syntaxChars c.

(** Escapes [\c] that stand for [c] itself. *)
Definition identityEscape (c : cu) : bool :=
  isSyntaxChar c || N.eqb c 47 || N.eqb c 45.

(** A class atom: whether it was written with a backslash, and the code
    unit it denotes. *)
Definition token := (bool * cu)%type.

(** The atoms of a class body up to its closing bracket, and the number of
    code units read, bracket included. *)
Fixpoint classAtoms (p : jsstring) : outcome (list token * nat) :=
  match p with
  | [] => Throws SyntaxError
  | c :: t =>
      if N.eqb c 93 then Returns ([], 1)
      else if N.eqb c 92 then
        match t with
        | [] => Throws SyntaxError
        | d :: t' =>
            if identityEscape d then
              r <- classAtoms t' ;; Returns ((true, d) :: fst r, 2 + snd r)
            else OutsideModel
        end
      else r <- classAtoms t ;; Returns ((false, c) :: fst r, 1 + snd r)
  end.

Definition isDash (t : token) : bool := negb (fst t) && N.eqb (snd t) 45.

(** ClassRanges: an atom followed by an unescaped dash and another atom is
    a range, which must be in order; any other atom stands alone. *)
Fixpoint classRanges (toks : list token) : outcome (list range) :=
  match toks with
  | [] => Returns []
  | a :: rest =>
      match rest with
      | dash :: b :: rest' =>
          if isDash dash then
            if N.leb (snd a) (snd b) then
              rs <- classRanges rest' ;; Returns ((snd a, snd b) :: rs)
            else Throws SyntaxError
          else rs <- classRanges rest ;; Returns (single (snd a) :: rs)
      | _ => rs <- classRanges rest ;; Returns (single (snd a) :: rs)
      end
  end.

(** The text after an opening bracket: the class it denotes and the
    number of code units up to and including the closing bracket. *)
Definition parseClass (p : jsstring) : outcome (regex * nat) :=
  let neg := match p with d :: _ => N.eqb d 94 | [] => false end in
  r <- classAtoms (if neg then tl p else p) ;;
  rs <- classRanges (fst r) ;;
  Returns (Cls neg rs, (if neg then 1 else 0) + snd r).

Definition isDigit (c : cu) : bool := N.leb 48 c && N.leb c 57.

Fixpoint readDigits (p : jsstring) (acc count : nat) : nat * nat * jsstring :=
  match p with
  | c :: t =>
      if isDigit c then readDigits t (10 * acc + N.to_nat (c - 48)) (S count)
      else (acc, count, p)
  | [] => (acc, count, p)
  end.

(** The text after an opening brace, read as [n,}]: the bound and the
    number of code units read. *)
Definition braceQuantifier (p : jsstring) : option (nat * nat) :=
  let '(v, n, rest) := readDigits p 0 0 in
  match n, rest with
  | S _, c :: d :: _ =>
      if N.eqb c 44 && N.eqb d 125 then Some (v, n + 2) else None
  | _, _ => None
  end.

(** A disjunction being read: the alternatives already closed, and the
    terms of the current one with whether a quantifier may follow; both
    most recent first. *)
Record frame := { closed : list regex; terms : list (regex * bool) }.

Definition emptyFrame : frame := {| closed := []; terms := [] |}.

Definition pushTerm (t : regex) (q : bool) (f : frame) : frame :=
  {| closed := closed f; terms := (t, q) :: terms f |}.

Fixpoint mkSeq (ts : list regex) : regex :=
  match ts with
  | [] => Eps
  | t :: ts' => match ts' with [] => t | _ => Seq t (mkSeq ts') end
  end.

Fixpoint mkAlt (alts : list regex) : regex :=
  match alts with
  | [] => Eps
  | a :: alts' => match alts' with [] => a | _ => Alt a (mkAlt alts') end
  end.

Definition alternative (f : frame) : regex := mkSeq (rev (map fst (terms f))).

Definition nextAlternative (f : frame) : frame :=
  {| closed := alternative f :: closed f; terms := [] |}.

Definition disjunction (f : frame) : regex :=
  mkAlt (rev (alternative f :: closed f)).

(** A quantifier applies to the last term, which must be an atom that has
    none yet. *)
Definition quantify (min : nat) (f : frame) : outcome frame :=
  match terms f with
  | (t, true) :: ts => Returns {| closed := closed f; terms := (Rep min t, false) :: ts |}
  | _ => Throws SyntaxError
  end.

Definition lineTerminators : list range := [ (10, 10); (13, 13); (8232, 8233) ]%N.

Fixpoint parsePattern (stack : list frame) (f : frame) (skip : nat)
    (p : jsstring) {struct p} : outcome regex :=
  match p with
  | [] =>
      match stack with
      | [] => Returns (disjunction f)
      | _ :: _ => Throws SyntaxError
      end
  | c :: t =>
      match skip with
      | S k => parsePattern stack f k t
      | O =>
          if N.eqb c 91 (* [ *) then
            r <- parseClass t ;;
            parsePattern stack (pushTerm (fst r) true f) (snd r) t
          else if N.eqb c 92 (* \ *) then
            match t with
            | [] => Throws SyntaxError
            | d :: _ =>
                if identityEscape d
                then parsePattern stack (pushTerm (Chr d) true f) 1 t
                else OutsideModel
            end
          else if N.eqb c 40 (* ( *) then
            match t with
            | q :: colon :: _ =>
                if N.eqb q 63 && N.eqb colon 58
                then parsePattern (f :: stack) emptyFrame 2 t
                else OutsideModel
            | _ => OutsideModel
            end
          else if N.eqb c 41 (* ) *) then
            match stack with
            | [] => Throws SyntaxError
            | g :: stack' =>
                parsePattern stack' (pushTerm (disjunction f) true g) 0 t
            end
          else if N.eqb c 124 (* | *) then
            parsePattern stack (nextAlternative f) 0 t
          else if N.eqb c 94 (* ^ *) then
            parsePattern stack (pushTerm Bol false f) 0 t
          else if N.eqb c 36 (* $ *) then
            parsePattern stack (pushTerm Eol false f) 0 t
          else if N.eqb c 42 (* * *) then
            g <- quantify 0 f ;; parsePattern stack g 0 t
          else if N.eqb c 43 (* + *) then
            g <- quantify 1 f ;; parsePattern stack g 0 t
          else if N.eqb c 123 (* { *) then
            match braceQuantifier t with
            | Some (min, n) => g <- quantify min f ;; parsePattern stack g n t
            | None => OutsideModel
            end
          else if N.eqb c 46 (* . *) then
            parsePattern stack (pushTerm (Cls true lineTerminators) true f) 0 t
          else if N.eqb c 63 || N.eqb c 93 || N.eqb c 125 (* ? ] } *) then
            OutsideModel
          else parsePattern stack (pushTerm (Chr c) true f) 0 t
      end
  end.

Definition RegExp (pattern : jsstring) : outcome regex :=
  parsePattern [] emptyFrame 0 pattern.


(** ** Platform functions *)

(** [String.prototype.toLowerCase] and [String.prototype.normalize('NFD')]
    are tables of the Unicode standard, not code of the library.  They are
    taken as parameters.  What is assumed of them is their value on
    Latin-1 text (code units below U+0100), where lower-casing is a map
    over code units and canonical decomposition splits a precomposed
    letter into its base letter and one combining mark; and that
    decomposition leaves the white space around a text in place: white
    space decomposes into white space, and nothing else decomposes into
    text that begins or ends with white space. *)

Definition isLatin1 (c : cu) : bool := N.ltb c 256.

Definition lowerLatin1 (c : cu) : cu :=
  if N.leb 65 c && N.leb c 90 then (c + 32)%N
  else if N.leb 192 c && N.leb c 222 && negb (N.eqb c 215) then (c + 32)%N
  else c.

(** Canonical decompositions of the capital letters of the Latin-1
    Supplement: base letter and combining mark.  Those of the small
    letters are the same thirty-two code units higher. *)
Definition capitalDecompositions : list (cu * (cu * cu)) :=
  [ (192, (65, 768)); (193, (65, 769)); (194, (65, 770)); (195, (65, 771));
    (196, (65, 776)); (197, (65, 778)); (199, (67, 807));
    (200, (69, 768)); (201, (69, 769)); (202, (69, 770)); (203, (69, 776));
    (204, (73, 768)); (205, (73, 769)); (206, (73, 770)); (207, (73, 776));
    (209, (78, 771));
    (210, (79, 768)); (211, (79, 769)); (212, (79, 770)); (213, (79, 771));
    (214, (79, 776));
    (217, (85, 768)); (218, (85, 769)); (219, (85, 770)); (220, (85, 776));
    (221, (89, 769)) ]%N.

Fixpoint lookup {A} (k : cu) (l : list (cu * A)) : option A :=
  match l with
  | [] => None
  | (k', v) :: l' => if N.eqb k k' then Some v else lookup k l'
  end.

Definition decomposeLatin1 (c : cu) : jsstring :=
  if N.eqb c 255 then [121; 776]%N
  else match lookup c capitalDecompositions with
       | Some (b, m) => [b; m]
       | None =>
           match lookup (c - 32)%N capitalDecompositions with
           | Some (b, m) => if N.leb 224 c then [(b + 32)%N; m] else [c]
           | None => [c]
           end
       end.

Class Platform := {
  toLowerCase : jsstring -> jsstring;
  normalizeNFD : jsstring -> jsstring;
  toLowerCase_latin1 : forall s,
    forallb isLatin1 s = true -> toLowerCase s = map lowerLatin1 s;
  normalizeNFD_latin1 : forall s,
    forallb isLatin1 s = true -> normalizeNFD s = flat_map decomposeLatin1 s;
  normalizeNFD_trim : forall s, normalizeNFD (trim s) = trim (normalizeNFD s)
}.

(** ** slug/index.ts *)

Record SlugOptions := {
  opt_separator : option jsstring;
  opt_allowDots : option bool
}.

(** [{}], the default of every [options] parameter. *)
Definition noOptions : SlugOptions :=
  {| opt_separator := None; opt_allowDots := None |}.

Definition alnumLower : list range := [ (97, 122); (48, 57) ]%N.

(** [/^[a-z0-9]+(?:[-.][a-z0-9]+)*$/] *)
Definition slugWithDotsPattern : regex :=
  Seq Bol (Seq (Rep 1 (Cls false alnumLower))
    (Seq (Rep 0 (Seq (Cls false [ single 45; single 46 ]%N)
                     (Rep 1 (Cls false alnumLower))))
         Eol)).

(** [/^[a-z0-9]+(?:-[a-z0-9]+)*$/] *)
Definition slugPattern : regex :=
  Seq Bol (Seq (Rep 1 (Cls false alnumLower))
    (Seq (Rep 0 (Seq (Chr 45) (Rep 1 (Cls false alnumLower))))
         Eol)).

Definition isValidSlug (slug : jsvalue) (options : SlugOptions) : bool :=
  if negb (ToBoolean slug) || negb (typeofIsString slug) then false
  else
    let slug := stringOf slug in
    let allowDots := orDefault false (opt_allowDots options) in
    if allowDots then test slugWithDotsPattern slug
    else test slugPattern slug.

(** [/[.*+?^${}()|[\]\\]/g] *)
Definition slugEscapePattern : regex :=
  Cls false (map single (str ".*+?^${}()|[]\")).

(** [/[̀-ͯ]/g] *)
Definition combiningMarksPattern : regex := Cls false [ (768, 879) ]%N.

(** [/\./g] *)
Definition dotPattern : regex := Chr 46.

(** [/[\s_]+/g] *)
Definition spacesPattern : regex := Rep 1 (Cls false (whiteSpace ++ [ single 95 ]%N)).

Section Slug.

Context {platform : Platform}.

Definition convertToSlug (text : jsvalue) (options : SlugOptions)
  : outcome jsstring :=
  let separator := orDefault (str "-") (opt_separator options) in
  let allowDots := orDefault false (opt_allowDots options) in
  if negb (ToBoolean text) || negb (typeofIsString text) then Returns []
  else
    let text := stringOf text in
    let escapedSeparator :=
      replaceAll slugEscapePattern (template (str "\$&")) separator in
    let slug :=
      replaceAll combiningMarksPattern (template [])
        (normalizeNFD (trim (toLowerCase text))) in
    let slug :=
      if negb allowDots then replaceAll dotPattern (template separator) slug
      else slug in
    let slug := replaceAll spacesPattern (template separator) slug in
    invalid <- RegExp (str "[^a-z0-9" ++ escapedSeparator ++
                       (if allowDots then str "\." else []) ++ str "]") ;;
    let slug := replaceAll invalid (template []) slug in
    slug <-
      (if allowDots then
         runs <- RegExp (str "[" ++ escapedSeparator ++ str ".]+") ;;
         Returns (replaceAll runs
                    (callback (fun m =>
                       if includesChar m 46 then str "." else separator))
                    slug)
       else
         runs <- RegExp (escapedSeparator ++ str "+") ;;
         Returns (replaceAll runs (template separator) slug)) ;;
    trimRegex <-
      RegExp (str "^[" ++ escapedSeparator ++
              (if allowDots then str "\." else []) ++ str "]+|[" ++
              escapedSeparator ++
              (if allowDots then str "\." else []) ++ str "]+$") ;;
    Returns (replaceAll trimRegex (template []) slug).

End Slug.

(** Number::toString for the values [counter] takes: positive integers,
    written in decimal. *)
Fixpoint digitsOf (u : Decimal.uint) : jsstring :=
  match u with
  | Decimal.Nil => []
  | Decimal.D0 u' => 48%N :: digitsOf u'
  | Decimal.D1 u' => 49%N :: digitsOf u'
  | Decimal.D2 u' => 50%N :: digitsOf u'
  | Decimal.D3 u' => 51%N :: digitsOf u'
  | Decimal.D4 u' => 52%N :: digitsOf u'
  | Decimal.D5 u' => 53%N :: digitsOf u'
  | Decimal.D6 u' => 54%N :: digitsOf u'
  | Decimal.D7 u' => 55%N :: digitsOf u'
  | Decimal.D8 u' => 56%N :: digitsOf u'
  | Decimal.D9 u' => 57%N :: digitsOf u'
  end.

Definition numberToString (n : N) : jsstring := digitsOf (N.to_uint n).

(** The [while] loop of generateUniqueSlug, entered with the first
    candidate already built; [fuel] bounds the number of increments. *)
Fixpoint uniqueSlugLoop (fuel : nat) (baseSlug separator : jsstring)
    (existingSlugs : list jsstring) (counter : N) : option jsstring :=
  let uniqueSlug := baseSlug ++ separator ++ numberToString counter in
  if includes existingSlugs uniqueSlug then
    match fuel with
    | O => None
    | S fuel' =>
        uniqueSlugLoop fuel' baseSlug separator existingSlugs (counter + 1)
    end
  else Some uniqueSlug.

(** The loop cannot run more often than [existingSlugs] has entries, which
    is the fuel it is given; [None] would mean that it did. *)
Definition generateUniqueSlug (baseSlug : jsstring)
    (existingSlugs : list jsstring) (options : SlugOptions)
  : option jsstring :=
  let separator := orDefault (str "-") (opt_separator options) in
  if negb (includes existingSlugs baseSlug) then Some baseSlug
  else
    uniqueSlugLoop (length existingSlugs) baseSlug separator existingSlugs 1.

(** ** name/index.ts *)

Record NameOptions := { opt_allowedSpecialChars : option (list jsstring) }.

Definition noNameOptions : NameOptions := {| opt_allowedSpecialChars := None |}.

(** [/[.*+?^${}()|[\]\\-]/g] *)
Definition nameEscapePattern : regex :=
  Cls false (map single (str ".*+?^${}()|[]\-")).

(** [allowedSpecialChars.map(char => char.replace(..., '\\$&')).join('')] *)
Definition escapeChars (allowedSpecialChars : list jsstring) : jsstring :=
  concat (map (replaceAll nameEscapePattern (template (str "\$&")))
            allowedSpecialChars).

Definition isValidName (name : jsvalue) (options : NameOptions)
  : outcome bool :=
  if negb (ToBoolean name) || negb (typeofIsString name) then Returns false
  else
    let name := stringOf name in
    let allowedSpecialChars :=
      orDefault [ str " " ] (opt_allowedSpecialChars options) in
    let escapedChars := escapeChars allowedSpecialChars in
    pattern <- RegExp (str "^[a-zA-Z0-9]+(?:[" ++ escapedChars ++
                       str "][a-zA-Z0-9]+)*$") ;;
    Returns (test pattern name).

(** [match[0]] as the value returned to [replace]. *)
Definition firstCodeUnit (m : jsstring) : jsstring :=
  match m with
  | c :: _ => [c]
  | [] => str "undefined"
  end.

Definition normalizeName (text : jsvalue) (options : NameOptions)
  : outcome jsstring :=
  if negb (ToBoolean text) || negb (typeofIsString text) then Returns []
  else
    let text := stringOf text in
    let allowedSpecialChars :=
      orDefault [ str " " ] (opt_allowedSpecialChars options) in
    let escapedChars := escapeChars allowedSpecialChars in
    let normalized := trim text in
    invalid <- RegExp (str "[^a-zA-Z0-9" ++ escapedChars ++ str "]") ;;
    let normalized := replaceAll invalid (template []) normalized in
    runs <- RegExp (str "[" ++ escapedChars ++ str "]{2,}") ;;
    let normalized := replaceAll runs (callback firstCodeUnit) normalized in
    ends <- RegExp (str "^[" ++ escapedChars ++ str "]+|[" ++ escapedChars ++
                    str "]+$") ;;
    Returns (replaceAll ends (template []) normalized).

(** ** What a pattern denotes *)

(** [Matches r x y]: read from state [x], the pattern [r] can end in state
    [y].  This is the set of matches the backtracking matcher searches;
    the clause for an optional iteration carries the same progress
    condition as RepeatMatcher. *)
Inductive Matches : regex -> mstate -> mstate -> Prop :=
| MEps x : Matches Eps x x
| MChr c i t : Matches (Chr c) (i, c :: t) (S i, t)
| MCls neg rs c i t :
    clsMem neg rs c = true -> Matches (Cls neg rs) (i, c :: t) (S i, t)
| MSeq a b x y z : Matches a x y -> Matches b y z -> Matches (Seq a b) x z
| MAltL a b x y : Matches a x y -> Matches (Alt a b) x y
| MAltR a b x y : Matches b x y -> Matches (Alt a b) x y
| MRepDone a x : Matches (Rep 0 a) x x
| MRepStep a min x y z :
    Matches a x y -> (min = 0 -> fst y <> fst x) ->
    Matches (Rep (pred min) a) y z -> Matches (Rep min a) x z
| MBol s : Matches Bol (0, s) (0, s)
| MEol i : Matches Eol (i, []) (i, []).

(** ** Character classes of the two modules *)

Definition isAlnumLower (c : cu) : bool :=
  (N.leb 97 c && N.leb c 122) || (N.leb 48 c && N.leb c 57).

Definition isAlnum (c : cu) : bool :=
  (N.leb 97 c && N.leb c 122) || (N.leb 65 c && N.leb c 90) ||
  (N.leb 48 c && N.leb c 57).

Definition isCombiningMark (c : cu) : bool := N.leb 768 c && N.leb c 879.

Definition isSpaceOrUnderscore (c : cu) : bool := isWhiteSpace c || N.eqb c 95.

(** The separator class of a slug: the separator and, if allowed, the
    dot. *)
Definition isSeparator (sep : cu) (allowDots : bool) (c : cu) : bool :=
  N.eqb c sep || (allowDots && N.eqb c 46).

(** A code unit is special for a name when it occurs in an entry of
    [allowedSpecialChars]; for entries of one code unit that is
    membership. *)
Definition isSpecial (allowedSpecialChars : list jsstring) (c : cu) : bool :=
  existsb (fun e => includesChar e c) allowedSpecialChars.

(** ** Shapes *)

Definition firstIs (p : cu -> bool) (s : jsstring) : bool :=
  match s with c :: _ => p c | [] => false end.

Fixpoint lastIs (p : cu -> bool) (s : jsstring) : bool :=
  match s with
  | [] => false
  | c :: t => match t with [] => p c | _ => lastIs p t end
  end.

(** Some two neighbours both satisfy [p]. *)
Fixpoint adjacent (p : cu -> bool) (s : jsstring) : bool :=
  match s with
  | [] => false
  | x :: t => match t with
              | y :: _ => (p x && p y) || adjacent p t
              | [] => false
              end
  end.

(** The shape both validators ask for: not empty, over [alnum] and [sep]
    only, [alnum] at both ends, no two [sep] side by side. *)
Definition wellFormed (alnum sep : cu -> bool) (s : jsstring) : Prop :=
  s <> [] /\
  forallb (fun c => alnum c || sep c) s = true /\
  firstIs alnum s = true /\
  lastIs alnum s = true /\
  adjacent sep s = false.

(** The automaton of [^A+(?:SA+)*$]: [afterAlnum] tells whether the text
    read so far ends in an [A]; a code unit in both classes counts as
    [A]. *)
Fixpoint accepts (alnum sep : cu -> bool) (afterAlnum : bool) (s : jsstring)
  : bool :=
  match s with
  | [] => afterAlnum
  | c :: t =>
      if alnum c then accepts alnum sep true t
      else if sep c && afterAlnum then accepts alnum sep false t
      else false
  end.

(** ** The transformations, stage by stage *)

Definition emit (rep : jsstring -> jsstring) (run : jsstring) : jsstring :=
  match run with [] => [] | _ => rep run end.

(** Every maximal run of code units satisfying [p] is replaced by [rep] of
    that run; [run] is the run being read. *)
Fixpoint collapseFrom (p : cu -> bool) (rep : jsstring -> jsstring)
    (run s : jsstring) : jsstring :=
  match s with
  | [] => emit rep run
  | c :: t =>
      if p c then collapseFrom p rep (run ++ [c]) t
      else emit rep run ++ c :: collapseFrom p rep [] t
  end.

Definition replaceRuns (p : cu -> bool) (rep : jsstring -> jsstring)
    (s : jsstring) : jsstring :=
  collapseFrom p rep [] s.

Definition stripEnds (p : cu -> bool) (s : jsstring) : jsstring :=
  dropWhileEnd p (dropWhile p s).

(** What a run of separators and dots collapses to: a dot if the run has
    one, wherever it stands, the separator otherwise. *)
Definition collapsed (sep : cu) (run : jsstring) : jsstring :=
  if includesChar run 46 then [46%N] else [sep].

Section SlugStages.

Context {platform : Platform}.

(** What convertToSlug does to the text once it is decomposed, for a
    separator of one code unit: combining marks are dropped, dots become
    the separator unless dots are allowed, runs of white space and
    underscore become the separator, and what is not a lower-case letter,
    a digit, the separator or an allowed dot is dropped. *)
Definition cleaned (sep : cu) (allowDots : bool) (s : jsstring) : jsstring :=
  let s := filter (fun c => negb (isCombiningMark c)) s in
  let s := if allowDots then s
           else map (fun c => if N.eqb c 46 then sep else c) s in
  let s := replaceRuns isSpaceOrUnderscore (fun _ => [sep]) s in
  filter (fun c => isAlnumLower c || isSeparator sep allowDots c) s.

(** Then runs of separator and dot are collapsed, and separator and dot
    are trimmed at both ends. *)
Definition finished (sep : cu) (allowDots : bool) (s : jsstring) : jsstring :=
  let s := replaceRuns (isSeparator sep allowDots) (collapsed sep) s in
  stripEnds (isSeparator sep allowDots) s.

(** The text as it reaches the collapsing step in the source, where white
    space is trimmed between lower-casing and decomposition. *)
Definition slugCleaned (sep : cu) (allowDots : bool) (text : jsstring)
  : jsstring :=
  cleaned sep allowDots (normalizeNFD (trim (toLowerCase text))).

Definition slugStages (sep : cu) (allowDots : bool) (text : jsstring)
  : jsstring :=
  finished sep allowDots (slugCleaned sep allowDots text).

(** The stages of convertToSlug as its contract lists them, to be
    compared with those of the source: lower-casing, decomposition with
    the removal of combining marks, folding of dots, replacement of white
    space and underscore, removal of invalid characters, collapsing and
    trimming.  The source also trims white space after lower-casing. *)
Definition contractStages (sep : cu) (allowDots : bool) (text : jsstring)
  : jsstring :=
  finished sep allowDots (cleaned sep allowDots (normalizeNFD (toLowerCase text))).

(** The separator class for a separator of any length: the code units of
    the separator and, if allowed, the dot. *)
Definition separatorClass (separator : jsstring) (allowDots : bool) (c : cu)
  : bool :=
  includesChar separator c || (allowDots && N.eqb c 46).

(** The same stages for a separator of any length, put into the text as
    it is written: every dot (unless dots are allowed) and every run of
    white space and underscore becomes the separator, what is neither
    lower-case letter, digit nor of the separator class is dropped, every
    run of the separator class becomes a dot if it holds one and the
    separator otherwise, and the separator class is trimmed at both
    ends. *)
Definition listedStages (separator : jsstring) (allowDots : bool)
    (text : jsstring) : jsstring :=
  let s := normalizeNFD (toLowerCase text) in
  let s := filter (fun c => negb (isCombiningMark c)) s in
  let s := if allowDots then s
           else flat_map (fun c => if N.eqb c 46 then separator else [c]) s in
  let s := replaceRuns isSpaceOrUnderscore (fun _ => separator) s in
  let s := filter (fun c => isAlnumLower c || separatorClass separator allowDots c)
             s in
  let s := replaceRuns (separatorClass separator allowDots)
             (fun run => if includesChar run 46 then [46%N] else separator) s in
  stripEnds (separatorClass separator allowDots) s.

End SlugStages.

(** The stages of normalizeName in the words of its contract. *)
Definition nameStages (allowedSpecialChars : list jsstring) (text : jsstring)
  : jsstring :=
  let s := trim text in
  let s := filter (fun c => isAlnum c || isSpecial allowedSpecialChars c) s in
  let s := replaceRuns (isSpecial allowedSpecialChars)
             (fun run => if 2 <=? length run then firstn 1 run else run) s in
  stripEnds (isSpecial allowedSpecialChars) s.

(** ** Patterns shared by the two validators *)

(** [^A+(?:SA+)*$] for one-code-unit patterns [A] and [S]. *)
Definition validityPattern (A S : regex) : regex :=
  Seq Bol (Seq (Rep 1 A) (Seq (Rep 0 (Seq S (Rep 1 A))) Eol)).

(** [^C+|C+$] for a one-code-unit pattern [C]. *)
Definition endsPattern (C : regex) : regex :=
  Alt (Seq Bol (Rep 1 C)) (Seq (Rep 1 C) Eol).

(** A pattern that reads exactly one code unit, the ones satisfying [p]. *)
Definition charRegex (a : regex) (p : cu -> bool) : Prop :=
  forall x y,
    Matches a x y <->
    exists c t, snd x = c :: t /\ p c = true /\ y = (S (fst x), t).

(** ** Escaping *)

(** What [s.replace(/[...]/g, '\\$&')] does to one code unit: a backslash
    goes in front of the members of the class. *)
Definition escapeWith (special : cu -> bool) (c : cu) : jsstring :=
  if special c then [92%N; c] else [c].

(** The class escaped by name/index.ts: the syntax characters and the
    dash. *)
Definition isNameSyntaxChar (c : cu) : bool :=
  includesChar (str ".*+?^${}()|[]\-") c.

(** The atom a code unit becomes once escaped. *)
Definition atomOf (special : cu -> bool) (c : cu) : token := (special c, c).

(** [[a-zA-Z0-9]] *)
Definition alnumRanges : list range := [ (97, 122); (65, 90); (48, 57) ]%N.

(** ** Options with their defaults filled in *)

Definition separatorOf (options : SlugOptions) : jsstring :=
  orDefault (str "-") (opt_separator options).

Definition allowDotsOf (options : SlugOptions) : bool :=
  orDefault false (opt_allowDots options).

Definition specialsOf (options : NameOptions) : list jsstring :=
  orDefault [ str " " ] (opt_allowedSpecialChars options).

(** What a guard turns away: the empty string and everything that is not
    a string. *)
Definition rejected (v : jsvalue) : Prop :=
  v = JSString [] \/ typeofIsString v = false.

(** [s.replace(/[.*+?^${}()|[\]\\]/g, '\\$&')] for a separator of one code
    unit, and the two fragments the templates of convertToSlug add to
    it. *)
Definition dotsText (allowDots : bool) : jsstring :=
  if allowDots then str "\." else [].

Definition sepRanges (c : cu) (allowDots : bool) : list range :=
  single c :: (if allowDots then [single 46%N] else []).

(** The continuation that succeeds at the end of the input only. *)
Definition atEnd : cont := fun y => match snd y with [] => Some y | _ => None end.

(** One-code-unit patterns, as the matcher sees them. *)
Definition charCompiled (a : regex) (p : cu -> bool) : Prop :=
  compile a = charMatcher p.

(** The facts about an escape class that make escaped text safe inside
    brackets: what it escapes may be escaped, and it escapes the
    backslash, the closing bracket and the caret. *)
Record safeEscape (special : cu -> bool) : Prop := {
  safe_identity : forall c, special c = true -> identityEscape c = true;
  safe_backslash : special 92%N = true;
  safe_bracket : special 93%N = true;
  safe_caret : special 94%N = true
}.

(** The candidate generateUniqueSlug builds for a value of [counter]. *)
Definition candidate (baseSlug separator : jsstring) (counter : N) : jsstring :=
  baseSlug ++ separator ++ numberToString counter.

(** ASCII code units other than the upper-case letters: separators that
    lower-casing and canonical decomposition leave alone. *)
Definition isUpper (c : cu) : bool := N.leb 65 c && N.leb c 90.

Definition asciiNotUpper (c : cu) : bool := N.ltb c 128 && negb (isUpper c).

(** A code unit is plain when lower-casing, decomposition and the removal
    of combining marks leave it as it is. *)
Definition plain (c : cu) : Prop :=
  isLatin1 c = true /\ lowerLatin1 c = c /\ decomposeLatin1 c = [c] /\
  isCombiningMark c = false.

(** ** Notions used in the proofs *)

(** An entry of the decomposition table whose letter, in both cases, and
    whose mark are no white space. *)
Definition solid (e : cu * cu) : bool :=
  negb (isWhiteSpace (fst e)) && negb (isWhiteSpace (fst e + 32)) &&
  negb (isWhiteSpace (snd e)).

(** What replaceRuns leaves after the run the text begins with. *)
Definition afterFirstRun (p : cu -> bool) (g : jsstring -> jsstring)
  (s : jsstring) : jsstring :=
  match dropWhile p s with
  | [] => []
  | c :: t => c :: collapseFrom p g [] t
  end.

(** The two stages of [cleaned] that work code unit by code unit. *)
Definition unitStages (sep : cu) (allowDots : bool) (s : jsstring) : jsstring :=
  let s := filter (fun c => negb (isCombiningMark c)) s in
  if allowDots then s else map (fun c => if N.eqb c 46 then sep else c) s.

(** ** Options used in examples *)

Definition withSeparator (separator : jsstring) : SlugOptions :=
  {| opt_separator := Some separator; opt_allowDots := None |}.

Definition withDots : SlugOptions :=
  {| opt_separator := None; opt_allowDots := Some true |}.

Definition withSpecials (allowedSpecialChars : list jsstring) : NameOptions :=
  {| opt_allowedSpecialChars := Some allowedSpecialChars |}.

(** [Caf\u00e9 & Restaurant] *)
Definition cafeRestaurant : jsstring :=
  str "Caf" ++ [233%N] ++ str " & Restaurant".

(** ** The Zod helpers of slug/index.ts *)

(** The argument of a helper that takes a message, an options object or
    nothing. *)
Inductive messageOrOptions (O : Type) :=
| NoArgument
| Message (message : jsstring)
| Options (options : O).

Arguments NoArgument {O}.
Arguments Message {O} message.
Arguments Options {O} options.

(** [{ message?: string; allowDots?: boolean }] *)
Record SlugValidationOptions := {
  slug_message : option jsstring;
  slug_allowDots : option bool
}.

(** What [create] returns: [{ _type, validate, message }]. *)
Record validator (R : Type) := {
  _type : jsstring;
  validate : jsvalue -> R;
  message : jsstring
}.

(** [x || d] for an optional string: the empty string is falsy. *)
Definition orElse (d : jsstring) (o : option jsstring) : jsstring :=
  match o with
  | Some (c :: s) => c :: s
  | _ => d
  end.

(** [typeof x === 'string' ? { message: x } : x || {}] *)
Definition slugValidationOptions
    (optionsOrMessage : messageOrOptions SlugValidationOptions)
  : SlugValidationOptions :=
  match optionsOrMessage with
  | Message m => {| slug_message := Some m; slug_allowDots := None |}
  | Options o => o
  | NoArgument => {| slug_message := None; slug_allowDots := None |}
  end.

Definition zodSlugValidation
    (optionsOrMessage : messageOrOptions SlugValidationOptions)
  : jsvalue -> bool :=
  let options := slugValidationOptions optionsOrMessage in
  fun val =>
    isValidSlug val
      {| opt_separator := None; opt_allowDots := slug_allowDots options |}.

Definition slugSchema_create
    (customMessageOrOptions : messageOrOptions SlugValidationOptions)
  : validator bool :=
  let options := slugValidationOptions customMessageOrOptions in
  let message :=
    orElse (str "Must be a valid slug (lowercase, alphanumeric, and hyphens only, no consecutive hyphens)")
      (slug_message options) in
  {| _type := str "slug-validator";
     validate := zodSlugValidation (Options options);
     message := message |}.

Section SlugHelpers.

Context {platform : Platform}.

(** [options] is the options object, or [None] when it is left out and
    convertToSlug falls back on its default [{}]. *)
Definition zodSlugTransform (options : option SlugOptions)
  : jsvalue -> outcome jsstring :=
  fun val => convertToSlug val (orDefault noOptions options).

(** [transform: (options?: { separator?: string }) => zodSlugTransform(options)].
    The parameter type names the separator only, but the object is handed
    on as it is: an [allowDots] it holds reaches convertToSlug. *)
Definition autoSlugSchema_transform (options : option SlugOptions)
  : jsvalue -> outcome jsstring :=
  zodSlugTransform options.

End SlugHelpers.

(** ** The Zod helpers of name/index.ts *)

(** [{ message?: string; allowedSpecialChars?: string[] }] *)
Record NameValidationOptions := {
  name_message : option jsstring;
  name_allowedSpecialChars : option (list jsstring)
}.

Definition nameValidationOptions
    (optionsOrMessage : messageOrOptions NameValidationOptions)
  : NameValidationOptions :=
  match optionsOrMessage with
  | Message m => {| name_message := Some m; name_allowedSpecialChars := None |}
  | Options o => o
  | NoArgument => {| name_message := None; name_allowedSpecialChars := None |}
  end.

Definition zodNameValidation
    (optionsOrMessage : messageOrOptions NameValidationOptions)
  : jsvalue -> outcome bool :=
  let options := nameValidationOptions optionsOrMessage in
  fun val =>
    isValidName val
      {| opt_allowedSpecialChars := name_allowedSpecialChars options |}.

Definition zodNameTransform (options : option NameOptions)
  : jsvalue -> outcome jsstring :=
  fun val => normalizeName val (orDefault noNameOptions options).

Definition nameSchema_create
    (customMessageOrOptions : messageOrOptions NameValidationOptions)
  : validator (outcome bool) :=
  let options := nameValidationOptions customMessageOrOptions in
  let message :=
    orElse (str "Invalid name format. Must be alphanumeric, no leading/trailing/consecutive special characters.")
      (name_message options) in
  {| _type := str "name-validator";
     validate := zodNameValidation (Options options);
     message := message |}.

(** ** file/index.ts *)

(** [String.prototype.lastIndexOf] with a one code unit needle: the index
    of its last occurrence, or -1. *)
Fixpoint lastIndexFrom (c : cu) (i found : Z) (s : jsstring) : Z :=
  match s with
  | [] => found
  | x :: t => lastIndexFrom c (i + 1) (if N.eqb x c then i else found) t
  end.

Definition lastIndexOf (s : jsstring) (c : cu) : Z :=
  lastIndexFrom c 0 (-1) s.

(** An index argument of [slice], brought into [0 .. len]: a negative one
    counts from the end. *)
Definition sliceIndex (len k : Z) : Z :=
  if (k <? 0)%Z then Z.max (len + k) 0 else Z.min k len.

(** [String.prototype.slice(start, end)]; [end] is [None] when left out. *)
Definition slice (s : jsstring) (start : Z) (end_ : option Z) : jsstring :=
  let len := Z.of_nat (length s) in
  let from := sliceIndex len start in
  let to := match end_ with
            | Some e => sliceIndex len e
            | None => len
            end in
  firstn (Z.to_nat (to - from)) (skipn (Z.to_nat from) s).

(** Number::toString(16) on a non-negative integer. *)
Fixpoint hexDigitsOf (u : Hexadecimal.uint) : jsstring :=
  match u with
  | Hexadecimal.Nil => []
  | Hexadecimal.D0 u' => 48%N :: hexDigitsOf u'
  | Hexadecimal.D1 u' => 49%N :: hexDigitsOf u'
  | Hexadecimal.D2 u' => 50%N :: hexDigitsOf u'
  | Hexadecimal.D3 u' => 51%N :: hexDigitsOf u'
  | Hexadecimal.D4 u' => 52%N :: hexDigitsOf u'
  | Hexadecimal.D5 u' => 53%N :: hexDigitsOf u'
  | Hexadecimal.D6 u' => 54%N :: hexDigitsOf u'
  | Hexadecimal.D7 u' => 55%N :: hexDigitsOf u'
  | Hexadecimal.D8 u' => 56%N :: hexDigitsOf u'
  | Hexadecimal.D9 u' => 57%N :: hexDigitsOf u'
  | Hexadecimal.Da u' => 97%N :: hexDigitsOf u'
  | Hexadecimal.Db u' => 98%N :: hexDigitsOf u'
  | Hexadecimal.Dc u' => 99%N :: hexDigitsOf u'
  | Hexadecimal.Dd u' => 100%N :: hexDigitsOf u'
  | Hexadecimal.De u' => 101%N :: hexDigitsOf u'
  | Hexadecimal.Df u' => 102%N :: hexDigitsOf u'
  end.

Definition numberToHex (n : N) : jsstring := hexDigitsOf (N.to_hex_uint n).

(** [String.prototype.padStart] with a filler of one code unit. *)
Definition padStart (targetLength : nat) (filler : cu) (s : jsstring)
  : jsstring :=
  repeat filler (targetLength - length s) ++ s.

(** [{ hashLength?: number }], the length an integer. *)
Record HashedFilenameOptions := { opt_hashLength : option Z }.

Section File.

Context {platform : Platform}.

(** The SHA-256 digest of the platform, from bytes to bytes: both
    [crypto.subtle.digest] and Node's [createHash] compute it, and the
    code has no part in it. *)
Variable sha256 : list N -> list N.

(** hashContent on the bytes getArrayBuffer hands over: the digest in
    lower-case hexadecimal, two digits a byte, cut to [hashLength], which
    is 8 when left out.  (The Node fallback slices [digest("hex")], the
    same text.) *)
Definition hashContent (buffer : list N) (hashLength : option Z) : jsstring :=
  let hashLength := orDefault 8%Z hashLength in
  slice (concat (map (fun b => padStart 2 48 (numberToHex b)) (sha256 buffer)))
    0 (Some hashLength).

Definition sanitizeFilename (name : jsvalue) : outcome jsstring :=
  convertToSlug name {| opt_separator := None; opt_allowDots := Some true |}.

Definition getHashedFilename (buffer : list N) (originalName : jsstring)
    (options : HashedFilenameOptions) : outcome jsstring :=
  let hashLength := orDefault 8%Z (opt_hashLength options) in
  let hash := hashContent buffer (Some hashLength) in
  let dotIndex := lastIndexOf originalName 46 in
  let base := if (0 <? dotIndex)%Z then slice originalName 0 (Some dotIndex)
              else originalName in
  let ext := if (0 <? dotIndex)%Z then slice originalName (dotIndex + 1) None
             else [] in
  safeBase <- sanitizeFilename (JSString base) ;;
  Returns (match ext with
           | _ :: _ => safeBase ++ str "." ++ hash ++ str "." ++ ext
           | [] => safeBase ++ str "." ++ hash
           end).

End File.

(** ** Notions used in the further properties *)

Definition isHexDigit (c : cu) : bool :=
  (N.leb 48 c && N.leb c 57) || (N.leb 97 c && N.leb c 102).

(** The options under which sanitizeFilename calls convertToSlug. *)
Definition filenameOptions : SlugOptions :=
  {| opt_separator := None; opt_allowDots := Some true |}.

(** A stand-in digest for examples: thirty-two bytes, the first of them
    the length of the input. *)
Definition sampleDigest (buffer : list N) : list N :=
  (N.of_nat (length buffer) mod 256)%N :: repeat 171%N 31.

(** A byte of a digest. *)
Definition isByte (b : N) : bool := N.ltb b 256.

(** No allowed special character is itself a letter or a digit. *)
Definition plainSpecials (allowedSpecialChars : list jsstring) : bool :=
  forallb (forallb (fun c => negb (isAlnum c))) allowedSpecialChars.

(** * Properties *)

(** ** The matcher finds exactly the matches a pattern denotes *)

Lemma Matches_extent r x y :
  Matches r x y ->
  fst y + length (snd y) = fst x + length (snd x) /\ fst x <= fst y.
Proof.
  induction 1; simpl in *; try lia.
Qed.

Section RepeatSound.

Variable a : regex.
Hypothesis sound_a : forall x c z,
  compile a x c = Some z -> exists y, Matches a x y /\ c y = Some z.

Lemma repeatMatcher_sound fuel : forall min x c z,
  repeatMatcher (compile a) fuel min x c = Some z ->
  exists y, Matches (Rep min a) x y /\ c y = Some z.
Proof.
  induction fuel as [|fuel IH]; intros min x c z H; simpl in H; [discriminate|].
  destruct (Nat.eqb_spec min 0) as [Hm|Hm].
  - subst min. simpl in H.
    destruct (compile a x _) as [z0|] eqn:E.
    + injection H as ->. apply sound_a in E. destruct E as (y & Hy & Hd).
      destruct (Nat.eqb_spec (fst y) (fst x)) as [He|He]; [discriminate|].
      apply IH in Hd. destruct Hd as (y' & Hy' & Hc).
      exists y'. split; [|exact Hc].
      eapply MRepStep; [exact Hy | intros _; exact He | exact Hy'].
    + exists x. split; [constructor | exact H].
  - apply sound_a in H. destruct H as (y & Hy & Hd). simpl in Hd.
    apply IH in Hd. destruct Hd as (y' & Hy' & Hc).
    exists y'. split; [|exact Hc].
    eapply MRepStep; [exact Hy | intros; contradiction | exact Hy'].
Qed.

End RepeatSound.

Lemma compile_sound r : forall x c z,
  compile r x c = Some z -> exists y, Matches r x y /\ c y = Some z.
Proof.
  induction r as [|ch|neg rs|a IHa b IHb|a IHa b IHb|min a IHa| |];
    intros [i s] c z H;
    [simpl in H|simpl in H|simpl in H|simpl in H|simpl in H| |simpl in H|simpl in H].
  - exists (i, s). split; [constructor | exact H].
  - unfold charMatcher in H. simpl in H. destruct s as [|c0 t]; [discriminate|].
    destruct (N.eqb_spec ch c0) as [->|]; [|discriminate].
    exists (S i, t). split; [constructor | exact H].
  - unfold charMatcher in H. simpl in H. destruct s as [|c0 t]; [discriminate|].
    destruct (clsMem neg rs c0) eqn:E; [|discriminate].
    exists (S i, t). split; [constructor; exact E | exact H].
  - apply IHa in H. destruct H as (y & Hy & H). apply IHb in H.
    destruct H as (y' & Hy' & H). exists y'. split; [econstructor; eauto | exact H].
  - destruct (compile a (i, s) c) as [z0|] eqn:E.
    + injection H as ->. apply IHa in E. destruct E as (y & Hy & E).
      exists y. split; [apply MAltL; exact Hy | exact E].
    + apply IHb in H. destruct H as (y & Hy & H).
      exists y. split; [apply MAltR; exact Hy | exact H].
  - eapply repeatMatcher_sound; [exact IHa | exact H].
  - destruct i; [|discriminate]. exists (0, s). split; [constructor | exact H].
  - destruct s; [|discriminate]. exists (i, []). split; [constructor | exact H].
Qed.

Lemma compile_complete_gen r x y :
  Matches r x y ->
  forall c, c y <> None ->
  compile r x c <> None /\
  (forall min a, r = Rep min a ->
     forall fuel, min + length (snd x) < fuel ->
     repeatMatcher (compile a) fuel min x c <> None).
Proof.
  induction 1 as [x|ch i t|neg rs ch i t Hc|a b x y z Ha IHa Hb IHb
                 |a b x y Ha IHa|a b x y Hb IHb|a x
                 |a min x y z Ha IHa Hp Hr IHr|s|i];
    intros c Hc'.
  - split; [exact Hc' | discriminate].
  - split; [|discriminate]. simpl. unfold charMatcher. simpl.
    rewrite N.eqb_refl. exact Hc'.
  - split; [|discriminate]. simpl. unfold charMatcher. simpl.
    rewrite Hc. exact Hc'.
  - split; [|discriminate]. simpl. apply IHa. apply IHb. exact Hc'.
  - split; [|discriminate]. simpl.
    destruct (compile a x c) eqn:E; [discriminate|].
    exfalso. apply (proj1 (IHa c Hc')). exact E.
  - split; [|discriminate]. simpl.
    destruct (compile a x c) eqn:E; [discriminate|].
    apply IHb. exact Hc'.
  - assert (G : forall fuel, 0 + length (snd x) < fuel ->
                repeatMatcher (compile a) fuel 0 x c <> None).
    { intros [|fuel] Hf; [lia|]. simpl.
      destruct (compile a x _); [discriminate | exact Hc']. }
    split.
    + change (repeatMatcher (compile a) (S (0 + length (snd x))) 0 x c <> None).
      apply G. lia.
    + intros min a0 E. injection E as <- <-. exact G.
  - assert (G : forall fuel, min + length (snd x) < fuel ->
                repeatMatcher (compile a) fuel min x c <> None).
    { intros [|fuel] Hf; [lia|].
      pose proof (Matches_extent Ha) as [Hlen Hle].
      simpl.
      destruct (Nat.eqb_spec min 0) as [Hm|Hm].
      - specialize (Hp Hm). subst min. simpl.
        match goal with
        | |- match compile a x ?d with _ => _ end <> None =>
            assert (Hd : d y <> None)
        end.
        { destruct (Nat.eqb_spec (fst y) (fst x)) as [He|He]; [contradiction|].
          apply (proj2 (IHr c Hc') 0 a eq_refl). simpl in *. lia. }
        destruct (compile a x _) eqn:E; [discriminate|].
        exfalso. eapply (proj1 (IHa _ Hd)). exact E.
      - simpl.
        apply (proj1 (IHa (fun y0 => repeatMatcher (compile a) fuel (pred min) y0 c)
                          (proj2 (IHr c Hc') (pred min) a eq_refl fuel
                                 ltac:(lia)))). }
    split.
    + change (repeatMatcher (compile a) (S (min + length (snd x))) min x c <> None).
      apply G. lia.
    + intros min0 a0 E. injection E as <- <-. exact G.
  - split; [exact Hc' | discriminate].
  - split; [exact Hc' | discriminate].
Qed.

Lemma compile_complete r x y c :
  Matches r x y -> c y <> None -> compile r x c <> None.
Proof.
  intros H Hc. apply (proj1 (compile_complete_gen H c Hc)).
Qed.

Lemma matchAt_Some r i s :
  matchAt r i s <> None <-> exists y, Matches r (i, s) y.
Proof.
  unfold matchAt. split.
  - destruct (compile r (i, s) Some) as [z|] eqn:E; [|congruence].
    intros _. apply compile_sound in E. destruct E as (y & Hy & _). eauto.
  - intros (y & Hy).
    destruct (compile r (i, s) Some) as [z|] eqn:E; [discriminate|].
    exfalso. eapply compile_complete; eauto. discriminate.
Qed.

Lemma regExpExec_Some r : forall s i,
  regExpExec r i s <> None <->
  exists k y, k <= length s /\ Matches r (i + k, skipn k s) y.
Proof.
  induction s as [|c t IH]; intros i; simpl.
  - destruct (matchAt r i []) eqn:E.
    + split; [intros _|discriminate].
      assert (H : matchAt r i [] <> None) by congruence.
      apply matchAt_Some in H. destruct H as (y & Hy).
      exists 0, y. rewrite Nat.add_0_r. simpl. auto.
    + split; [congruence|]. intros (k & y & Hk & Hy).
      assert (k = 0) by lia. subst k. rewrite Nat.add_0_r in Hy. simpl in Hy.
      exfalso. revert E. apply matchAt_Some. eauto.
  - destruct (matchAt r i (c :: t)) eqn:E.
    + split; [intros _|discriminate].
      assert (H : matchAt r i (c :: t) <> None) by congruence.
      apply matchAt_Some in H. destruct H as (y & Hy).
      exists 0, y. rewrite Nat.add_0_r. simpl. split; [lia | exact Hy].
    + rewrite IH. split.
      * intros (k & y & Hk & Hy). exists (S k), y. split; [lia|].
        replace (i + S k) with (S i + k) by lia. exact Hy.
      * intros (k & y & Hk & Hy). destruct k as [|k].
        -- rewrite Nat.add_0_r in Hy. simpl in Hy.
           exfalso. revert E. apply matchAt_Some. eauto.
        -- exists k, y. split; [lia|].
           replace (S i + k) with (i + S k) by lia. exact Hy.
Qed.

Lemma test_true r s :
  test r s = true <->
  exists k y, k <= length s /\ Matches r (k, skipn k s) y.
Proof.
  unfold test. pose proof (regExpExec_Some r s 0) as H. simpl in H.
  destruct (regExpExec r 0 s); split; intros G.
  - apply H. discriminate.
  - reflexivity.
  - discriminate.
  - apply H in G. congruence.
Qed.

(** A pattern that opens with [^] is only tried with success at index
    zero. *)
Lemma test_anchored r s :
  test (Seq Bol r) s = true <-> exists y, Matches r (0, s) y.
Proof.
  rewrite test_true. split.
  - intros (k & y & _ & H). inversion H as [| | |a b x y0 z Hb Hr| | | | | |]; subst.
    inversion Hb; subst. simpl in Hr. eauto.
  - intros (y & H). exists 0, y. split; [lia|]. simpl.
    econstructor; [constructor | exact H].
Qed.

(** ** One-code-unit patterns and their repetitions *)

Lemma charRegex_Chr c : charRegex (Chr c) (fun ch => N.eqb ch c).
Proof.
  intros [i s] y. split.
  - inversion 1; subst. exists c, t. simpl. rewrite N.eqb_refl. auto.
  - intros (ch & t & Hs & Hp & ->). simpl in *. subst s.
    apply N.eqb_eq in Hp. subst ch. constructor.
Qed.

Lemma charRegex_Cls neg rs : charRegex (Cls neg rs) (clsMem neg rs).
Proof.
  intros [i s] y. split.
  - inversion 1; subst. exists c, t. simpl. auto.
  - intros (ch & t & Hs & Hp & ->). simpl in *. subst s.
    constructor. exact Hp.
Qed.

Section CharRep.

Variables (a : regex) (p : cu -> bool).
Hypothesis a_char : charRegex a p.

Lemma Matches_rep_char_inv r x y :
  Matches r x y -> forall n, r = Rep n a ->
  exists w, n <= length w /\ forallb p w = true /\
            snd x = w ++ snd y /\ fst y = fst x + length w.
Proof.
  induction 1 as [| | | | | |a0 x|a0 min x y z Ha _ Hp Hr IHr| |];
    intros n E; try discriminate; injection E as E1 E2; subst.
  - exists []. simpl. repeat split; lia.
  - apply a_char in Ha. destruct Ha as (c & t & Hx & Hc & ->).
    destruct (IHr (pred n) eq_refl) as (w & Hn & Hw & Hs & Hi).
    exists (c :: w). simpl in *. rewrite Hc, Hw, Hx, Hs.
    repeat split; lia.
Qed.

Lemma Matches_rep_char_intro w : forall n i s,
  n <= length w -> forallb p w = true ->
  Matches (Rep n a) (i, w ++ s) (i + length w, s).
Proof.
  induction w as [|c w IH]; intros n i s Hn Hw; simpl in *.
  - assert (n = 0) by lia. subst n. rewrite Nat.add_0_r. constructor.
  - apply andb_true_iff in Hw. destruct Hw as [Hc Hw].
    eapply MRepStep with (y := (S i, w ++ s)).
    + apply a_char. exists c, (w ++ s). auto.
    + simpl. lia.
    + replace (i + S (length w)) with (S i + length w) by lia.
      apply IH; [lia | exact Hw].
Qed.

Lemma Matches_rep_char n x y :
  Matches (Rep n a) x y <->
  exists w, n <= length w /\ forallb p w = true /\
            snd x = w ++ snd y /\ fst y = fst x + length w.
Proof.
  split.
  - intros H. eapply Matches_rep_char_inv; eauto.
  - intros (w & Hn & Hw & Hs & Hi). destruct x as [i s], y as [j s'].
    simpl in *. subst. apply Matches_rep_char_intro; assumption.
Qed.

End CharRep.

(** ** The validity pattern *)

Section Validity.

Variables (rA rS : regex) (pA pS : cu -> bool).
Hypothesis A_char : charRegex rA pA.
Hypothesis S_char : charRegex rS pS.

Lemma accepts_run w : forall b s,
  w <> [] -> forallb pA w = true ->
  accepts pA pS b (w ++ s) = accepts pA pS true s.
Proof.
  induction w as [|c w IH]; intros b s Hne Hw; [congruence|].
  simpl in *. apply andb_true_iff in Hw. destruct Hw as [Hc Hw].
  rewrite Hc. destruct w as [|c' w']; [reflexivity|].
  apply IH; [discriminate | exact Hw].
Qed.

Lemma tail_accepts r x y :
  Matches r x y -> r = Rep 0 (Seq rS (Rep 1 rA)) -> snd y = [] ->
  accepts pA pS true (snd x) = true.
Proof.
  induction 1 as [| | | | | |a0 x|a0 min x y z Ha _ Hp Hr IHr| |];
    intros E Hy; try discriminate; inversion E; subst.
  - rewrite Hy. reflexivity.
  - specialize (IHr eq_refl Hy).
    inversion Ha as [| | |a1 b1 x1 m z1 HS HA| | | | | |]; subst.
    apply S_char in HS. destruct HS as (c & t & Hx & Hc & ->).
    apply (Matches_rep_char A_char) in HA.
    destruct HA as (w & Hn & Hw & Hs & _). simpl in Hs.
    rewrite Hx, Hs. simpl.
    assert (Hne : w <> []) by (destruct w; [simpl in Hn; lia | discriminate]).
    rewrite Hc. simpl.
    destruct (pA c); rewrite accepts_run by assumption; exact IHr.
Qed.

Lemma accepts_tail : forall s b,
  accepts pA pS b s = true ->
  exists w s1,
    s = w ++ s1 /\ forallb pA w = true /\ (b = false -> w <> []) /\
    forall i, exists j, Matches (Rep 0 (Seq rS (Rep 1 rA))) (i, s1) (j, []).
Proof.
  induction s as [|c t IH]; intros b H; simpl in H.
  - subst b. exists [], []. repeat split; try congruence.
    intros i. exists i. constructor.
  - destruct (pA c) eqn:Hc.
    + destruct (IH _ H) as (w & s1 & -> & Hw & _ & Hs).
      exists (c :: w), s1. simpl. rewrite Hc, Hw.
      repeat split; [discriminate | exact Hs].
    + destruct (pS c) eqn:Hs; [|discriminate]. destruct b; [|discriminate].
      simpl in H. destruct (IH _ H) as (w & s1 & -> & Hw & Hne & Hstar).
      specialize (Hne eq_refl).
      exists [], (c :: w ++ s1). repeat split; try congruence.
      intros i. destruct (Hstar (S i + length w)) as (j & Hj).
      exists j. eapply MRepStep with (y := (S i + length w, s1)).
      * eapply MSeq with (y := (S i, w ++ s1)).
        -- apply S_char. exists c, (w ++ s1). auto.
        -- apply (Matches_rep_char_intro A_char).
           ++ destruct w; [congruence | simpl; lia].
           ++ exact Hw.
      * simpl. lia.
      * exact Hj.
Qed.

Lemma test_validityPattern s :
  test (validityPattern rA rS) s = accepts pA pS false s.
Proof.
  apply eq_true_iff_eq. unfold validityPattern. rewrite test_anchored. split.
  - intros (y & H).
    inversion H as [| | |a1 b1 x1 m z1 HA Hrest| | | | | |]; subst.
    inversion Hrest as [| | |a2 b2 x2 m2 z2 Htail Heol| | | | | |]; subst.
    apply (Matches_rep_char A_char) in HA.
    destruct HA as (w & Hn & Hw & Hs & _). simpl in Hs. subst s.
    rewrite accepts_run.
    + eapply tail_accepts; [exact Htail | reflexivity |].
      inversion Heol; reflexivity.
    + destruct w; [simpl in Hn; lia | discriminate].
    + exact Hw.
  - intros H. destruct (accepts_tail _ _ H) as (w & s1 & -> & Hw & Hne & Hstar).
    specialize (Hne eq_refl).
    destruct (Hstar (0 + length w)) as (j & Hj).
    exists (j, []).
    eapply MSeq; [|eapply MSeq; [exact Hj | constructor]].
    apply (Matches_rep_char_intro A_char).
    + destruct w; [congruence | simpl; lia].
    + exact Hw.
Qed.

End Validity.

(** ** The automaton and the shape it accepts *)

Section Shape.

Variables (alnum sep : cu -> bool).

Let sep' (c : cu) : bool := sep c && negb (alnum c).

Lemma accepts_shape : forall s b,
  accepts alnum sep b s = true <->
  forallb (fun c => alnum c || sep c) s = true /\
  adjacent sep' s = false /\
  match s with
  | [] => b = true
  | c :: _ => (b = false -> alnum c = true) /\ lastIs alnum s = true
  end.
Proof.
  induction s as [|c t IH]; intros b.
  - simpl. intuition.
  - pose proof (IH true) as IHt. pose proof (IH false) as IHf. clear IH.
    destruct t as [|y t'].
    + simpl. unfold sep'.
      destruct (alnum c), (sep c), b; simpl; intuition congruence.
    + cbv beta iota in IHt, IHf.
      change (accepts alnum sep b (c :: y :: t'))
        with (if alnum c then accepts alnum sep true (y :: t')
              else if sep c && b then accepts alnum sep false (y :: t')
              else false).
      change (forallb (fun c0 => alnum c0 || sep c0) (c :: y :: t'))
        with ((alnum c || sep c) &&
              forallb (fun c0 => alnum c0 || sep c0) (y :: t')).
      change (adjacent sep' (c :: y :: t'))
        with ((sep' c && sep' y) || adjacent sep' (y :: t')).
      change (lastIs alnum (c :: y :: t')) with (lastIs alnum (y :: t')).
      assert (Hy : forallb (fun c0 => alnum c0 || sep c0) (y :: t') = true ->
                   alnum y || sep y = true).
      { simpl. intros H. apply andb_true_iff in H. apply H. }
      unfold sep' at 1 2.
      destruct (alnum c), (sep c), b, (alnum y), (sep y); simpl in *;
        intuition congruence.
Qed.

Lemma accepts_wellFormed_gen s :
  accepts alnum sep false s = true <-> wellFormed alnum sep' s.
Proof.
  rewrite accepts_shape. unfold wellFormed.
  assert (E : forallb (fun c => alnum c || sep' c) s
              = forallb (fun c => alnum c || sep c) s).
  { clear. induction s as [|c t IH]; simpl; [reflexivity|].
    rewrite IH. unfold sep'. destruct (alnum c), (sep c); reflexivity. }
  rewrite E. destruct s as [|c t].
  - simpl. intuition congruence.
  - cbn [firstIs]. intuition (try discriminate; auto).
Qed.

Hypothesis disjoint : forall c, sep c = true -> alnum c = false.

Lemma adjacent_disjoint s : adjacent sep' s = adjacent sep s.
Proof.
  assert (E : forall c, sep' c = sep c).
  { intros c. unfold sep'. destruct (sep c) eqn:Hs; [|reflexivity].
    rewrite (disjoint Hs). reflexivity. }
  induction s as [|x t IH]; [reflexivity|].
  destruct t as [|y t']; [reflexivity|].
  cbn [adjacent] in *. rewrite IH, !E. reflexivity.
Qed.

Lemma accepts_wellFormed s :
  accepts alnum sep false s = true <-> wellFormed alnum sep s.
Proof.
  rewrite accepts_wellFormed_gen. unfold wellFormed.
  rewrite adjacent_disjoint.
  assert (E : forallb (fun c => alnum c || sep' c) s
              = forallb (fun c => alnum c || sep c) s).
  { clear. induction s as [|c t IH]; simpl; [reflexivity|].
    rewrite IH. unfold sep'. destruct (alnum c), (sep c); reflexivity. }
  rewrite E. reflexivity.
Qed.

End Shape.

(** ** Prefixes and suffixes *)

Lemma takeWhile_dropWhile p s : takeWhile p s ++ dropWhile p s = s.
Proof.
  induction s as [|c t IH]; simpl; [reflexivity|].
  destruct (p c); simpl; [rewrite IH|]; reflexivity.
Qed.

Lemma firstn_takeWhile p s : firstn (length (takeWhile p s)) s = takeWhile p s.
Proof.
  induction s as [|c t IH]; simpl; [reflexivity|].
  destruct (p c); simpl; [rewrite IH|]; reflexivity.
Qed.

Lemma skipn_takeWhile p s : skipn (length (takeWhile p s)) s = dropWhile p s.
Proof.
  induction s as [|c t IH]; simpl; [reflexivity|].
  destruct (p c); simpl; [rewrite IH|]; reflexivity.
Qed.

Lemma takeWhile_length p s : length (takeWhile p s) <= length s.
Proof.
  induction s as [|c t IH]; simpl; [lia|]. destruct (p c); simpl; lia.
Qed.

Lemma dropWhile_head p s c t : dropWhile p s = c :: t -> p c = false.
Proof.
  induction s as [|x s IH]; simpl; [discriminate|].
  destruct (p x) eqn:E; [exact IH|]. intros H. injection H as -> _. exact E.
Qed.

Lemma takeWhile_all p s : forallb p s = true -> takeWhile p s = s.
Proof.
  induction s as [|c t IH]; simpl; [reflexivity|].
  destruct (p c); simpl; [|discriminate]. intros H. rewrite IH; auto.
Qed.

Lemma forallb_takeWhile p s : forallb p (takeWhile p s) = true.
Proof.
  induction s as [|c t IH]; simpl; [reflexivity|].
  destruct (p c) eqn:E; simpl; [rewrite E; exact IH | reflexivity].
Qed.

Lemma dropWhileEnd_nil p s : dropWhileEnd p s = [] <-> forallb p s = true.
Proof.
  induction s as [|c t IH]; simpl; [tauto|].
  destruct (dropWhileEnd p t) eqn:E.
  - destruct (p c); simpl.
    + split; [intros _; apply IH; reflexivity | reflexivity].
    + split; discriminate.
  - split; [discriminate|]. intros H. apply andb_true_iff in H.
    destruct H as [_ H]. apply IH in H. discriminate.
Qed.

Lemma dropWhileEnd_cons_keep p c t :
  forallb p (c :: t) = false -> dropWhileEnd p (c :: t) = c :: dropWhileEnd p t.
Proof.
  intros H. simpl in *. destruct (dropWhileEnd p t) eqn:E; [|reflexivity].
  assert (Ht : forallb p t = true) by (apply dropWhileEnd_nil; exact E).
  rewrite Ht, andb_true_r in H. rewrite H. reflexivity.
Qed.

(** ** What the greedy quantifier consumes *)

Section GreedyChar.

Variable p : cu -> bool.

Lemma repeat_char_Some : forall s fuel min i,
  min + length s < fuel ->
  repeatMatcher (charMatcher p) fuel min (i, s) Some =
  if min <=? length (takeWhile p s)
  then Some (i + length (takeWhile p s), dropWhile p s) else None.
Proof.
  induction s as [|c t IH]; intros [|fuel] min i Hf; try (simpl in Hf; lia).
  - simpl. destruct min; simpl; [rewrite Nat.add_0_r|]; reflexivity.
  - cbn [repeatMatcher charMatcher snd fst takeWhile dropWhile].
    destruct (p c) eqn:Hc.
    + replace (S i =? i) with false by (symmetry; apply Nat.eqb_neq; lia).
      rewrite andb_false_r. rewrite IH by (simpl in Hf; destruct min; simpl; lia).
      cbn [length]. replace (S i + length (takeWhile p t))
        with (i + S (length (takeWhile p t))) by lia.
      destruct min as [|min]; simpl; [reflexivity|].
      destruct (min <=? length (takeWhile p t)); reflexivity.
    + simpl. destruct min; simpl; [rewrite Nat.add_0_r|]; reflexivity.
Qed.

Lemma repeat_char_atEnd : forall s fuel min i,
  min + length s < fuel ->
  repeatMatcher (charMatcher p) fuel min (i, s) atEnd =
  if (min <=? length s) && forallb p s then Some (i + length s, []) else None.
Proof.
  induction s as [|c t IH]; intros [|fuel] min i Hf; try (simpl in Hf; lia).
  - simpl. destruct min; simpl; [rewrite Nat.add_0_r|]; reflexivity.
  - cbn [repeatMatcher charMatcher snd fst forallb length].
    destruct (p c) eqn:Hc.
    + replace (S i =? i) with false by (symmetry; apply Nat.eqb_neq; lia).
      rewrite andb_false_r. rewrite IH by (simpl in Hf; destruct min; simpl; lia).
      replace (S i + length t) with (i + S (length t)) by lia.
      destruct min as [|min]; simpl.
      * destruct (forallb p t); reflexivity.
      * destruct (min <=? length t); reflexivity.
    + simpl. rewrite andb_false_r. destruct min; reflexivity.
Qed.

End GreedyChar.

Lemma charCompiled_Chr c : charCompiled (Chr c) (N.eqb c).
Proof. reflexivity. Qed.

Lemma charCompiled_Cls neg rs : charCompiled (Cls neg rs) (clsMem neg rs).
Proof. reflexivity. Qed.

Section ReplaceChar.

Variables (a : regex) (p : cu -> bool).
Hypothesis a_char : charCompiled a p.

Lemma matchAt_char i s :
  matchAt a i s =
  match s with c :: _ => if p c then Some (S i) else None | [] => None end.
Proof.
  unfold matchAt. rewrite a_char. unfold charMatcher. simpl.
  destruct s as [|c t]; [reflexivity|]. destruct (p c); reflexivity.
Qed.

Lemma matchAt_rep min i s :
  matchAt (Rep min a) i s =
  if min <=? length (takeWhile p s)
  then Some (i + length (takeWhile p s)) else None.
Proof.
  unfold matchAt. cbn [compile]. rewrite a_char.
  rewrite repeat_char_Some by (simpl; lia).
  destruct (min <=? _); reflexivity.
Qed.

Lemma matchAt_ends i s :
  matchAt (endsPattern a) i s =
  if (i =? 0) && (1 <=? length (takeWhile p s))
  then Some (i + length (takeWhile p s))
  else if (1 <=? length s) && forallb p s then Some (i + length s)
  else None.
Proof.
  unfold matchAt, endsPattern. cbn [compile fst snd]. rewrite ?a_char.
  change (fun y : mstate => match snd y with [] => Some y | _ :: _ => None end)
    with atEnd.
  replace (compile a) with (charMatcher p) by (symmetry; exact a_char).
  rewrite repeat_char_atEnd by (simpl; lia).
  rewrite repeat_char_Some by (simpl; lia).
  destruct (i =? 0); cbn [andb].
  - destruct (1 <=? length (takeWhile p s)); [reflexivity|].
    destruct ((1 <=? length s) && forallb p s); reflexivity.
  - destruct ((1 <=? length s) && forallb p s); reflexivity.
Qed.

End ReplaceChar.

(** ** Global replacement *)

Lemma replaceLoop_skip r f input : forall s i k,
  k <= length s ->
  replaceLoop r f input i k s = replaceLoop r f input (i + k) 0 (skipn k s).
Proof.
  induction s as [|c t IH]; intros i k Hk.
  - simpl in Hk. assert (k = 0) by lia. subst k.
    rewrite Nat.add_0_r. reflexivity.
  - destruct k as [|k]; [rewrite Nat.add_0_r; reflexivity|].
    cbn [replaceLoop skipn]. rewrite IH by (simpl in Hk; lia). f_equal. lia.
Qed.

Section ReplaceRuns.

Variables (a : regex) (p : cu -> bool) (f : replacer) (g : jsstring -> jsstring).
Hypothesis a_char : charCompiled a p.
Hypothesis f_callback : forall m i input, f m i input = g m.

(** Replacing single code units. *)
Lemma replaceLoop_char input : forall s i,
  replaceLoop a f input i 0 s =
  flat_map (fun c => if p c then g [c] else [c]) s.
Proof.
  induction s as [|c t IH]; intros i.
  - simpl. rewrite (matchAt_char a_char). reflexivity.
  - cbn [replaceLoop flat_map]. rewrite (matchAt_char a_char).
    destruct (p c).
    + replace (S i - i) with 1 by lia. replace (S i =? i) with false
        by (symmetry; apply Nat.eqb_neq; lia).
      simpl. rewrite f_callback, IH. reflexivity.
    + simpl. rewrite IH. reflexivity.
Qed.

(** Replacing runs of at least [min] code units: a run is read whole, or
    left as it is when it is too short. *)
Lemma replaceLoop_rep min input : 1 <= min -> forall s i,
  replaceLoop (Rep min a) f input i 0 s =
  (if min <=? length (takeWhile p s) then g (takeWhile p s) else takeWhile p s)
  ++ match dropWhile p s with
     | [] => []
     | c :: t =>
         c :: replaceLoop (Rep min a) f input (i + length (takeWhile p s) + 1) 0 t
     end.
Proof.
  intros Hmin. induction s as [|c t IH]; intros i.
  - simpl. rewrite (matchAt_rep a_char). simpl.
    destruct min; [lia | reflexivity].
  - cbn [replaceLoop]. rewrite (matchAt_rep a_char).
    cbn [takeWhile dropWhile]. destruct (p c) eqn:Hc.
    + cbn [length]. set (n := length (takeWhile p t)).
      destruct (min <=? S n) eqn:Hn.
      * replace (i + S n - i) with (S n) by lia.
        replace (i + S n =? i) with false by (symmetry; apply Nat.eqb_neq; lia).
        rewrite f_callback.
        change (firstn (S n) (c :: t)) with (c :: firstn n t).
        unfold n at 1. rewrite firstn_takeWhile.
        f_equal. replace (S n - 1) with n by lia.
        rewrite replaceLoop_skip by apply takeWhile_length. unfold n at 2.
        rewrite skipn_takeWhile.
        destruct (dropWhile p t) as [|c' t'] eqn:Ed.
        -- simpl. rewrite (matchAt_rep a_char). simpl.
           destruct min; [lia | reflexivity].
        -- cbn [replaceLoop]. rewrite (matchAt_rep a_char). simpl takeWhile.
           rewrite (dropWhile_head _ _ Ed). simpl.
           destruct min; [lia|]. simpl. f_equal. f_equal. lia.
      * simpl. f_equal. rewrite IH. fold n.
        apply Nat.leb_gt in Hn.
        replace (min <=? n) with false by (symmetry; apply Nat.leb_gt; lia).
        f_equal. destruct (dropWhile p t); [reflexivity|].
        f_equal. f_equal. lia.
    + simpl. destruct min; [lia|]. simpl. f_equal. f_equal. lia.
Qed.

End ReplaceRuns.

Lemma collapseFrom_span p g : forall s run,
  collapseFrom p g run s =
  emit g (run ++ takeWhile p s) ++
  match dropWhile p s with
  | [] => []
  | c :: t => c :: collapseFrom p g [] t
  end.
Proof.
  induction s as [|c t IH]; intros run; simpl.
  - rewrite !app_nil_r. reflexivity.
  - destruct (p c).
    + rewrite IH. rewrite <- app_assoc. reflexivity.
    + rewrite app_nil_r. reflexivity.
Qed.

Section ReplaceRunsSpec.

Variables (a : regex) (p : cu -> bool) (f : replacer) (g : jsstring -> jsstring).
Hypothesis a_char : charCompiled a p.
Hypothesis f_callback : forall m i input, f m i input = g m.

Lemma replaceLoop_rep_runs min input : 1 <= min -> forall n s i,
  length s <= n ->
  replaceLoop (Rep min a) f input i 0 s =
  replaceRuns p (fun run => if min <=? length run then g run else run) s.
Proof.
  intros Hmin. unfold replaceRuns.
  induction n as [|n IH]; intros s i Hs.
  - destruct s; [|simpl in Hs; lia]. simpl.
    rewrite (matchAt_rep a_char). simpl. destruct min; [lia | reflexivity].
  - rewrite (@replaceLoop_rep _ _ _ _ a_char f_callback _ input Hmin).
    rewrite collapseFrom_span. simpl app.
    pose proof (takeWhile_dropWhile p s) as Hsplit.
    assert (Hl : length (takeWhile p s) + length (dropWhile p s) = length s)
      by (rewrite <- length_app, Hsplit; reflexivity).
    f_equal.
    + destruct (takeWhile p s) eqn:E; [|reflexivity].
      simpl. destruct min; [lia | reflexivity].
    + destruct (dropWhile p s) as [|c t]; [reflexivity|].
      f_equal. apply IH. simpl in Hl. lia.
Qed.

Lemma replaceAll_rep min s : 1 <= min ->
  replaceAll (Rep min a) f s =
  replaceRuns p (fun run => if min <=? length run then g run else run) s.
Proof.
  intros Hmin. unfold replaceAll.
  apply (@replaceLoop_rep_runs min s Hmin (length s)). lia.
Qed.

Lemma replaceAll_char s :
  replaceAll a f s = flat_map (fun c => if p c then g [c] else [c]) s.
Proof.
  unfold replaceAll. apply (@replaceLoop_char _ _ _ _ a_char f_callback).
Qed.

End ReplaceRunsSpec.

Section ReplaceEnds.

Variables (a : regex) (p : cu -> bool) (f : replacer).
Hypothesis a_char : charCompiled a p.
Hypothesis f_empty : forall m i input, f m i input = [].

Lemma replaceLoop_ends_inner input : forall s i,
  replaceLoop (endsPattern a) f input (S i) 0 s = dropWhileEnd p s.
Proof.
  induction s as [|c t IH]; intros i.
  - simpl. rewrite (matchAt_ends a_char). reflexivity.
  - cbn [replaceLoop]. rewrite (matchAt_ends a_char).
    cbn [Nat.eqb andb length Nat.leb].
    destruct (forallb p (c :: t)) eqn:Hall.
    + rewrite (proj2 (dropWhileEnd_nil p (c :: t)) Hall). rewrite f_empty.
      replace (S i + S (length t) =? S i) with false
        by (symmetry; apply Nat.eqb_neq; lia).
      replace (S i + S (length t) - S i - 1) with (length t) by lia.
      rewrite replaceLoop_skip by lia.
      rewrite skipn_all. simpl. rewrite (matchAt_ends a_char). reflexivity.
    + rewrite IH. symmetry. apply dropWhileEnd_cons_keep. exact Hall.
Qed.

Lemma replaceAll_ends s : replaceAll (endsPattern a) f s = stripEnds p s.
Proof.
  unfold replaceAll, stripEnds. generalize s at 1. intros input.
  destruct s as [|c t].
  - simpl. rewrite (matchAt_ends a_char). reflexivity.
  - cbn [replaceLoop]. rewrite (matchAt_ends a_char).
    cbn [Nat.eqb andb takeWhile dropWhile]. destruct (p c) eqn:Hc.
    + cbn [length Nat.leb]. rewrite f_empty. cbn [app Nat.add Nat.eqb].
      rewrite Nat.sub_0_r. cbn [Nat.sub].
      rewrite Nat.sub_0_r.
      rewrite replaceLoop_skip by apply takeWhile_length.
      rewrite skipn_takeWhile. cbn [Nat.add].
      apply replaceLoop_ends_inner.
    + cbn [length Nat.leb forallb]. rewrite Hc. cbn [andb].
      rewrite replaceLoop_ends_inner.
      symmetry. apply dropWhileEnd_cons_keep. simpl. rewrite Hc. reflexivity.
Qed.

End ReplaceEnds.

(** ** Replacement templates *)

Lemma template_nil m i input : template [] m i input = [].
Proof. reflexivity. Qed.

Lemma template_escape m i input : template (str "\$&") m i input = 92%N :: m.
Proof. unfold template. simpl. rewrite app_nil_r. reflexivity. Qed.

Lemma template_single c m i input : template [c] m i input = [c].
Proof. reflexivity. Qed.

(** ** Classes of single code units *)

Lemma in_range_single c k : in_range c (single k) = N.eqb c k.
Proof.
  unfold in_range, single. simpl.
  destruct (N.eqb_spec c k) as [->|Hne].
  - rewrite N.leb_refl. reflexivity.
  - destruct (N.leb_spec k c), (N.leb_spec c k); simpl; try reflexivity.
    exfalso. apply Hne. apply N.le_antisymm; assumption.
Qed.

Lemma in_ranges_singles l c : in_ranges (map single l) c = includesChar l c.
Proof.
  unfold in_ranges, includesChar. induction l as [|k l IH]; simpl; [reflexivity|].
  rewrite in_range_single, IH. reflexivity.
Qed.

Lemma in_ranges_app rs1 rs2 c :
  in_ranges (rs1 ++ rs2) c = in_ranges rs1 c || in_ranges rs2 c.
Proof. unfold in_ranges. apply existsb_app. Qed.

Lemma includesChar_concat l c :
  includesChar (concat l) c = existsb (fun e => includesChar e c) l.
Proof.
  unfold includesChar. induction l as [|e l IH]; simpl; [reflexivity|].
  rewrite existsb_app, IH. reflexivity.
Qed.

(** ** Escaping, code unit by code unit *)

Lemma replaceAll_slugEscape s :
  replaceAll slugEscapePattern (template (str "\$&")) s =
  flat_map (escapeWith isSyntaxChar) s.
Proof.
  unfold slugEscapePattern.
  rewrite (@replaceAll_char _ _ _ (fun m => 92%N :: m)
             (charCompiled_Cls _ _) template_escape).
  apply flat_map_ext. intros c. unfold escapeWith, clsMem.
  rewrite xorb_false_l, in_ranges_singles. reflexivity.
Qed.

Lemma replaceAll_nameEscape s :
  replaceAll nameEscapePattern (template (str "\$&")) s =
  flat_map (escapeWith isNameSyntaxChar) s.
Proof.
  unfold nameEscapePattern.
  rewrite (@replaceAll_char _ _ _ (fun m => 92%N :: m)
             (charCompiled_Cls _ _) template_escape).
  apply flat_map_ext. intros c. unfold escapeWith, clsMem.
  rewrite xorb_false_l, in_ranges_singles. reflexivity.
Qed.

Lemma escapeChars_flat allowed :
  escapeChars allowed = flat_map (escapeWith isNameSyntaxChar) (concat allowed).
Proof.
  unfold escapeChars. induction allowed as [|e l IH]; simpl; [reflexivity|].
  rewrite replaceAll_nameEscape, IH, flat_map_app. reflexivity.
Qed.

(** ** Escaped text inside a class *)

Lemma isSyntaxChar_cases c :
  isSyntaxChar c = true ->
  In c [46; 42; 43; 63; 94; 36; 123; 125; 40; 41; 124; 91; 93; 92]%N.
Proof.
  unfold isSyntaxChar, includesChar. intros H.
  apply existsb_exists in H. destruct H as (k & Hk & E).
  apply N.eqb_eq in E. subst k. exact Hk.
Qed.

Lemma isNameSyntaxChar_cases c :
  isNameSyntaxChar c = true ->
  In c [46; 42; 43; 63; 94; 36; 123; 125; 40; 41; 124; 91; 93; 92; 45]%N.
Proof.
  unfold isNameSyntaxChar, includesChar. intros H.
  apply existsb_exists in H. destruct H as (k & Hk & E).
  apply N.eqb_eq in E. subst k. exact Hk.
Qed.

Lemma safeEscape_slug : safeEscape isSyntaxChar.
Proof.
  split; try reflexivity.
  intros c H. apply isSyntaxChar_cases in H. simpl in H.
  repeat (destruct H as [<-|H]; [reflexivity|]). contradiction.
Qed.

Lemma safeEscape_name : safeEscape isNameSyntaxChar.
Proof.
  split; try reflexivity.
  intros c H. apply isNameSyntaxChar_cases in H. simpl in H.
  repeat (destruct H as [<-|H]; [reflexivity|]). contradiction.
Qed.

Section EscapedClass.

Variable special : cu -> bool.
Hypothesis safe : safeEscape special.

Lemma special_false_neq c k : special c = false -> special k = true -> N.eqb c k = false.
Proof.
  intros Hc Hk. apply N.eqb_neq. intros ->. congruence.
Qed.

Lemma classAtoms_escaped : forall e rest,
  classAtoms (flat_map (escapeWith special) e ++ rest) =
  (r <- classAtoms rest ;;
   Returns (map (atomOf special) e ++ fst r,
            length (flat_map (escapeWith special) e) + snd r)).
Proof.
  induction e as [|c e IH]; intros rest.
  - simpl. destruct (classAtoms rest) as [[toks n]| |]; reflexivity.
  - cbn [flat_map map]. rewrite <- app_assoc. unfold escapeWith at 1 3.
    unfold atomOf at 1.
    destruct (special c) eqn:Hc.
    + cbn [app classAtoms]. change (N.eqb 92 93) with false.
      change (N.eqb 92 92) with true. cbn iota.
      rewrite (safe_identity safe _ Hc). rewrite IH.
      destruct (classAtoms rest) as [[toks n]| |]; reflexivity.
    + cbn [app classAtoms].
      rewrite (special_false_neq Hc (safe_bracket safe)).
      rewrite (special_false_neq Hc (safe_backslash safe)).
      rewrite IH. destruct (classAtoms rest) as [[toks n]| |]; reflexivity.
Qed.

Lemma escaped_head e rest :
  match flat_map (escapeWith special) e ++ 93%N :: rest with
  | d :: _ => N.eqb d 94
  | [] => false
  end = false.
Proof.
  destruct e as [|c e]; [reflexivity|]. simpl. unfold escapeWith.
  destruct (special c) eqn:Hc; simpl; [reflexivity|].
  apply (special_false_neq Hc (safe_caret safe)).
Qed.

End EscapedClass.

(** Atoms with no unescaped dash among them stand for themselves. *)
Lemma classRanges_singles : forall toks,
  forallb (fun t => negb (isDash t)) toks = true ->
  classRanges toks = Returns (map (fun t => single (snd t)) toks).
Proof.
  induction toks as [|a toks IH]; intros H; [reflexivity|].
  simpl in H. apply andb_true_iff in H. destruct H as [_ H].
  cbn [classRanges map]. rewrite (IH H).
  destruct toks as [|d toks']; [reflexivity|].
  destruct toks' as [|b toks'']; [reflexivity|].
  simpl in H. apply andb_true_iff in H. destruct H as [Hd _].
  apply negb_true_iff in Hd. rewrite Hd. reflexivity.
Qed.

Lemma name_atoms_no_dash e :
  forallb (fun t => negb (isDash t)) (map (atomOf isNameSyntaxChar) e) = true.
Proof.
  induction e as [|c e IH]; [reflexivity|]. simpl. rewrite IH, andb_true_r.
  unfold isDash, atomOf. simpl.
  destruct (N.eqb_spec c 45) as [->|]; [reflexivity|].
  rewrite andb_false_r. reflexivity.
Qed.

(** ** Reading a pattern past text already accounted for *)

Lemma parsePattern_skip stack f : forall a k b,
  parsePattern stack f (length a + k) (a ++ b) = parsePattern stack f k b.
Proof.
  induction a as [|c a IH]; intros k b; [reflexivity|].
  simpl. apply IH.
Qed.

Lemma parsePattern_class stack f t :
  parsePattern stack f 0 (91%N :: t) =
  (r <- parseClass t ;; parsePattern stack (pushTerm (fst r) true f) (snd r) t).
Proof. reflexivity. Qed.

(** ** The patterns of name/index.ts *)

Section NamePatterns.

Variable chars : jsstring.

Let esc := flat_map (escapeWith isNameSyntaxChar) chars.

Lemma parseClass_name rest :
  parseClass (esc ++ 93%N :: rest) =
  Returns (Cls false (map single chars), length esc + 1).
Proof.
  unfold parseClass, esc.
  rewrite (escaped_head safeEscape_name).
  rewrite (classAtoms_escaped safeEscape_name).
  cbn [classAtoms bind fst snd]. change (N.eqb 93 93) with true. cbn iota.
  cbn [bind fst snd]. rewrite app_nil_r.
  rewrite classRanges_singles by apply name_atoms_no_dash.
  cbn [bind]. rewrite map_map. reflexivity.
Qed.

Lemma classAtoms_literal c rest :
  N.eqb c 93 = false -> N.eqb c 92 = false ->
  classAtoms (c :: rest) =
  (r <- classAtoms rest ;; Returns ((false, c) :: fst r, 1 + snd r)).
Proof. intros H1 H2. simpl. rewrite H1, H2. reflexivity. Qed.

Lemma parseClass_name_negated rest :
  parseClass (94%N :: str "a-zA-Z0-9" ++ esc ++ 93%N :: rest) =
  Returns (Cls true (alnumRanges ++ map single chars), length esc + 11).
Proof.
  unfold parseClass. change (N.eqb 94 94) with true. cbn iota.
  change (tl (94%N :: str "a-zA-Z0-9" ++ esc ++ 93%N :: rest))
    with (str "a-zA-Z0-9" ++ esc ++ 93%N :: rest).
  change (str "a-zA-Z0-9" ++ esc ++ 93%N :: rest)
    with (97 :: 45 :: 122 :: 65 :: 45 :: 90 :: 48 :: 45 :: 57 :: esc ++ 93 :: rest)%N.
  rewrite !classAtoms_literal by reflexivity.
  unfold esc. rewrite (classAtoms_escaped safeEscape_name).
  cbn [classAtoms bind fst snd]. change (N.eqb 93 93) with true. cbn iota.
  cbn [bind fst snd]. rewrite app_nil_r.
  cbn [classRanges isDash fst snd negb andb].
  change (N.eqb 45 45) with true. cbn iota.
  change (N.leb 97 122) with true. change (N.leb 65 90) with true.
  change (N.leb 48 57) with true. cbn iota.
  rewrite classRanges_singles by apply name_atoms_no_dash.
  cbn [bind]. rewrite map_map. f_equal. f_equal. lia.
Qed.

Lemma RegExp_name_valid :
  RegExp (str "^[a-zA-Z0-9]+(?:[" ++ esc ++ str "][a-zA-Z0-9]+)*$") =
  Returns (validityPattern (Cls false alnumRanges) (Cls false (map single chars))).
Proof.
  unfold RegExp.
  match goal with
  | |- parsePattern ?st ?f 0 _ = _ =>
      transitivity
        (r <- parseClass (esc ++ 93%N :: str "[a-zA-Z0-9]+)*$") ;;
         parsePattern [pushTerm (Rep 1 (Cls false alnumRanges)) false
                         (pushTerm Bol false emptyFrame)]
           (pushTerm (fst r) true emptyFrame) (snd r)
           (esc ++ 93%N :: str "[a-zA-Z0-9]+)*$"))
  end.
  - reflexivity.
  - rewrite parseClass_name. cbn [bind fst snd].
    rewrite parsePattern_skip. reflexivity.
Qed.

Lemma RegExp_name_invalid :
  RegExp (str "[^a-zA-Z0-9" ++ esc ++ str "]") =
  Returns (Cls true (alnumRanges ++ map single chars)).
Proof.
  unfold RegExp.
  change (str "[^a-zA-Z0-9" ++ esc ++ str "]")
    with (91%N :: 94%N :: str "a-zA-Z0-9" ++ esc ++ 93%N :: []).
  rewrite parsePattern_class, parseClass_name_negated. cbn [bind fst snd].
  change (94%N :: str "a-zA-Z0-9" ++ esc ++ [93%N])
    with (str "^a-zA-Z0-9" ++ esc ++ [93%N]).
  rewrite app_assoc.
  replace (length esc + 11) with (length (str "^a-zA-Z0-9" ++ esc) + 1)
    by (rewrite length_app; simpl; lia).
  rewrite parsePattern_skip. reflexivity.
Qed.

Lemma RegExp_name_runs :
  RegExp (str "[" ++ esc ++ str "]{2,}") =
  Returns (Rep 2 (Cls false (map single chars))).
Proof.
  unfold RegExp.
  change (str "[" ++ esc ++ str "]{2,}")
    with (91%N :: esc ++ 93%N :: str "{2,}").
  rewrite parsePattern_class, parseClass_name. cbn [bind fst snd].
  rewrite parsePattern_skip. reflexivity.
Qed.

Lemma RegExp_name_ends :
  RegExp (str "^[" ++ esc ++ str "]+|[" ++ esc ++ str "]+$") =
  Returns (endsPattern (Cls false (map single chars))).
Proof.
  unfold RegExp.
  transitivity
    (r <- parseClass (esc ++ 93%N :: str "+|[" ++ esc ++ str "]+$") ;;
     parsePattern [] (pushTerm (fst r) true (pushTerm Bol false emptyFrame))
       (snd r) (esc ++ 93%N :: str "+|[" ++ esc ++ str "]+$")).
  - reflexivity.
  - rewrite parseClass_name. cbn [bind fst snd].
    rewrite parsePattern_skip.
    transitivity
      (r <- parseClass (esc ++ 93%N :: str "+$") ;;
       parsePattern []
         (pushTerm (fst r) true
            (nextAlternative
               (pushTerm (Rep 1 (Cls false (map single chars))) false
                  (pushTerm Bol false emptyFrame))))
         (snd r) (esc ++ 93%N :: str "+$")).
    + reflexivity.
    + rewrite parseClass_name. cbn [bind fst snd].
      rewrite parsePattern_skip. reflexivity.
Qed.

End NamePatterns.

(** ** Classes that agree pointwise *)

Section Pointwise.

Variables p q : cu -> bool.
Hypothesis pq : forall c, p c = q c.

Lemma takeWhile_pointwise s : takeWhile p s = takeWhile q s.
Proof. induction s as [|c t IH]; simpl; [|rewrite pq, IH]; reflexivity. Qed.

Lemma dropWhile_pointwise s : dropWhile p s = dropWhile q s.
Proof. induction s as [|c t IH]; simpl; [|rewrite pq, IH]; reflexivity. Qed.

Lemma dropWhileEnd_pointwise s : dropWhileEnd p s = dropWhileEnd q s.
Proof. induction s as [|c t IH]; simpl; [|rewrite pq, IH]; reflexivity. Qed.

Lemma stripEnds_pointwise s : stripEnds p s = stripEnds q s.
Proof.
  unfold stripEnds. rewrite dropWhile_pointwise. apply dropWhileEnd_pointwise.
Qed.

Lemma forallb_pointwise s : forallb p s = forallb q s.
Proof. induction s as [|c t IH]; simpl; [|rewrite pq, IH]; reflexivity. Qed.

Lemma filter_pointwise s : filter p s = filter q s.
Proof. induction s as [|c t IH]; simpl; [|rewrite pq, IH]; reflexivity. Qed.

Lemma firstIs_pointwise s : firstIs p s = firstIs q s.
Proof. destruct s; simpl; [reflexivity | apply pq]. Qed.

Lemma lastIs_pointwise s : lastIs p s = lastIs q s.
Proof.
  induction s as [|c t IH]; simpl; [reflexivity|].
  destruct t; [apply pq | exact IH].
Qed.

Lemma adjacent_pointwise s : adjacent p s = adjacent q s.
Proof.
  induction s as [|x t IH]; [reflexivity|].
  destruct t as [|y t']; [reflexivity|].
  cbn [adjacent] in *. rewrite IH, !pq. reflexivity.
Qed.

Lemma collapseFrom_pointwise g g' :
  (forall run, run <> [] -> g run = g' run) ->
  forall s run, collapseFrom p g run s = collapseFrom q g' run s.
Proof.
  intros Hg.
  assert (He : forall run, emit g run = emit g' run).
  { intros [|c r]; [reflexivity|]. simpl. apply Hg. discriminate. }
  induction s as [|c t IH]; intros run; simpl.
  - apply He.
  - rewrite <- pq, !IH, He. reflexivity.
Qed.

Lemma replaceRuns_pointwise g g' s :
  (forall run, run <> [] -> g run = g' run) ->
  replaceRuns p g s = replaceRuns q g' s.
Proof. intros Hg. unfold replaceRuns. apply collapseFrom_pointwise. exact Hg. Qed.

Lemma accepts_pointwise_sep alnum : forall s b,
  accepts alnum p b s = accepts alnum q b s.
Proof.
  induction s as [|c t IH]; intros b; simpl; [reflexivity|].
  rewrite pq, !IH. reflexivity.
Qed.

Lemma accepts_pointwise_alnum sep : forall s b,
  accepts p sep b s = accepts q sep b s.
Proof.
  induction s as [|c t IH]; intros b; simpl; [reflexivity|].
  rewrite pq, !IH. reflexivity.
Qed.

End Pointwise.

(** ** Filtering *)

Lemma flat_map_drop (q : cu -> bool) s :
  flat_map (fun c => if q c then [] else [c]) s = filter (fun c => negb (q c)) s.
Proof.
  induction s as [|c t IH]; simpl; [reflexivity|].
  rewrite IH. destruct (q c); reflexivity.
Qed.

Lemma flat_map_subst (q : cu -> bool) (r : cu) s :
  flat_map (fun c => if q c then [r] else [c]) s =
  map (fun c => if q c then r else c) s.
Proof.
  induction s as [|c t IH]; simpl; [reflexivity|].
  rewrite IH. destruct (q c); reflexivity.
Qed.

Lemma filter_all (q : cu -> bool) s :
  forallb q s = true -> filter q s = s.
Proof.
  induction s as [|c t IH]; simpl; [reflexivity|].
  intros H. apply andb_true_iff in H. destruct H as [Hc Ht].
  rewrite Hc, IH; auto.
Qed.

Lemma forallb_filter_self (q : cu -> bool) s : forallb q (filter q s) = true.
Proof.
  induction s as [|c t IH]; simpl; [reflexivity|].
  destruct (q c) eqn:E; simpl; [rewrite E|]; exact IH.
Qed.

(** ** Neighbours *)

Lemma adjacent_cons p x s :
  adjacent p (x :: s) = (p x && firstIs p s) || adjacent p s.
Proof.
  destruct s as [|y t]; simpl; [rewrite andb_false_r|]; reflexivity.
Qed.

Lemma adjacent_weaken (p q : cu -> bool) s :
  (forall c, q c = true -> p c = true) ->
  adjacent p s = false -> adjacent q s = false.
Proof.
  intros Hqp. induction s as [|x t IH]; [reflexivity|].
  rewrite !adjacent_cons. intros H. apply orb_false_iff in H.
  destruct H as [H1 H2]. rewrite (IH H2), orb_false_r.
  destruct (q x) eqn:Hx; [|reflexivity]. rewrite (Hqp _ Hx) in H1. simpl in *.
  destruct t as [|y t']; [reflexivity|]. simpl in *.
  destruct (q y) eqn:Hy; [|reflexivity]. rewrite (Hqp _ Hy) in H1. discriminate.
Qed.

(** ** Runs *)

Lemma dropWhile_length p s : length (dropWhile p s) <= length s.
Proof.
  induction s as [|c t IH]; simpl; [lia|]. destruct (p c); simpl; lia.
Qed.

Lemma replaceRuns_unfold p g s :
  replaceRuns p g s =
  emit g (takeWhile p s) ++
  match dropWhile p s with
  | [] => []
  | c :: t => c :: replaceRuns p g t
  end.
Proof. unfold replaceRuns. rewrite collapseFrom_span. reflexivity. Qed.

(** Induction along the runs of a string. *)
Lemma run_induction (p : cu -> bool) (P : jsstring -> Prop) :
  (forall s, (forall c t, dropWhile p s = c :: t -> P t) -> P s) ->
  forall s, P s.
Proof.
  intros step s. remember (length s) as n eqn:Hn.
  assert (H : length s <= n) by lia. clear Hn. revert s H.
  induction n as [|n IH]; intros s Hs; apply step; intros c t E.
  - pose proof (dropWhile_length p s) as Hd. rewrite E in Hd. simpl in Hd. lia.
  - apply IH. pose proof (dropWhile_length p s) as Hd. rewrite E in Hd.
    simpl in Hd. lia.
Qed.

Section Collapsed.

Variables (p : cu -> bool) (g : jsstring -> jsstring).

Lemma forallb_dropWhile ok s :
  forallb ok s = true -> forallb ok (dropWhile p s) = true.
Proof.
  induction s as [|c t IH]; simpl; [reflexivity|].
  intros H. destruct (p c); [|exact H].
  apply andb_true_iff in H. apply IH, H.
Qed.

Lemma emit_run_ne s : takeWhile p s <> [] -> emit g (takeWhile p s) = g (takeWhile p s).
Proof. destruct (takeWhile p s); [congruence | reflexivity]. Qed.

Lemma replaceRuns_forallb ok :
  (forall run, run <> [] -> forallb p run = true -> forallb ok (g run) = true) ->
  forall s, forallb ok s = true -> forallb ok (replaceRuns p g s) = true.
Proof.
  intros Hg.
  apply (run_induction p
           (fun s => forallb ok s = true ->
                     forallb ok (replaceRuns p g s) = true)).
  intros s IH Hs.
  rewrite replaceRuns_unfold, forallb_app.
  apply andb_true_iff. split.
  - destruct (takeWhile p s) eqn:E; [reflexivity|]. simpl emit. rewrite <- E.
    apply Hg; [rewrite E; discriminate | apply forallb_takeWhile].
  - pose proof (forallb_dropWhile ok s Hs) as Hd.
    destruct (dropWhile p s) as [|c t] eqn:E; [reflexivity|].
    simpl in *. apply andb_true_iff in Hd. destruct Hd as [Hc Ht].
    rewrite Hc. apply (IH c t eq_refl Ht).
Qed.

Lemma replaceRuns_adjacent :
  (forall run, run <> [] -> forallb p run = true -> length (g run) <= 1) ->
  forall s, adjacent p (replaceRuns p g s) = false.
Proof.
  intros Hg.
  apply (run_induction p (fun s => adjacent p (replaceRuns p g s) = false)).
  intros s IH.
  rewrite replaceRuns_unfold.
  assert (He : length (emit g (takeWhile p s)) <= 1).
  { destruct (takeWhile p s) eqn:E; [simpl; lia|]. simpl emit. rewrite <- E.
    apply Hg; [rewrite E; discriminate | apply forallb_takeWhile]. }
  destruct (dropWhile p s) as [|c t] eqn:E.
  - rewrite app_nil_r. destruct (emit g (takeWhile p s)) as [|x [|y l]];
      [reflexivity | reflexivity | simpl in He; lia].
  - pose proof (dropWhile_head _ _ E) as Hc. specialize (IH c t eq_refl).
    assert (Hct : adjacent p (c :: replaceRuns p g t) = false).
    { rewrite adjacent_cons, Hc, IH. reflexivity. }
    destruct (emit g (takeWhile p s)) as [|x [|y l]]; [exact Hct| |simpl in He; lia].
    simpl app. rewrite adjacent_cons. cbn [firstIs]. rewrite Hc, andb_false_r.
    exact Hct.
Qed.

Lemma takeWhile_none s : firstIs p s = false -> takeWhile p s = [].
Proof. destruct s as [|c t]; simpl; [reflexivity|]. intros ->. reflexivity. Qed.

Lemma dropWhile_none s : firstIs p s = false -> dropWhile p s = s.
Proof. destruct s as [|c t]; simpl; [reflexivity|]. intros ->. reflexivity. Qed.

Lemma replaceRuns_fixed :
  (forall c, p c = true -> g [c] = [c]) ->
  forall s, adjacent p s = false -> replaceRuns p g s = s.
Proof.
  intros Hg.
  apply (run_induction p
           (fun s => adjacent p s = false -> replaceRuns p g s = s)).
  intros s IH Hs.
  rewrite replaceRuns_unfold.
  destruct s as [|x s']; [reflexivity|].
  rewrite adjacent_cons in Hs. apply orb_false_iff in Hs. destruct Hs as [H1 H2].
  assert (Htail : forall y s'', s' = y :: s'' -> adjacent p s'' = false).
  { intros y s'' ->. rewrite adjacent_cons in H2.
    apply orb_false_iff in H2. apply H2. }
  destruct (p x) eqn:Hx.
  - simpl in H1.
    assert (Et : takeWhile p (x :: s') = [x])
      by (simpl; rewrite Hx, (takeWhile_none _ H1); reflexivity).
    assert (Ed : dropWhile p (x :: s') = s')
      by (simpl; rewrite Hx; apply dropWhile_none, H1).
    rewrite Et. rewrite Ed in *. simpl emit. rewrite (Hg _ Hx).
    destruct s' as [|y s'']; [reflexivity|].
    simpl. f_equal. f_equal. apply (IH y s'' eq_refl). eapply Htail; eauto.
  - assert (Et : takeWhile p (x :: s') = [])
      by (simpl; rewrite Hx; reflexivity).
    assert (Ed : dropWhile p (x :: s') = x :: s')
      by (simpl; rewrite Hx; reflexivity).
    rewrite Et. rewrite Ed in *. simpl. f_equal.
    apply (IH x s' eq_refl). exact H2.
Qed.

End Collapsed.

(** ** Ends *)

Section Stripped.

Variable p : cu -> bool.

Lemma dropWhile_first s : firstIs p (dropWhile p s) = false.
Proof.
  destruct (dropWhile p s) as [|c t] eqn:E; [reflexivity|].
  simpl. eapply dropWhile_head; eauto.
Qed.

Lemma dropWhile_fixed s : firstIs p s = false -> dropWhile p s = s.
Proof. destruct s as [|c t]; simpl; [reflexivity|]. intros ->. reflexivity. Qed.

Lemma dropWhileEnd_last s : lastIs p (dropWhileEnd p s) = false.
Proof.
  induction s as [|c t IH]; [reflexivity|]. simpl.
  destruct (dropWhileEnd p t) as [|c' t'] eqn:E.
  - destruct (p c) eqn:Hc; [reflexivity | simpl; exact Hc].
  - exact IH.
Qed.

Lemma dropWhileEnd_fixed s : lastIs p s = false -> dropWhileEnd p s = s.
Proof.
  induction s as [|c t IH]; [reflexivity|]. simpl.
  destruct t as [|c' t'].
  - simpl. intros ->. reflexivity.
  - intros H. rewrite (IH H). reflexivity.
Qed.

Lemma dropWhileEnd_first s :
  firstIs p s = false -> firstIs p (dropWhileEnd p s) = false.
Proof.
  destruct s as [|c t]; [reflexivity|]. simpl. intros Hc.
  destruct (dropWhileEnd p t); rewrite ?Hc; simpl; exact Hc.
Qed.

Lemma forallb_dropWhileEnd ok s :
  forallb ok s = true -> forallb ok (dropWhileEnd p s) = true.
Proof.
  induction s as [|c t IH]; [reflexivity|]. simpl. intros H.
  apply andb_true_iff in H. destruct H as [Hc Ht]. specialize (IH Ht).
  destruct (dropWhileEnd p t) as [|c' t'].
  - destruct (p c); simpl; [reflexivity | rewrite Hc; reflexivity].
  - cbn [forallb] in *. rewrite Hc. exact IH.
Qed.

Lemma adjacent_dropWhile q s :
  adjacent q s = false -> adjacent q (dropWhile p s) = false.
Proof.
  induction s as [|c t IH]; [reflexivity|]. intros H. simpl.
  destruct (p c); [|exact H]. apply IH.
  rewrite adjacent_cons in H. apply orb_false_iff in H. apply H.
Qed.

Lemma firstIs_dropWhileEnd q s :
  dropWhileEnd p s <> [] -> firstIs q (dropWhileEnd p s) = firstIs q s.
Proof.
  destruct s as [|c t]; [reflexivity|]. simpl.
  destruct (dropWhileEnd p t); [|reflexivity].
  destruct (p c); [congruence | reflexivity].
Qed.

Lemma adjacent_dropWhileEnd q s :
  adjacent q s = false -> adjacent q (dropWhileEnd p s) = false.
Proof.
  induction s as [|c t IH]; [reflexivity|]. intros H.
  rewrite adjacent_cons in H. apply orb_false_iff in H. destruct H as [H1 H2].
  specialize (IH H2). simpl.
  destruct (dropWhileEnd p t) as [|c' t'] eqn:E.
  - destruct (p c); reflexivity.
  - rewrite adjacent_cons, IH, orb_false_r.
    pose proof (firstIs_dropWhileEnd q t) as F. rewrite E in F.
    rewrite F by discriminate. exact H1.
Qed.

Lemma stripEnds_first s : firstIs p (stripEnds p s) = false.
Proof. unfold stripEnds. apply dropWhileEnd_first, dropWhile_first. Qed.

Lemma stripEnds_last s : lastIs p (stripEnds p s) = false.
Proof. unfold stripEnds. apply dropWhileEnd_last. Qed.

Lemma stripEnds_forallb ok s :
  forallb ok s = true -> forallb ok (stripEnds p s) = true.
Proof. intros H. unfold stripEnds. apply forallb_dropWhileEnd, forallb_dropWhile, H. Qed.

Lemma stripEnds_adjacent q s :
  adjacent q s = false -> adjacent q (stripEnds p s) = false.
Proof. intros H. unfold stripEnds. apply adjacent_dropWhileEnd, adjacent_dropWhile, H. Qed.

Lemma stripEnds_fixed s :
  firstIs p s = false -> lastIs p s = false -> stripEnds p s = s.
Proof.
  intros H1 H2. unfold stripEnds. rewrite dropWhile_fixed by exact H1.
  apply dropWhileEnd_fixed, H2.
Qed.

End Stripped.

(** ** From the output of a pipeline to the automaton, and back *)

Section Shaped.

Variables alnum sep : cu -> bool.

Lemma firstIs_other s :
  forallb (fun c => alnum c || sep c) s = true -> s <> [] ->
  firstIs sep s = false -> firstIs alnum s = true.
Proof.
  destruct s as [|c t]; [congruence|]. simpl. intros H _ Hs.
  apply andb_true_iff in H. destruct H as [H _]. rewrite Hs, orb_false_r in H.
  exact H.
Qed.

Lemma lastIs_other s :
  forallb (fun c => alnum c || sep c) s = true -> s <> [] ->
  lastIs sep s = false -> lastIs alnum s = true.
Proof.
  induction s as [|c t IH]; [congruence|]. intros H _ Hs.
  simpl in H. apply andb_true_iff in H. destruct H as [Hc Ht].
  destruct t as [|c' t'].
  - simpl in *. rewrite Hs, orb_false_r in Hc. exact Hc.
  - apply IH; [exact Ht | discriminate | exact Hs].
Qed.

Lemma shaped_accepts s :
  s <> [] ->
  forallb (fun c => alnum c || sep c) s = true ->
  adjacent sep s = false ->
  firstIs sep s = false -> lastIs sep s = false ->
  accepts alnum sep false s = true.
Proof.
  intros Hne Hall Hadj Hf Hl. apply accepts_wellFormed_gen. repeat split.
  - exact Hne.
  - rewrite <- Hall. apply forallb_pointwise. intros c.
    destruct (alnum c), (sep c); reflexivity.
  - apply firstIs_other; assumption.
  - apply lastIs_other; assumption.
  - apply (adjacent_weaken sep); [|exact Hadj].
    intros c H. apply andb_true_iff in H. apply H.
Qed.

Hypothesis disjoint : forall c, sep c = true -> alnum c = false.

Lemma firstIs_disjoint s : firstIs alnum s = true -> firstIs sep s = false.
Proof.
  destruct s as [|c t]; simpl; [reflexivity|]. intros H.
  destruct (sep c) eqn:E; [|reflexivity]. rewrite (disjoint E) in H. discriminate.
Qed.

Lemma lastIs_disjoint s : lastIs alnum s = true -> lastIs sep s = false.
Proof.
  induction s as [|c t IH]; [reflexivity|]. simpl. destruct t; [|exact IH].
  intros H. destruct (sep c) eqn:E; [|reflexivity].
  rewrite (disjoint E) in H. discriminate.
Qed.

End Shaped.

(** Two ways of collapsing agree when they agree on runs. *)
Lemma collapseFrom_on_runs (p : cu -> bool) g g' :
  (forall run, run <> [] -> forallb p run = true -> g run = g' run) ->
  forall s run, forallb p run = true ->
  collapseFrom p g run s = collapseFrom p g' run s.
Proof.
  intros Hg.
  assert (He : forall run, forallb p run = true -> emit g run = emit g' run).
  { intros [|c r] H; [reflexivity|]. simpl emit. apply Hg; [discriminate | exact H]. }
  induction s as [|c t IH]; intros run Hrun; simpl.
  - apply He, Hrun.
  - destruct (p c) eqn:Hc.
    + apply IH. rewrite forallb_app, Hrun. simpl. rewrite Hc. reflexivity.
    + rewrite (He _ Hrun), (IH [] eq_refl). reflexivity.
Qed.

Lemma replaceRuns_on_runs (p : cu -> bool) g g' s :
  (forall run, run <> [] -> forallb p run = true -> g run = g' run) ->
  replaceRuns p g s = replaceRuns p g' s.
Proof.
  intros Hg. unfold replaceRuns. apply collapseFrom_on_runs; [exact Hg | reflexivity].
Qed.

Lemma adjacent_pointwise_on (p q : cu -> bool) s :
  (forall c, In c s -> p c = q c) -> adjacent p s = adjacent q s.
Proof.
  induction s as [|x t IH]; intros H; [reflexivity|].
  rewrite !adjacent_cons. rewrite IH by (intros c Hc; apply H; right; exact Hc).
  rewrite (H x) by (left; reflexivity).
  destruct t as [|y t']; [reflexivity|]. simpl.
  rewrite (H y) by (right; left; reflexivity). reflexivity.
Qed.

(** The automaton accepts the strings that are not empty, stay within the
    two classes, begin and end in [alnum] and have no two neighbours
    outside [alnum]. *)
Lemma accepts_iff (alnum sep : cu -> bool) s :
  accepts alnum sep false s = true <->
  s <> [] /\
  forallb (fun c => alnum c || sep c) s = true /\
  firstIs alnum s = true /\
  lastIs alnum s = true /\
  adjacent (fun c => negb (alnum c)) s = false.
Proof.
  rewrite accepts_wellFormed_gen. unfold wellFormed.
  assert (E : forallb (fun c => alnum c || (sep c && negb (alnum c))) s
              = forallb (fun c => alnum c || sep c) s).
  { apply forallb_pointwise. intros c. destruct (alnum c), (sep c); reflexivity. }
  rewrite E.
  assert (F : forallb (fun c => alnum c || sep c) s = true ->
              adjacent (fun c => sep c && negb (alnum c)) s
              = adjacent (fun c => negb (alnum c)) s).
  { intros H. apply adjacent_pointwise_on. intros c Hc.
    rewrite forallb_forall in H. specialize (H _ Hc).
    destruct (alnum c), (sep c); try reflexivity. discriminate. }
  split; intros (H1 & H2 & H3 & H4 & H5); repeat split; try assumption.
  - rewrite <- (F H2). exact H5.
  - rewrite (F H2). exact H5.
Qed.

(** ** name/index.ts, reduced to the automaton and the stages *)

Lemma in_ranges_alnum c : in_ranges alnumRanges c = isAlnum c.
Proof.
  unfold alnumRanges, in_ranges, isAlnum, in_range.
  cbn [existsb fst snd]. rewrite orb_false_r, orb_assoc. reflexivity.
Qed.

Lemma in_ranges_special allowed c :
  in_ranges (map single (concat allowed)) c = isSpecial allowed c.
Proof.
  unfold isSpecial. rewrite in_ranges_singles. apply includesChar_concat.
Qed.

Lemma clsMem_alnum c : clsMem false alnumRanges c = isAlnum c.
Proof. unfold clsMem. rewrite xorb_false_l. apply in_ranges_alnum. Qed.

Lemma clsMem_special allowed c :
  clsMem false (map single (concat allowed)) c = isSpecial allowed c.
Proof. unfold clsMem. rewrite xorb_false_l. apply in_ranges_special. Qed.

Lemma clsMem_name_invalid allowed c :
  negb (clsMem true (alnumRanges ++ map single (concat allowed)) c) =
  isAlnum c || isSpecial allowed c.
Proof.
  unfold clsMem. rewrite in_ranges_app.
  rewrite in_ranges_alnum, in_ranges_special.
  destruct (isAlnum c || isSpecial allowed c); reflexivity.
Qed.

Lemma isValidName_accepts name options :
  isValidName (JSString name) options =
  Returns (accepts isAlnum (isSpecial (specialsOf options)) false name).
Proof.
  unfold isValidName, specialsOf.
  destruct name as [|c t]; [reflexivity|].
  cbn [ToBoolean typeofIsString negb orb stringOf].
  rewrite escapeChars_flat, RegExp_name_valid. cbn [bind]. f_equal.
  rewrite (test_validityPattern (charRegex_Cls _ _) (charRegex_Cls _ _)).
  rewrite (accepts_pointwise_alnum _ _ clsMem_alnum).
  apply accepts_pointwise_sep. apply clsMem_special.
Qed.

Lemma firstCodeUnit_run run :
  (if 2 <=? length run then firstCodeUnit run else run) =
  (if 2 <=? length run then firstn 1 run else run).
Proof. destruct run as [|c r]; reflexivity. Qed.

Lemma normalizeName_stages text options :
  normalizeName (JSString text) options =
  Returns (nameStages (specialsOf options) text).
Proof.
  unfold normalizeName, specialsOf.
  destruct text as [|c t]; [reflexivity|].
  cbn [ToBoolean typeofIsString negb orb stringOf].
  set (allowed := orDefault [str " "] (opt_allowedSpecialChars options)).
  rewrite escapeChars_flat.
  rewrite RegExp_name_invalid, RegExp_name_runs, RegExp_name_ends.
  cbn [bind]. f_equal. unfold nameStages.
  rewrite (@replaceAll_ends _ _ _ (charCompiled_Cls _ _) template_nil).
  rewrite (stripEnds_pointwise _ _ (clsMem_special allowed)).
  f_equal.
  rewrite (@replaceAll_rep _ _ _ firstCodeUnit (charCompiled_Cls _ _)
             (fun m i input => eq_refl) 2 _ (le_S _ _ (le_n 1))).
  rewrite (replaceRuns_pointwise _ _ (clsMem_special allowed) _
             (fun run => if 2 <=? length run then firstn 1 run else run))
    by (intros run _; apply firstCodeUnit_run).
  f_equal.
  rewrite (@replaceAll_char _ _ _ (fun _ => []) (charCompiled_Cls _ _) template_nil).
  rewrite flat_map_drop. apply filter_pointwise. apply clsMem_name_invalid.
Qed.

Lemma rejected_guard v :
  rejected v -> negb (ToBoolean v) || negb (typeofIsString v) = true.
Proof.
  intros [-> | H]; [reflexivity|]. rewrite H. apply orb_true_r.
Qed.

Lemma accepted_guard v :
  negb (ToBoolean v) || negb (typeofIsString v) = false ->
  exists s, v = JSString s /\ s <> [].
Proof.
  destruct v as [| |b|n| |s|]; simpl; intros H; try discriminate;
    try (rewrite orb_true_r in H; discriminate).
  destruct s; [discriminate|]. eexists. split; [reflexivity | discriminate].
Qed.

(** The shape of what the stages of normalizeName produce. *)
Lemma nameStages_shape allowed text :
  let r := nameStages allowed text in
  forallb (fun c => isAlnum c || isSpecial allowed c) r = true /\
  adjacent (isSpecial allowed) r = false /\
  firstIs (isSpecial allowed) r = false /\
  lastIs (isSpecial allowed) r = false.
Proof.
  unfold nameStages. repeat split.
  - apply stripEnds_forallb. apply replaceRuns_forallb.
    + intros run Hne Hrun.
      assert (Hok : forallb (fun c => isAlnum c || isSpecial allowed c) run = true).
      { clear Hne. induction run as [|c r IH]; [reflexivity|]. simpl in *.
        apply andb_true_iff in Hrun. destruct Hrun as [Hc Hr].
        rewrite Hc, orb_true_r. apply IH, Hr. }
      destruct (2 <=? length run); [|exact Hok].
      destruct run as [|c r]; [reflexivity|]. simpl in *.
      apply andb_true_iff in Hok. rewrite (proj1 Hok). reflexivity.
    + apply forallb_filter_self.
  - apply stripEnds_adjacent. apply replaceRuns_adjacent.
    intros run Hne _. destruct (2 <=? length run) eqn:E.
    + destruct run; simpl; lia.
    + apply Nat.leb_gt in E. lia.
  - apply stripEnds_first.
  - apply stripEnds_last.
Qed.

(** ** The patterns of slug/index.ts for a separator of one code unit *)

Section SlugPatterns.

Variable c : cu.

Let esc := flat_map (escapeWith isSyntaxChar) [c].

Lemma esc_head rest :
  match esc ++ rest with d :: _ => N.eqb d 94 | [] => false end = false.
Proof.
  unfold esc. simpl. unfold escapeWith.
  destruct (isSyntaxChar c) eqn:Hc; simpl; [reflexivity|].
  apply (special_false_neq _ _ _ Hc (safe_caret safeEscape_slug)).
Qed.

Lemma parseClass_sep allowDots rest :
  parseClass (esc ++ dotsText allowDots ++ 93%N :: rest) =
  Returns (Cls false (sepRanges c allowDots),
           length (esc ++ dotsText allowDots) + 1).
Proof.
  unfold parseClass. rewrite esc_head.
  unfold esc at 1. rewrite (classAtoms_escaped safeEscape_slug).
  destruct allowDots; cbn [dotsText app];
    [change (str "\.") with [92%N; 46%N]; cbn [app]|];
    cbn [classAtoms]; change (N.eqb 93 93) with true; cbn iota.
  - change (N.eqb 92 93) with false. change (N.eqb 92 92) with true.
    change (identityEscape 46) with true. cbn iota.
    cbn [bind fst snd map app classRanges isDash negb andb atomOf].
    unfold sepRanges. f_equal. f_equal. fold esc.
    rewrite length_app. simpl. lia.
  - cbn [bind fst snd map app classRanges isDash negb andb atomOf].
    unfold sepRanges. f_equal. f_equal. fold esc.
    rewrite app_nil_r. lia.
Qed.

Lemma parseClass_sep_dot rest :
  parseClass (esc ++ 46%N :: 93%N :: rest) =
  Returns (Cls false [single c; single 46%N], length esc + 2).
Proof.
  unfold parseClass. rewrite esc_head.
  unfold esc at 1. rewrite (classAtoms_escaped safeEscape_slug).
  cbn [classAtoms]. change (N.eqb 46 93) with false.
  change (N.eqb 46 92) with false. change (N.eqb 93 93) with true. cbn iota.
  cbn [bind fst snd map app classRanges isDash negb andb atomOf].
  reflexivity.
Qed.

Lemma parseClass_sep_negated allowDots rest :
  parseClass (94%N :: str "a-z0-9" ++ esc ++ dotsText allowDots ++ 93%N :: rest) =
  Returns (Cls true (alnumLower ++ sepRanges c allowDots),
           length (esc ++ dotsText allowDots) + 8).
Proof.
  unfold parseClass. change (N.eqb 94 94) with true. cbn iota.
  change (tl (94%N :: str "a-z0-9" ++ esc ++ dotsText allowDots ++ 93%N :: rest))
    with (97 :: 45 :: 122 :: 48 :: 45 :: 57
          :: esc ++ dotsText allowDots ++ 93 :: rest)%N.
  rewrite !classAtoms_literal by reflexivity.
  unfold esc at 1. rewrite (classAtoms_escaped safeEscape_slug).
  destruct allowDots; cbn [dotsText app];
    [change (str "\.") with [92%N; 46%N]; cbn [app]|];
    cbn [classAtoms]; change (N.eqb 93 93) with true; cbn iota.
  - change (N.eqb 92 93) with false. change (N.eqb 92 92) with true.
    change (identityEscape 46) with true. cbn iota.
    cbn [bind fst snd map app classRanges isDash negb andb atomOf].
    change (N.eqb 45 45) with true. cbn iota.
    change (N.leb 97 122) with true. change (N.leb 48 57) with true. cbn iota.
    cbn [bind fst snd map app classRanges isDash negb andb atomOf].
    unfold sepRanges, alnumLower. f_equal. f_equal. fold esc.
    rewrite length_app. simpl. lia.
  - cbn [bind fst snd map app classRanges isDash negb andb atomOf].
    change (N.eqb 45 45) with true. cbn iota.
    change (N.leb 97 122) with true. change (N.leb 48 57) with true. cbn iota.
    cbn [bind fst snd map app classRanges isDash negb andb atomOf].
    unfold sepRanges, alnumLower. f_equal. f_equal. fold esc.
    rewrite app_nil_r. lia.
Qed.

Lemma RegExp_slug_invalid allowDots :
  RegExp (str "[^a-z0-9" ++ esc ++ dotsText allowDots ++ str "]") =
  Returns (Cls true (alnumLower ++ sepRanges c allowDots)).
Proof.
  unfold RegExp.
  change (str "[^a-z0-9" ++ esc ++ dotsText allowDots ++ str "]")
    with (91%N :: 94%N :: str "a-z0-9" ++ esc ++ dotsText allowDots ++ 93%N :: []).
  rewrite parsePattern_class, parseClass_sep_negated. cbn [bind fst snd].
  change (94%N :: str "a-z0-9" ++ esc ++ dotsText allowDots ++ [93%N])
    with (str "^a-z0-9" ++ esc ++ dotsText allowDots ++ [93%N]).
  replace (str "^a-z0-9" ++ esc ++ dotsText allowDots ++ [93%N])
    with ((str "^a-z0-9" ++ esc ++ dotsText allowDots) ++ [93%N])
    by (rewrite <- !app_assoc; reflexivity).
  replace (length (esc ++ dotsText allowDots) + 8)
    with (length (str "^a-z0-9" ++ esc ++ dotsText allowDots) + 1)
    by (rewrite (length_app (str "^a-z0-9")); simpl; lia).
  rewrite parsePattern_skip. reflexivity.
Qed.

Lemma RegExp_slug_runs_dots :
  RegExp (str "[" ++ esc ++ str ".]+") =
  Returns (Rep 1 (Cls false [single c; single 46%N])).
Proof.
  unfold RegExp.
  change (str "[" ++ esc ++ str ".]+")
    with (91%N :: esc ++ 46%N :: 93%N :: str "+").
  rewrite parsePattern_class, parseClass_sep_dot. cbn [bind fst snd].
  replace (esc ++ 46%N :: 93%N :: str "+")
    with ((esc ++ [46%N]) ++ 93%N :: str "+")
    by (rewrite <- app_assoc; reflexivity).
  replace (length esc + 2) with (length (esc ++ [46%N]) + 1)
    by (rewrite length_app; simpl; lia).
  rewrite parsePattern_skip. reflexivity.
Qed.

Lemma isSyntaxChar_false k :
  isSyntaxChar c = false -> isSyntaxChar k = true -> N.eqb c k = false.
Proof. apply (special_false_neq isSyntaxChar). Qed.

Lemma parsePattern_sep stack f rest :
  parsePattern stack f 0 (esc ++ rest) =
  parsePattern stack (pushTerm (Chr c) true f) 0 rest.
Proof.
  unfold esc. cbn [flat_map]. rewrite app_nil_r. unfold escapeWith.
  destruct (isSyntaxChar c) eqn:Hc.
  - cbn [app parsePattern]. change (N.eqb 92 91) with false.
    change (N.eqb 92 92) with true. cbn iota.
    rewrite (safe_identity safeEscape_slug _ Hc). reflexivity.
  - cbn [app parsePattern].
    rewrite !(isSyntaxChar_false _ Hc) by reflexivity. reflexivity.
Qed.

Lemma RegExp_slug_runs : RegExp (esc ++ str "+") = Returns (Rep 1 (Chr c)).
Proof. unfold RegExp. rewrite parsePattern_sep. reflexivity. Qed.

Lemma RegExp_slug_ends allowDots :
  RegExp (str "^[" ++ esc ++ dotsText allowDots ++ str "]+|[" ++
          esc ++ dotsText allowDots ++ str "]+$") =
  Returns (endsPattern (Cls false (sepRanges c allowDots))).
Proof.
  unfold RegExp.
  transitivity
    (r <- parseClass (esc ++ dotsText allowDots ++ 93%N :: str "+|[" ++
                      esc ++ dotsText allowDots ++ str "]+$") ;;
     parsePattern [] (pushTerm (fst r) true (pushTerm Bol false emptyFrame))
       (snd r) (esc ++ dotsText allowDots ++ 93%N :: str "+|[" ++
                esc ++ dotsText allowDots ++ str "]+$")).
  - reflexivity.
  - rewrite parseClass_sep. cbn [bind fst snd].
    rewrite (app_assoc esc). rewrite parsePattern_skip.
    transitivity
      (r <- parseClass (esc ++ dotsText allowDots ++ 93%N :: str "+$") ;;
       parsePattern []
         (pushTerm (fst r) true
            (nextAlternative
               (pushTerm (Rep 1 (Cls false (sepRanges c allowDots))) false
                  (pushTerm Bol false emptyFrame))))
         (snd r) (esc ++ dotsText allowDots ++ 93%N :: str "+$")).
    + reflexivity.
    + rewrite parseClass_sep. cbn [bind fst snd].
      rewrite (app_assoc esc). rewrite parsePattern_skip. reflexivity.
Qed.

End SlugPatterns.

(** ** slug/index.ts, reduced to the automaton and the stages *)

Lemma clsMem_combining c : clsMem false [ (768, 879) ]%N c = isCombiningMark c.
Proof.
  unfold clsMem, in_ranges, in_range, isCombiningMark. cbn [existsb fst snd].
  rewrite xorb_false_l, orb_false_r. reflexivity.
Qed.

Lemma clsMem_spaces c :
  clsMem false (whiteSpace ++ [ single 95 ]%N) c = isSpaceOrUnderscore c.
Proof.
  unfold clsMem, isSpaceOrUnderscore, isWhiteSpace.
  rewrite xorb_false_l, in_ranges_app. f_equal.
  unfold in_ranges. cbn [existsb]. rewrite in_range_single, orb_false_r.
  reflexivity.
Qed.

Lemma in_ranges_alnumLower c : in_ranges alnumLower c = isAlnumLower c.
Proof.
  unfold alnumLower, in_ranges, isAlnumLower, in_range.
  cbn [existsb fst snd]. rewrite orb_false_r. reflexivity.
Qed.

Lemma clsMem_alnumLower c : clsMem false alnumLower c = isAlnumLower c.
Proof. unfold clsMem. rewrite xorb_false_l. apply in_ranges_alnumLower. Qed.

Lemma in_ranges_sep sep allowDots c :
  in_ranges (sepRanges sep allowDots) c = isSeparator sep allowDots c.
Proof.
  unfold sepRanges, isSeparator, in_ranges. cbn [existsb].
  rewrite in_range_single. destruct allowDots; cbn [existsb andb].
  - rewrite in_range_single, orb_false_r. reflexivity.
  - reflexivity.
Qed.

Lemma clsMem_sep sep allowDots c :
  clsMem false (sepRanges sep allowDots) c = isSeparator sep allowDots c.
Proof. unfold clsMem. rewrite xorb_false_l. apply in_ranges_sep. Qed.

Lemma clsMem_slug_invalid sep allowDots c :
  negb (clsMem true (alnumLower ++ sepRanges sep allowDots) c) =
  isAlnumLower c || isSeparator sep allowDots c.
Proof.
  unfold clsMem. rewrite in_ranges_app, in_ranges_alnumLower, in_ranges_sep.
  destruct (isAlnumLower c || isSeparator sep allowDots c); reflexivity.
Qed.

Lemma eqb_sep sep c : N.eqb sep c = isSeparator sep false c.
Proof. unfold isSeparator. rewrite orb_false_r. apply N.eqb_sym. Qed.

(** The automaton behind isValidSlug. *)
Lemma isValidSlug_accepts s options :
  isValidSlug (JSString s) options =
  accepts isAlnumLower (isSeparator 45 (allowDotsOf options)) false s.
Proof.
  unfold isValidSlug. fold (allowDotsOf options).
  destruct s as [|c t]; [reflexivity|].
  cbn [ToBoolean typeofIsString negb orb stringOf].
  destruct (allowDotsOf options).
  - change slugWithDotsPattern
      with (validityPattern (Cls false alnumLower) (Cls false (sepRanges 45 true))).
    rewrite (test_validityPattern (charRegex_Cls _ _) (charRegex_Cls _ _)).
    rewrite (accepts_pointwise_alnum _ _ clsMem_alnumLower).
    apply accepts_pointwise_sep. apply clsMem_sep.
  - change slugPattern
      with (validityPattern (Cls false alnumLower) (Chr 45)).
    rewrite (test_validityPattern (charRegex_Cls _ _) (charRegex_Chr _)).
    rewrite (accepts_pointwise_alnum _ _ clsMem_alnumLower).
    apply accepts_pointwise_sep. intros c0. unfold isSeparator.
    rewrite orb_false_r. reflexivity.
Qed.

Lemma collapsed_on_run sep run :
  run <> [] -> forallb (N.eqb sep) run = true -> [sep] = collapsed sep run.
Proof.
  intros _ H. unfold collapsed.
  destruct (includesChar run 46) eqn:E; [|reflexivity].
  unfold includesChar in E. apply existsb_exists in E.
  destruct E as (k & Hk & Ek). apply N.eqb_eq in Ek. subst k.
  rewrite forallb_forall in H. specialize (H _ Hk).
  apply N.eqb_eq in H. subst sep. reflexivity.
Qed.

Section SlugStagesProof.

Context {platform : Platform}.

Variables (sep : cu) (allowDots : bool).

Let inClass := isSeparator sep allowDots.

Lemma stage_marks s :
  replaceAll combiningMarksPattern (template []) s =
  filter (fun c => negb (isCombiningMark c)) s.
Proof.
  unfold combiningMarksPattern.
  rewrite (@replaceAll_char _ _ _ (fun _ => []) (charCompiled_Cls _ _) template_nil).
  rewrite flat_map_drop. apply filter_pointwise. intros c.
  rewrite clsMem_combining. reflexivity.
Qed.

Lemma stage_dots s :
  replaceAll dotPattern (template [sep]) s =
  map (fun c => if N.eqb c 46 then sep else c) s.
Proof.
  unfold dotPattern.
  rewrite (@replaceAll_char _ _ _ (fun _ => [sep]) (charCompiled_Chr _)
             (template_single sep)).
  rewrite flat_map_subst. apply map_ext. intros c.
  rewrite (N.eqb_sym 46 c). reflexivity.
Qed.

Lemma stage_spaces s :
  replaceAll spacesPattern (template [sep]) s =
  replaceRuns isSpaceOrUnderscore (fun _ => [sep]) s.
Proof.
  unfold spacesPattern.
  rewrite (@replaceAll_rep _ _ _ (fun _ => [sep]) (charCompiled_Cls _ _)
             (template_single sep) 1 _ (le_n 1)).
  apply replaceRuns_pointwise; [apply clsMem_spaces|].
  intros [|c r] H; [congruence | reflexivity].
Qed.

Lemma stage_invalid s :
  replaceAll (Cls true (alnumLower ++ sepRanges sep allowDots)) (template []) s =
  filter (fun c => isAlnumLower c || inClass c) s.
Proof.
  rewrite (@replaceAll_char _ _ _ (fun _ => []) (charCompiled_Cls _ _) template_nil).
  rewrite flat_map_drop. apply filter_pointwise. apply clsMem_slug_invalid.
Qed.

Lemma stage_ends s :
  replaceAll (endsPattern (Cls false (sepRanges sep allowDots))) (template []) s =
  stripEnds inClass s.
Proof.
  rewrite (@replaceAll_ends _ _ _ (charCompiled_Cls _ _) template_nil).
  apply stripEnds_pointwise. apply clsMem_sep.
Qed.

End SlugStagesProof.

Lemma stage_collapse_dots sep s :
  replaceAll (Rep 1 (Cls false [single sep; single 46%N]))
    (callback (fun m => if includesChar m 46 then str "." else [sep])) s =
  replaceRuns (isSeparator sep true) (collapsed sep) s.
Proof.
  rewrite (@replaceAll_rep _ _ _ (collapsed sep) (charCompiled_Cls _ _)
             (fun m i input => eq_refl) 1 _ (le_n 1)).
  apply replaceRuns_pointwise; [apply (clsMem_sep sep true)|].
  intros [|c r] H; [congruence | reflexivity].
Qed.

Lemma stage_collapse sep s :
  replaceAll (Rep 1 (Chr sep)) (template [sep]) s =
  replaceRuns (isSeparator sep false) (collapsed sep) s.
Proof.
  rewrite (@replaceAll_rep _ _ _ (fun _ => [sep]) (charCompiled_Chr _)
             (template_single sep) 1 _ (le_n 1)).
  rewrite <- (replaceRuns_pointwise _ _ (eqb_sep sep) (collapsed sep) (collapsed sep))
    by reflexivity.
  apply replaceRuns_on_runs.
  intros [|c r] Hne H; [congruence|]. apply collapsed_on_run; assumption.
Qed.

Section SlugReduced.

Context {platform : Platform}.

Lemma convertToSlug_stages text options sep :
  separatorOf options = [sep] ->
  convertToSlug (JSString text) options =
  Returns (slugStages sep (allowDotsOf options) text).
Proof.
  intros Hsep. unfold convertToSlug.
  fold (separatorOf options). fold (allowDotsOf options). rewrite Hsep.
  destruct text as [|c t].
  - cbn [ToBoolean typeofIsString negb orb]. unfold slugStages, finished, slugCleaned, cleaned.
    rewrite (toLowerCase_latin1 []) by reflexivity. cbn [map trim dropWhile dropWhileEnd].
    rewrite (normalizeNFD_latin1 []) by reflexivity.
    destruct (allowDotsOf options); reflexivity.
  - cbn [ToBoolean typeofIsString negb orb stringOf].
    rewrite replaceAll_slugEscape. unfold slugStages, finished, slugCleaned, cleaned.
    set (lowered := normalizeNFD (trim (toLowerCase (c :: t)))).
    rewrite stage_marks.
    destruct (allowDotsOf options); cbn [negb].
    + change (str "[^a-z0-9" ++ flat_map (escapeWith isSyntaxChar) [sep] ++
              str "\." ++ str "]")
        with (str "[^a-z0-9" ++ flat_map (escapeWith isSyntaxChar) [sep] ++
              dotsText true ++ str "]").
      rewrite RegExp_slug_invalid. cbn [bind].
      rewrite RegExp_slug_runs_dots. cbn [bind].
      change (str "^[" ++ flat_map (escapeWith isSyntaxChar) [sep] ++
              str "\." ++ str "]+|[" ++
              flat_map (escapeWith isSyntaxChar) [sep] ++ str "\." ++ str "]+$")
        with (str "^[" ++ flat_map (escapeWith isSyntaxChar) [sep] ++
              dotsText true ++ str "]+|[" ++
              flat_map (escapeWith isSyntaxChar) [sep] ++ dotsText true ++
              str "]+$").
      rewrite RegExp_slug_ends. cbn [bind]. f_equal.
      rewrite stage_ends, stage_collapse_dots, stage_invalid, stage_spaces.
      reflexivity.
    + change (str "[^a-z0-9" ++ flat_map (escapeWith isSyntaxChar) [sep] ++
              [] ++ str "]")
        with (str "[^a-z0-9" ++ flat_map (escapeWith isSyntaxChar) [sep] ++
              dotsText false ++ str "]").
      rewrite RegExp_slug_invalid. cbn [bind].
      rewrite RegExp_slug_runs. cbn [bind].
      change (str "^[" ++ flat_map (escapeWith isSyntaxChar) [sep] ++
              [] ++ str "]+|[" ++
              flat_map (escapeWith isSyntaxChar) [sep] ++ [] ++ str "]+$")
        with (str "^[" ++ flat_map (escapeWith isSyntaxChar) [sep] ++
              dotsText false ++ str "]+|[" ++
              flat_map (escapeWith isSyntaxChar) [sep] ++ dotsText false ++
              str "]+$").
      rewrite RegExp_slug_ends. cbn [bind]. f_equal.
      rewrite stage_ends, stage_collapse, stage_invalid, stage_spaces, stage_dots.
      reflexivity.
Qed.

(** The shape of what the stages of convertToSlug produce. *)
Lemma slugStages_shape sep allowDots text :
  let r := slugStages sep allowDots text in
  forallb (fun c => isAlnumLower c || isSeparator sep allowDots c) r = true /\
  adjacent (isSeparator sep allowDots) r = false /\
  firstIs (isSeparator sep allowDots) r = false /\
  lastIs (isSeparator sep allowDots) r = false.
Proof.
  unfold slugStages, finished, slugCleaned, cleaned. repeat split.
  - apply stripEnds_forallb. apply replaceRuns_forallb.
    + intros run Hne Hrun. unfold collapsed.
      destruct (includesChar run 46) eqn:E.
      * unfold includesChar in E. apply existsb_exists in E.
        destruct E as (k & Hk & Ek). apply N.eqb_eq in Ek. subst k.
        rewrite forallb_forall in Hrun. cbn [forallb].
        rewrite (Hrun _ Hk), orb_true_r. reflexivity.
      * cbn [forallb]. unfold isSeparator. rewrite N.eqb_refl.
        cbn [orb]. rewrite orb_true_r. reflexivity.
    + apply forallb_filter_self.
  - apply stripEnds_adjacent. apply replaceRuns_adjacent.
    intros run _ _. unfold collapsed. destruct (includesChar run 46); simpl; lia.
  - apply stripEnds_first.
  - apply stripEnds_last.
Qed.

End SlugReduced.

(** ** generateUniqueSlug: the loop ends, on the first free suffix *)

Lemma jsstring_eqb_eq a : forall b, jsstring_eqb a b = true <-> a = b.
Proof.
  induction a as [|x a IH]; intros [|y b]; simpl; try (split; congruence).
  rewrite andb_true_iff, N.eqb_eq, IH. split.
  - intros [-> ->]. reflexivity.
  - intros E. injection E as -> ->. auto.
Qed.

Lemma includes_In l x : includes l x = true <-> In x l.
Proof.
  unfold includes. rewrite existsb_exists. split.
  - intros (y & Hy & E). apply jsstring_eqb_eq in E. subst. exact Hy.
  - intros H. exists x. split; [exact H | apply jsstring_eqb_eq; reflexivity].
Qed.

Lemma digitsOf_inj u : forall u', digitsOf u = digitsOf u' -> u = u'.
Proof.
  induction u as [|u IH|u IH|u IH|u IH|u IH|u IH|u IH|u IH|u IH|u IH];
    intros [|u'|u'|u'|u'|u'|u'|u'|u'|u'|u'] H; simpl in H;
    try discriminate; try reflexivity;
    injection H as H; f_equal; apply IH; exact H.
Qed.

Lemma numberToString_inj n m : numberToString n = numberToString m -> n = m.
Proof.
  unfold numberToString. intros H. apply digitsOf_inj in H.
  apply DecimalN.Unsigned.to_uint_inj. exact H.
Qed.

Lemma candidate_inj b s n m : candidate b s n = candidate b s m -> n = m.
Proof.
  unfold candidate. intros H. apply app_inv_head in H. apply app_inv_head in H.
  apply numberToString_inj, H.
Qed.

Lemma uniqueSlugLoop_spec b s existing : forall fuel counter (pending : list jsstring),
  (forall k, (counter <= k)%N ->
     includes existing (candidate b s k) = true -> In (candidate b s k) pending) ->
  length pending <= fuel ->
  exists n, (counter <= n)%N /\
    uniqueSlugLoop fuel b s existing counter = Some (candidate b s n) /\
    includes existing (candidate b s n) = false /\
    forall m, (counter <= m < n)%N -> includes existing (candidate b s m) = true.
Proof.
  induction fuel as [|fuel IH]; intros counter pending Hp Hlen.
  - destruct pending; [|simpl in Hlen; lia].
    exists counter. simpl. fold (candidate b s counter).
    destruct (includes existing (candidate b s counter)) eqn:E.
    + destruct (Hp counter (N.le_refl _) E).
    + repeat split; [lia | intros m Hm; lia].
  - cbn [uniqueSlugLoop]. fold (candidate b s counter).
    destruct (includes existing (candidate b s counter)) eqn:E.
    + pose proof (Hp counter (N.le_refl _) E) as Hin.
      set (dec := list_eq_dec N.eq_dec).
      destruct (IH (counter + 1)%N (remove dec (candidate b s counter) pending))
        as (n & Hn & Hloop & Hfree & Hbelow).
      * intros k Hk Hk'. apply in_in_remove.
        -- intros Heq. apply candidate_inj in Heq. lia.
        -- apply Hp; [lia | exact Hk'].
      * pose proof (remove_length_lt dec pending _ Hin). lia.
      * exists n. repeat split; [lia | exact Hloop | exact Hfree |].
        intros m Hm. destruct (N.eq_dec m counter) as [->|Hne]; [exact E|].
        apply Hbelow. lia.
    + exists counter. repeat split; [lia | exact E | intros m Hm; lia].
Qed.

Lemma base_not_candidate b s n : b <> candidate b s n.
Proof.
  unfold candidate. intros H.
  assert (L : length b = length (b ++ s ++ numberToString n)) by (rewrite <- H; reflexivity).
  rewrite !length_app in L.
  assert (length (numberToString n) <> 0).
  { unfold numberToString. destruct n as [|p]; [simpl; lia|].
    simpl. pose proof (DecimalPos.Unsigned.to_uint_nonnil p) as Hnn.
    destruct (Pos.to_uint p); simpl; try lia. congruence. }
  lia.
Qed.

Lemma generateUniqueSlug_spec baseSlug existingSlugs options :
  let separator := separatorOf options in
  exists r,
    generateUniqueSlug baseSlug existingSlugs options = Some r /\
    includes existingSlugs r = false /\
    (includes existingSlugs baseSlug = false -> r = baseSlug) /\
    (includes existingSlugs baseSlug = true ->
     exists n, (1 <= n)%N /\ r = baseSlug ++ separator ++ numberToString n /\
       forall m, (1 <= m < n)%N ->
         includes existingSlugs (baseSlug ++ separator ++ numberToString m) = true).
Proof.
  intros separator. unfold generateUniqueSlug. fold (separatorOf options).
  fold separator.
  destruct (includes existingSlugs baseSlug) eqn:E; cbn [negb].
  - set (dec := list_eq_dec N.eq_dec).
    destruct (@uniqueSlugLoop_spec baseSlug separator existingSlugs
                (length existingSlugs) 1%N (remove dec baseSlug existingSlugs))
      as (n & Hn & Hloop & Hfree & Hbelow).
    + intros k _ Hk. apply in_in_remove.
      * intros Heq. symmetry in Heq. revert Heq. apply base_not_candidate.
      * apply includes_In, Hk.
    + apply includes_In in E.
      pose proof (remove_length_lt dec existingSlugs _ E). lia.
    + exists (candidate baseSlug separator n). repeat split.
      * exact Hloop.
      * exact Hfree.
      * discriminate.
      * intros _. exists n. repeat split; [exact Hn | exact Hbelow].
  - exists baseSlug. repeat split; [exact E | discriminate].
Qed.

(** ** Code units that the first stages of convertToSlug leave alone *)

Ltac decide_leb :=
  repeat match goal with
  | |- context [N.leb ?a ?b] =>
      first [ replace (N.leb a b) with true by (symmetry; apply N.leb_le; lia)
            | replace (N.leb a b) with false by (symmetry; apply N.leb_gt; lia) ]
  | |- context [N.ltb ?a ?b] =>
      first [ replace (N.ltb a b) with true by (symmetry; apply N.ltb_lt; lia)
            | replace (N.ltb a b) with false by (symmetry; apply N.ltb_ge; lia) ]
  | |- context [N.eqb ?a ?b] =>
      first [ replace (N.eqb a b) with true by (symmetry; apply N.eqb_eq; lia)
            | replace (N.eqb a b) with false by (symmetry; apply N.eqb_neq; lia) ]
  end.

Lemma isAlnumLower_bounds c :
  isAlnumLower c = true -> (48 <= c <= 57)%N \/ (97 <= c <= 122)%N.
Proof.
  unfold isAlnumLower. intros H. apply orb_true_iff in H.
  destruct H as [H|H]; apply andb_true_iff in H; destruct H as [H1 H2];
    apply N.leb_le in H1, H2; [right | left]; lia.
Qed.

Lemma lookup_below {A} (l : list (cu * A)) lo c :
  forallb (fun e => N.leb lo (fst e)) l = true -> (c < lo)%N -> lookup c l = None.
Proof.
  induction l as [|[k v] l IH]; intros H Hc; [reflexivity|].
  simpl in *. apply andb_true_iff in H. destruct H as [Hk Hl].
  apply N.leb_le in Hk.
  replace (N.eqb c k) with false by (symmetry; apply N.eqb_neq; lia).
  apply IH; assumption.
Qed.

Lemma decomposeLatin1_below c : (c < 192)%N -> decomposeLatin1 c = [c].
Proof.
  intros H. unfold decomposeLatin1.
  replace (N.eqb c 255) with false by (symmetry; apply N.eqb_neq; lia).
  rewrite (@lookup_below _ capitalDecompositions 192 c) by (reflexivity || exact H).
  destruct (lookup (c - 32) capitalDecompositions) as [[b m]|]; [|reflexivity].
  replace (N.leb 224 c) with false by (symmetry; apply N.leb_gt; lia).
  reflexivity.
Qed.

Lemma plain_below c : (c < 192)%N -> isUpper c = false -> plain c.
Proof.
  intros H Hu. unfold plain, isLatin1, lowerLatin1, isCombiningMark.
  fold (isUpper c). rewrite Hu. repeat split.
  - apply N.ltb_lt. lia.
  - decide_leb. reflexivity.
  - apply decomposeLatin1_below, H.
  - decide_leb. reflexivity.
Qed.

Lemma plain_alnumLower c : isAlnumLower c = true -> plain c.
Proof.
  intros H. apply isAlnumLower_bounds in H. apply plain_below; [lia|].
  unfold isUpper. destruct H; decide_leb; reflexivity.
Qed.

Lemma plain_asciiNotUpper c : asciiNotUpper c = true -> plain c.
Proof.
  unfold asciiNotUpper. intros H. apply andb_true_iff in H. destruct H as [H1 H2].
  apply N.ltb_lt in H1. apply negb_true_iff in H2. apply plain_below; [lia | exact H2].
Qed.

Lemma isWhiteSpace_bounds c : isWhiteSpace c = true -> (c <= 32)%N \/ (160 <= c)%N.
Proof.
  unfold isWhiteSpace, in_ranges. intros H. apply existsb_exists in H.
  destruct H as ([lo hi] & Hin & Hr). unfold in_range in Hr. simpl in Hr.
  apply andb_true_iff in Hr. destruct Hr as [H1 H2]. apply N.leb_le in H1, H2.
  simpl in Hin.
  repeat (destruct Hin as [E|Hin]; [injection E as <- <-; lia|]).
  contradiction.
Qed.

Lemma alnumLower_not_space c :
  isSpaceOrUnderscore c = true -> isAlnumLower c = false.
Proof.
  intros H. destruct (isAlnumLower c) eqn:E; [|reflexivity].
  apply isAlnumLower_bounds in E. unfold isSpaceOrUnderscore in H.
  apply orb_true_iff in H. destruct H as [H|H].
  - apply isWhiteSpace_bounds in H. lia.
  - apply N.eqb_eq in H. lia.
Qed.

Lemma alnumLower_not_whiteSpace c : isWhiteSpace c = true -> isAlnumLower c = false.
Proof.
  intros H. apply alnumLower_not_space. unfold isSpaceOrUnderscore.
  rewrite H. reflexivity.
Qed.

Lemma isSeparator_cases sep allowDots c :
  isSeparator sep allowDots c = true -> c = sep \/ (allowDots = true /\ c = 46%N).
Proof.
  unfold isSeparator. intros H. apply orb_true_iff in H. destruct H as [H|H].
  - left. apply N.eqb_eq, H.
  - right. apply andb_true_iff in H. destruct H as [-> H].
    split; [reflexivity | apply N.eqb_eq, H].
Qed.

(** ** Stages that leave a string alone *)

Lemma map_fixed (f : cu -> cu) s : (forall c, In c s -> f c = c) -> map f s = s.
Proof.
  induction s as [|c t IH]; intros H; [reflexivity|]. simpl.
  rewrite H by (left; reflexivity). rewrite IH; [reflexivity|].
  intros x Hx. apply H. right. exact Hx.
Qed.

Lemma flat_map_fixed (f : cu -> jsstring) s :
  (forall c, In c s -> f c = [c]) -> flat_map f s = s.
Proof.
  induction s as [|c t IH]; intros H; [reflexivity|]. simpl.
  rewrite H by (left; reflexivity). rewrite IH; [reflexivity|].
  intros x Hx. apply H. right. exact Hx.
Qed.

Lemma collapseFrom_pointwise_on (p q : cu -> bool) g : forall s run,
  (forall c, In c s -> p c = q c) ->
  collapseFrom p g run s = collapseFrom q g run s.
Proof.
  induction s as [|c t IH]; intros run H; [reflexivity|]. simpl.
  rewrite <- (H c) by (left; reflexivity).
  rewrite !IH by (intros x Hx; apply H; right; exact Hx). reflexivity.
Qed.

Section SlugFixed.

Context {platform : Platform}.

Variables (sep : cu) (allowDots : bool) (r : jsstring).

Let letterOrDigit := isAlnumLower.
Let inClass := isSeparator sep allowDots.

Hypothesis sep_plain : plain sep.
Hypothesis r_chars : forallb (fun c => letterOrDigit c || inClass c) r = true.
Hypothesis r_adjacent : adjacent inClass r = false.
Hypothesis r_first : firstIs inClass r = false.
Hypothesis r_last : lastIs inClass r = false.

Lemma r_member c : In c r -> letterOrDigit c = true \/ inClass c = true.
Proof.
  intros H. rewrite forallb_forall in r_chars. specialize (r_chars _ H).
  apply orb_true_iff in r_chars. exact r_chars.
Qed.

Lemma r_plain c : In c r -> plain c.
Proof.
  intros H. destruct (r_member c H) as [Ha|Hs].
  - apply plain_alnumLower, Ha.
  - apply isSeparator_cases in Hs. destruct Hs as [->|[_ ->]].
    + exact sep_plain.
    + apply plain_below; [lia | reflexivity].
Qed.

Lemma r_latin1 : forallb isLatin1 r = true.
Proof. apply forallb_forall. intros c H. apply (r_plain c H). Qed.

Lemma r_lower : map lowerLatin1 r = r.
Proof. apply map_fixed. intros c H. apply (r_plain c H). Qed.

Lemma r_trim : trim r = r.
Proof.
  unfold trim. change (stripEnds isWhiteSpace r = r).
  destruct r as [|x t] eqn:E; [reflexivity|]. rewrite <- E in *.
  assert (Hne : r <> []) by (rewrite E; discriminate).
  apply stripEnds_fixed.
  - apply (firstIs_disjoint letterOrDigit isWhiteSpace alnumLower_not_whiteSpace).
    apply (firstIs_other letterOrDigit inClass); assumption.
  - apply (lastIs_disjoint letterOrDigit isWhiteSpace alnumLower_not_whiteSpace).
    apply (lastIs_other letterOrDigit inClass); assumption.
Qed.

Lemma r_decompose : flat_map decomposeLatin1 r = r.
Proof. apply flat_map_fixed. intros c H. apply (r_plain c H). Qed.

Lemma r_marks : filter (fun c => negb (isCombiningMark c)) r = r.
Proof.
  apply filter_all. apply forallb_forall. intros c H.
  destruct (r_plain c H) as (_ & _ & _ & ->). reflexivity.
Qed.

Lemma r_dots :
  allowDots = false -> map (fun c => if N.eqb c 46 then sep else c) r = r.
Proof.
  intros Ed. apply map_fixed. intros c H.
  destruct (N.eqb_spec c 46) as [->|]; [|reflexivity].
  destruct (r_member _ H) as [Ha|Hs]; [discriminate|].
  apply isSeparator_cases in Hs. destruct Hs as [<-|[E _]]; [reflexivity|].
  congruence.
Qed.

Lemma r_spaces : replaceRuns isSpaceOrUnderscore (fun _ => [sep]) r = r.
Proof.
  unfold replaceRuns.
  rewrite (@collapseFrom_pointwise_on isSpaceOrUnderscore
             (fun c => isSpaceOrUnderscore c && inClass c)).
  - apply (@replaceRuns_fixed (fun c => isSpaceOrUnderscore c && inClass c)).
    + intros c H. apply andb_true_iff in H. destruct H as [Hw Hs].
      apply isSeparator_cases in Hs. destruct Hs as [->|[_ ->]]; [reflexivity|].
      discriminate.
    + apply (adjacent_weaken inClass); [|exact r_adjacent].
      intros c H. apply andb_true_iff in H. apply H.
  - intros c H. destruct (isSpaceOrUnderscore c) eqn:Hw; [|reflexivity].
    destruct (r_member _ H) as [Ha|Hs].
    + pose proof (alnumLower_not_space _ Hw) as Hn. unfold letterOrDigit in Ha. congruence.
    + rewrite Hs. reflexivity.
Qed.

Lemma r_valid : filter (fun c => letterOrDigit c || inClass c) r = r.
Proof. apply filter_all, r_chars. Qed.

Lemma r_collapse : replaceRuns inClass (collapsed sep) r = r.
Proof.
  apply replaceRuns_fixed; [|exact r_adjacent].
  intros c H. unfold collapsed, includesChar. cbn [existsb].
  rewrite orb_false_r. apply isSeparator_cases in H.
  destruct (N.eqb_spec 46 c) as [<-|Hne]; [reflexivity|].
  destruct H as [->|[_ ->]]; [reflexivity | congruence].
Qed.

Lemma r_ends : stripEnds inClass r = r.
Proof. apply stripEnds_fixed; assumption. Qed.

Lemma slugStages_fixed : slugStages sep allowDots r = r.
Proof.
  unfold slugStages, finished, slugCleaned, cleaned.
  rewrite (toLowerCase_latin1 r r_latin1), r_lower, r_trim.
  rewrite (normalizeNFD_latin1 r r_latin1), r_decompose, r_marks.
  assert (Hd : (if allowDots then r
                else map (fun c => if N.eqb c 46 then sep else c) r) = r).
  { pose proof r_dots as Hd. destruct allowDots; [reflexivity | apply Hd, eq_refl]. }
  rewrite Hd. fold letterOrDigit. fold inClass.
  rewrite r_spaces, r_valid, r_collapse. apply r_ends.
Qed.

End SlugFixed.

(** ** A platform for evaluation *)

(** Decomposition code unit by code unit leaves surrounding white space in
    place when it maps white space to itself and everything else to text
    that neither begins nor ends with white space. *)
Section TrimCommutes.

Variables (p : cu -> bool) (f : cu -> jsstring).
Hypothesis f_inside : forall c, p c = true -> f c = [c].
Hypothesis f_outside : forall c,
  p c = false -> f c <> [] /\ firstIs p (f c) = false /\ lastIs p (f c) = false.

Lemma flat_map_dropWhile s :
  flat_map f (dropWhile p s) = dropWhile p (flat_map f s).
Proof.
  induction s as [|c t IH]; [reflexivity|]. simpl.
  destruct (p c) eqn:Hc.
  - rewrite (f_inside Hc). simpl. rewrite Hc. exact IH.
  - destruct (f_outside Hc) as (Hne & Hf & _).
    destruct (f c) as [|x l] eqn:E; [congruence|].
    simpl in *. rewrite Hf. rewrite E. reflexivity.
Qed.

Lemma dropWhileEnd_app a b :
  dropWhileEnd p (a ++ b) =
  match dropWhileEnd p b with
  | [] => dropWhileEnd p a
  | b' => a ++ b'
  end.
Proof.
  induction a as [|x a IH]; simpl.
  - destruct (dropWhileEnd p b); reflexivity.
  - rewrite IH. destruct (dropWhileEnd p b) as [|y b']; [reflexivity|].
    destruct (a ++ y :: b') eqn:E; [|reflexivity].
    destruct a; discriminate.
Qed.

Lemma flat_map_nonempty s : s <> [] -> flat_map f s <> [].
Proof.
  destruct s as [|c t]; [congruence|]. intros _. simpl.
  destruct (p c) eqn:Hc.
  - rewrite (f_inside Hc). discriminate.
  - destruct (f_outside Hc) as (Hne & _). destruct (f c); [congruence | discriminate].
Qed.

Lemma flat_map_dropWhileEnd s :
  flat_map f (dropWhileEnd p s) = dropWhileEnd p (flat_map f s).
Proof.
  induction s as [|c t IH]; [reflexivity|].
  cbn [flat_map]. rewrite dropWhileEnd_app, <- IH. cbn [dropWhileEnd].
  destruct (dropWhileEnd p t) as [|y t'] eqn:E.
  - cbn [flat_map]. destruct (p c) eqn:Hc.
    + rewrite (f_inside Hc). simpl. rewrite Hc. reflexivity.
    + destruct (f_outside Hc) as (_ & _ & Hl).
      rewrite (dropWhileEnd_fixed _ _ Hl). simpl. apply app_nil_r.
  - assert (Hne : flat_map f (y :: t') <> []) by (apply flat_map_nonempty; discriminate).
    destruct (flat_map f (y :: t')) as [|z l] eqn:F; [congruence|].
    change (flat_map f (c :: y :: t')) with (f c ++ flat_map f (y :: t')).
    rewrite F. reflexivity.
Qed.

Lemma flat_map_trim s :
  flat_map f (stripEnds p s) = stripEnds p (flat_map f s).
Proof.
  unfold stripEnds. rewrite flat_map_dropWhileEnd, flat_map_dropWhile. reflexivity.
Qed.

End TrimCommutes.

Lemma isWhiteSpace_values c :
  isWhiteSpace c = true -> (c <= 32)%N \/ c = 160%N \/ (5760 <= c)%N.
Proof.
  unfold isWhiteSpace, in_ranges. intros H. apply existsb_exists in H.
  destruct H as ([lo hi] & Hin & Hr). unfold in_range in Hr. simpl in Hr.
  apply andb_true_iff in Hr. destruct Hr as [H1 H2]. apply N.leb_le in H1, H2.
  simpl in Hin.
  repeat (destruct Hin as [E|Hin]; [injection E as <- <-; lia|]).
  contradiction.
Qed.

Lemma lookup_above {A} (l : list (cu * A)) hi c :
  forallb (fun e => N.leb (fst e) hi) l = true -> (hi < c)%N -> lookup c l = None.
Proof.
  induction l as [|[k v] l IH]; intros H Hc; [reflexivity|].
  simpl in *. apply andb_true_iff in H. destruct H as [Hk Hl].
  apply N.leb_le in Hk.
  replace (N.eqb c k) with false by (symmetry; apply N.eqb_neq; lia).
  apply IH; assumption.
Qed.

Lemma lookup_holds {A} (P : A -> bool) (l : list (cu * A)) c v :
  forallb (fun e => P (snd e)) l = true -> lookup c l = Some v -> P v = true.
Proof.
  induction l as [|[k w] l IH]; intros H E; [discriminate|].
  simpl in *. apply andb_true_iff in H. destruct H as [Hk Hl].
  destruct (N.eqb c k); [injection E as <-; exact Hk | apply IH; assumption].
Qed.

Lemma decomposeLatin1_above c : (256 <= c)%N -> decomposeLatin1 c = [c].
Proof.
  intros H. unfold decomposeLatin1.
  replace (N.eqb c 255) with false by (symmetry; apply N.eqb_neq; lia).
  rewrite (@lookup_above _ capitalDecompositions 221 c) by (reflexivity || lia).
  rewrite (@lookup_above _ capitalDecompositions 221 (c - 32)) by (reflexivity || lia).
  reflexivity.
Qed.

Lemma decomposeLatin1_whiteSpace c :
  isWhiteSpace c = true -> decomposeLatin1 c = [c].
Proof.
  intros H. apply isWhiteSpace_values in H. destruct H as [H|[H|H]].
  - apply decomposeLatin1_below. lia.
  - apply decomposeLatin1_below. lia.
  - apply decomposeLatin1_above. lia.
Qed.

Lemma decomposeLatin1_solid c :
  isWhiteSpace c = false ->
  decomposeLatin1 c <> [] /\
  firstIs isWhiteSpace (decomposeLatin1 c) = false /\
  lastIs isWhiteSpace (decomposeLatin1 c) = false.
Proof.
  intros H. unfold decomposeLatin1.
  destruct (N.eqb c 255); [repeat split; discriminate|].
  destruct (lookup c capitalDecompositions) as [[b m]|] eqn:E1.
  - pose proof (@lookup_holds _ solid capitalDecompositions c (b, m) eq_refl E1) as Hs.
    unfold solid in Hs. simpl in Hs.
    apply andb_true_iff in Hs. destruct Hs as [Hs Hm].
    apply andb_true_iff in Hs. destruct Hs as [Hb _].
    apply negb_true_iff in Hb, Hm.
    repeat split; [discriminate | exact Hb | exact Hm].
  - destruct (lookup (c - 32) capitalDecompositions) as [[b m]|] eqn:E2.
    + pose proof (@lookup_holds _ solid capitalDecompositions _ (b, m) eq_refl E2) as Hs.
      unfold solid in Hs. simpl in Hs.
      apply andb_true_iff in Hs. destruct Hs as [Hs Hm].
      apply andb_true_iff in Hs. destruct Hs as [_ Hb].
      apply negb_true_iff in Hb, Hm.
      destruct (N.leb 224 c); repeat split; try discriminate; assumption.
    + repeat split; [discriminate | exact H | exact H].
Qed.

Lemma latin1_decompose_trim s :
  flat_map decomposeLatin1 (trim s) = trim (flat_map decomposeLatin1 s).
Proof.
  apply (flat_map_trim isWhiteSpace decomposeLatin1).
  - apply decomposeLatin1_whiteSpace.
  - apply decomposeLatin1_solid.
Qed.

(** The platform that agrees with ECMAScript on Latin-1 text and leaves
    every other code unit alone; closed examples are run on it. *)
#[export] Instance latin1Platform : Platform :=
  {| toLowerCase := map lowerLatin1;
     normalizeNFD := flat_map decomposeLatin1;
     toLowerCase_latin1 := fun s _ => eq_refl;
     normalizeNFD_latin1 := fun s _ => eq_refl;
     normalizeNFD_trim := latin1_decompose_trim |}.

(** ** A run in its context *)

Section RunInContext.

Variables (p : cu -> bool) (g : jsstring -> jsstring).

Lemma collapseFrom_run b : forall run acc,
  forallb p run = true ->
  collapseFrom p g acc (run ++ b) = collapseFrom p g (acc ++ run) b.
Proof.
  induction run as [|c run IH]; intros acc H.
  - rewrite app_nil_r. reflexivity.
  - simpl in *. apply andb_true_iff in H. destruct H as [Hc Hr].
    rewrite Hc, IH by exact Hr. rewrite <- app_assoc. reflexivity.
Qed.




End RunInContext.


(** ** White space around the text is absorbed by the later stages *)

Section StripAbsorbs.

Variable p : cu -> bool.

Lemma dropWhile_all a : forallb p a = true -> dropWhile p a = [].
Proof.
  induction a as [|c a IH]; [reflexivity|]. simpl. intros H.
  apply andb_true_iff in H. destruct H as [Hc Ha]. rewrite Hc. apply IH, Ha.
Qed.

Lemma dropWhile_app_all a z :
  forallb p a = true -> dropWhile p (a ++ z) = dropWhile p z.
Proof.
  induction a as [|c a IH]; [reflexivity|]. simpl. intros H.
  apply andb_true_iff in H. destruct H as [Hc Ha]. rewrite Hc. apply IH, Ha.
Qed.

Lemma dropWhile_app_keep z a :
  forallb p z = false -> dropWhile p (z ++ a) = dropWhile p z ++ a.
Proof.
  induction z as [|c z IH]; [discriminate|]. simpl.
  destruct (p c); [exact IH | reflexivity].
Qed.

Lemma dropWhileEnd_app_all z a :
  forallb p a = true -> dropWhileEnd p (z ++ a) = dropWhileEnd p z.
Proof.
  intros H. rewrite dropWhileEnd_app.
  rewrite (proj2 (dropWhileEnd_nil p a) H). reflexivity.
Qed.

Lemma stripEnds_lead a z :
  forallb p a = true -> stripEnds p (a ++ z) = stripEnds p z.
Proof. intros H. unfold stripEnds. rewrite dropWhile_app_all by exact H. reflexivity. Qed.

Lemma stripEnds_trail z a :
  forallb p a = true -> stripEnds p (z ++ a) = stripEnds p z.
Proof.
  intros H. unfold stripEnds. destruct (forallb p z) eqn:Hz.
  - rewrite dropWhile_app_all by exact Hz.
    rewrite !dropWhile_all by assumption. reflexivity.
  - rewrite dropWhile_app_keep by exact Hz. apply dropWhileEnd_app_all, H.
Qed.

End StripAbsorbs.

Section RunsAtTheEnds.

Variables (p inClass : cu -> bool) (g : jsstring -> jsstring).
Hypothesis g_class : forall run,
  forallb p run = true -> forallb inClass (emit g run) = true.

Lemma replaceRuns_lead w s :
  forallb p w = true ->
  exists e, forallb inClass e = true /\
            replaceRuns p g (w ++ s) = e ++ afterFirstRun p g s.
Proof.
  intros Hw. unfold replaceRuns.
  rewrite collapseFrom_run by exact Hw. rewrite collapseFrom_span.
  exists (emit g (([] ++ w) ++ takeWhile p s)). split; [|reflexivity].
  apply g_class. simpl. rewrite forallb_app, Hw. apply forallb_takeWhile.
Qed.

Lemma collapseFrom_trail w :
  forallb p w = true ->
  forall s acc, forallb p acc = true ->
  exists body fin fin',
    collapseFrom p g acc s = body ++ fin /\
    collapseFrom p g acc (s ++ w) = body ++ fin' /\
    forallb inClass fin = true /\ forallb inClass fin' = true.
Proof.
  intros Hw. induction s as [|x s IH]; intros acc Hacc.
  - exists [], (emit g acc), (emit g (acc ++ w)). repeat split.
    + cbn [app]. rewrite <- (app_nil_r w) at 1.
      rewrite collapseFrom_run by exact Hw. reflexivity.
    + apply g_class, Hacc.
    + apply g_class. rewrite forallb_app, Hacc, Hw. reflexivity.
  - simpl. destruct (p x) eqn:Hx.
    + apply IH. rewrite forallb_app, Hacc. simpl. rewrite Hx. reflexivity.
    + destruct (IH [] eq_refl) as (body & fin & fin' & E1 & E2 & F1 & F2).
      exists (emit g acc ++ x :: body), fin, fin'.
      rewrite E1, E2, <- !app_assoc. simpl. auto.
Qed.

Lemma replaceRuns_trail s w :
  forallb p w = true ->
  exists body fin fin',
    replaceRuns p g s = body ++ fin /\
    replaceRuns p g (s ++ w) = body ++ fin' /\
    forallb inClass fin = true /\ forallb inClass fin' = true.
Proof. intros Hw. apply collapseFrom_trail; [exact Hw | reflexivity]. Qed.

End RunsAtTheEnds.

Section Absorbed.

Variables (sep : cu) (allowDots : bool).

Let inClass := isSeparator sep allowDots.
Let valid := fun c => isAlnumLower c || inClass c.

Lemma collapsed_class run :
  forallb inClass run = true -> forallb inClass (emit (collapsed sep) run) = true.
Proof.
  intros H. destruct run as [|c r]; [reflexivity|]. simpl emit.
  unfold collapsed. destruct (includesChar (c :: r) 46) eqn:E.
  - unfold includesChar in E. apply existsb_exists in E.
    destruct E as (k & Hk & Ek). apply N.eqb_eq in Ek. subst k.
    rewrite forallb_forall in H. simpl. rewrite (H _ Hk). reflexivity.
  - simpl. unfold inClass, isSeparator. rewrite N.eqb_refl. reflexivity.
Qed.

Lemma separator_class (q : cu -> bool) run :
  forallb q run = true -> forallb inClass (emit (fun _ => [sep]) run) = true.
Proof.
  intros _. destruct run; [reflexivity|]. simpl.
  unfold inClass, isSeparator. rewrite N.eqb_refl. reflexivity.
Qed.

Lemma finished_lead e s :
  forallb inClass e = true -> finished sep allowDots (e ++ s) = finished sep allowDots s.
Proof.
  intros He. unfold finished. fold inClass.
  destruct (replaceRuns_lead inClass inClass (collapsed sep) collapsed_class e s He)
    as (e1 & H1 & E1).
  destruct (replaceRuns_lead inClass inClass (collapsed sep) collapsed_class [] s eq_refl)
    as (e0 & H0 & E0).
  simpl in E0. rewrite E1, E0.
  rewrite (stripEnds_lead inClass e1 _ H1), (stripEnds_lead inClass e0 _ H0).
  reflexivity.
Qed.

Lemma finished_trail s e :
  forallb inClass e = true -> finished sep allowDots (s ++ e) = finished sep allowDots s.
Proof.
  intros He. unfold finished. fold inClass.
  destruct (replaceRuns_trail inClass inClass (collapsed sep) collapsed_class s e He)
    as (body & fin & fin' & E1 & E2 & F1 & F2).
  rewrite E1, E2.
  rewrite (stripEnds_trail inClass _ fin F1), (stripEnds_trail inClass _ fin' F2).
  reflexivity.
Qed.

Lemma filter_valid_class e : forallb inClass e = true -> filter valid e = e.
Proof.
  intros H. apply filter_all. apply forallb_forall. intros c Hc.
  rewrite forallb_forall in H. unfold valid. rewrite (H _ Hc). apply orb_true_r.
Qed.

(** The stages that work code unit by code unit leave white space as it
    is. *)
Lemma unitStages_app a b : unitStages sep allowDots (a ++ b) = unitStages sep allowDots a ++ unitStages sep allowDots b.
Proof.
  unfold unitStages. rewrite filter_app. destruct allowDots; [reflexivity|].
  apply map_app.
Qed.

Lemma unitStages_whiteSpace w :
  forallb isWhiteSpace w = true -> unitStages sep allowDots w = w.
Proof.
  intros H. rewrite forallb_forall in H. unfold unitStages.
  rewrite filter_all.
  - destruct allowDots; [reflexivity|]. apply map_fixed. intros c Hc.
    specialize (H _ Hc). apply isWhiteSpace_values in H.
    replace (N.eqb c 46) with false by (symmetry; apply N.eqb_neq; lia).
    reflexivity.
  - apply forallb_forall. intros c Hc. specialize (H _ Hc).
    apply isWhiteSpace_values in H. unfold isCombiningMark.
    destruct H as [H|[H|H]]; decide_leb; reflexivity.
Qed.

Lemma whiteSpace_is_space w :
  forallb isWhiteSpace w = true -> forallb isSpaceOrUnderscore w = true.
Proof.
  intros H. rewrite forallb_forall in *. intros c Hc.
  unfold isSpaceOrUnderscore. rewrite (H _ Hc). reflexivity.
Qed.

Lemma cleaned_unfold s :
  cleaned sep allowDots s =
  filter valid (replaceRuns isSpaceOrUnderscore (fun _ => [sep]) (unitStages sep allowDots s)).
Proof. reflexivity. Qed.

Lemma finished_cleaned_lead w s :
  forallb isWhiteSpace w = true ->
  finished sep allowDots (cleaned sep allowDots (w ++ s)) =
  finished sep allowDots (cleaned sep allowDots s).
Proof.
  intros Hw. rewrite !cleaned_unfold, unitStages_app, (unitStages_whiteSpace w Hw).
  destruct (replaceRuns_lead isSpaceOrUnderscore inClass (fun _ => [sep])
              (separator_class isSpaceOrUnderscore) w (unitStages sep allowDots s)
              (whiteSpace_is_space w Hw)) as (e1 & H1 & E1).
  destruct (replaceRuns_lead isSpaceOrUnderscore inClass (fun _ => [sep])
              (separator_class isSpaceOrUnderscore) [] (unitStages sep allowDots s) eq_refl)
    as (e0 & H0 & E0).
  simpl in E0. rewrite E1, E0, !filter_app.
  rewrite (filter_valid_class e1 H1), (filter_valid_class e0 H0).
  rewrite (finished_lead e1 _ H1), (finished_lead e0 _ H0). reflexivity.
Qed.

Lemma finished_cleaned_trail s w :
  forallb isWhiteSpace w = true ->
  finished sep allowDots (cleaned sep allowDots (s ++ w)) =
  finished sep allowDots (cleaned sep allowDots s).
Proof.
  intros Hw. rewrite !cleaned_unfold, unitStages_app, (unitStages_whiteSpace w Hw).
  destruct (replaceRuns_trail isSpaceOrUnderscore inClass (fun _ => [sep])
              (separator_class isSpaceOrUnderscore) (unitStages sep allowDots s) w
              (whiteSpace_is_space w Hw))
    as (body & fin & fin' & E1 & E2 & F1 & F2).
  rewrite E1, E2, !filter_app.
  rewrite (filter_valid_class fin F1), (filter_valid_class fin' F2).
  rewrite (finished_trail _ fin F1), (finished_trail _ fin' F2). reflexivity.
Qed.

Lemma dropWhileEnd_split (q : cu -> bool) s :
  exists w, forallb q w = true /\ s = dropWhileEnd q s ++ w.
Proof.
  induction s as [|c t IH]; [exists []; auto|].
  destruct IH as (w & Hw & E). simpl.
  destruct (dropWhileEnd q t) as [|c' t'] eqn:D.
  - simpl in E. subst t. destruct (q c) eqn:Hc.
    + exists (c :: w). simpl. rewrite Hc, Hw. auto.
    + exists w. auto.
  - exists w. split; [exact Hw|]. simpl. f_equal. exact E.
Qed.

Lemma finished_cleaned_trim s :
  finished sep allowDots (cleaned sep allowDots (trim s)) =
  finished sep allowDots (cleaned sep allowDots s).
Proof.
  unfold trim.
  destruct (dropWhileEnd_split isWhiteSpace (dropWhile isWhiteSpace s)) as (w2 & H2 & E2).
  rewrite <- (takeWhile_dropWhile isWhiteSpace s) at 2.
  rewrite finished_cleaned_lead by apply forallb_takeWhile.
  rewrite E2 at 2. rewrite finished_cleaned_trail by exact H2. reflexivity.
Qed.

End Absorbed.

(** The stages of the source and the stages of the contract give the same
    slug. *)
Lemma slugStages_contract {platform : Platform} sep allowDots text :
  slugStages sep allowDots text = contractStages sep allowDots text.
Proof.
  unfold slugStages, slugCleaned, contractStages.
  rewrite normalizeNFD_trim. apply finished_cleaned_trim.
Qed.
(** ** Latin-1 text is read the same on every platform *)

Lemma lowerLatin1_latin1 c : isLatin1 c = true -> isLatin1 (lowerLatin1 c) = true.
Proof.
  unfold isLatin1, lowerLatin1. intros H. apply N.ltb_lt in H.
  destruct (N.leb 65 c && N.leb c 90) eqn:E1.
  - apply andb_true_iff in E1. destruct E1 as [_ E1]. apply N.leb_le in E1.
    apply N.ltb_lt. lia.
  - destruct (N.leb 192 c && N.leb c 222 && negb (N.eqb c 215)) eqn:E2.
    + apply andb_true_iff in E2. destruct E2 as [E2 _].
      apply andb_true_iff in E2. destruct E2 as [_ E2]. apply N.leb_le in E2.
      apply N.ltb_lt. lia.
    + apply N.ltb_lt. exact H.
Qed.

Lemma forallb_map_latin1 s :
  forallb isLatin1 s = true -> forallb isLatin1 (map lowerLatin1 s) = true.
Proof.
  induction s as [|c t IH]; [reflexivity|]. simpl. intros H.
  apply andb_true_iff in H. destruct H as [Hc Ht].
  rewrite (lowerLatin1_latin1 _ Hc), (IH Ht). reflexivity.
Qed.

Lemma slugStages_latin1 {platform : Platform} sep allowDots text :
  forallb isLatin1 text = true ->
  slugStages sep allowDots text =
  slugStages (platform := latin1Platform) sep allowDots text.
Proof.
  intros H. unfold slugStages, finished, slugCleaned, cleaned.
  rewrite (toLowerCase_latin1 text H).
  rewrite (normalizeNFD_latin1 (trim (map lowerLatin1 text))).
  - reflexivity.
  - unfold trim. apply forallb_dropWhileEnd, forallb_dropWhile.
    apply forallb_map_latin1, H.
Qed.

Lemma convertToSlug_latin1 {platform : Platform} text options sep :
  separatorOf options = [sep] -> forallb isLatin1 text = true ->
  convertToSlug (JSString text) options =
  convertToSlug (platform := latin1Platform) (JSString text) options.
Proof.
  intros Hsep H.
  rewrite (convertToSlug_stages text options Hsep).
  rewrite (convertToSlug_stages (platform := latin1Platform) text options Hsep).
  rewrite (slugStages_latin1 sep (allowDotsOf options) text H). reflexivity.
Qed.

(** ** The listed stages for a separator of one code unit *)

Lemma separatorClass_single sep allowDots c :
  separatorClass [sep] allowDots c = isSeparator sep allowDots c.
Proof.
  unfold separatorClass, isSeparator, includesChar. simpl.
  rewrite orb_false_r. reflexivity.
Qed.

Lemma listedStages_single {platform : Platform} sep allowDots text :
  listedStages [sep] allowDots text = contractStages sep allowDots text.
Proof.
  unfold listedStages, contractStages, finished, cleaned.
  rewrite (flat_map_subst (fun c => N.eqb c 46) sep).
  rewrite (stripEnds_pointwise _ _ (separatorClass_single sep allowDots)).
  rewrite (replaceRuns_pointwise _ _ (separatorClass_single sep allowDots)
             (fun run => if includesChar run 46 then [46%N] else [sep])
             (collapsed sep)) by reflexivity.
  rewrite (filter_pointwise
             (fun c => isAlnumLower c || separatorClass [sep] allowDots c)
             (fun c => isAlnumLower c || isSeparator sep allowDots c))
    by (intros c; rewrite separatorClass_single; reflexivity).
  reflexivity.
Qed.

(** * The claims *)

(** ** C1: validity of converted slugs *)

(** C1, as stated, fails: with the separator ["_"], [convertToSlug("a b")]
    is ["a_b"], which isValidSlug rejects under the same options, because
    isValidSlug has no separator option and knows the hyphen only. *)
Lemma convertToSlug_underscore_rejected :
  convertToSlug (platform := latin1Platform) (JSString (str "a b"))
    (withSeparator (str "_")) = Returns (str "a_b") /\
  str "a_b" <> [] /\
  isValidSlug (JSString (str "a_b")) (withSeparator (str "_")) = false.
Proof. repeat split; try reflexivity. discriminate. Qed.

(** C1, amended: for every string [text] and every options value whose
    separator is the hyphen (the default), if [convertToSlug(text, options)]
    returns a non-empty string then isValidSlug accepts it under the same
    options, on every platform. *)
Theorem convertToSlug_valid {platform : Platform}
    (text : jsstring) (options : SlugOptions) (r : jsstring) :
  separatorOf options = str "-" ->
  convertToSlug (JSString text) options = Returns r ->
  r <> [] ->
  isValidSlug (JSString r) options = true.
Proof.
  intros Hsep Hr Hne.
  rewrite (convertToSlug_stages text options Hsep) in Hr. injection Hr as <-.
  rewrite isValidSlug_accepts.
  destruct (slugStages_shape 45 (allowDotsOf options) text) as (H1 & H2 & H3 & H4).
  apply shaped_accepts; assumption.
Qed.

Lemma convertToSlug_valid_witness :
  separatorOf noOptions = str "-" /\
  convertToSlug (platform := latin1Platform) (JSString (str "Hello World"))
    noOptions = Returns (str "hello-world") /\
  str "hello-world" <> [] /\
  isValidSlug (JSString (str "hello-world")) noOptions = true.
Proof.
  assert (H1 : separatorOf noOptions = str "-") by reflexivity.
  assert (H2 : convertToSlug (platform := latin1Platform)
                 (JSString (str "Hello World")) noOptions
               = Returns (str "hello-world")) by reflexivity.
  assert (H3 : str "hello-world" <> []) by discriminate.
  exact (conj H1 (conj H2 (conj H3
           (convertToSlug_valid (platform := latin1Platform)
              (str "Hello World") noOptions H1 H2 H3)))).
Defined.

(** ** C2: idempotence *)

(** C2, as stated, fails: with the separator ["X"], [convertToSlug("a b")]
    is ["aXb"], and converting that again lower-cases the separator:
    ["axb"]. *)
Lemma convertToSlug_uppercase_separator_not_idempotent :
  convertToSlug (platform := latin1Platform) (JSString (str "a b"))
    (withSeparator (str "X")) = Returns (str "aXb") /\
  convertToSlug (platform := latin1Platform) (JSString (str "aXb"))
    (withSeparator (str "X")) = Returns (str "axb") /\
  str "axb" <> str "aXb".
Proof. repeat split; try reflexivity. discriminate. Qed.

(** C2, amended: convertToSlug is idempotent whenever the separator is one
    ASCII character other than an upper-case letter (the default hyphen
    among them): for every string [text] and such options, converting the
    result of [convertToSlug(text, options)] again returns it unchanged,
    on every platform. *)
Theorem convertToSlug_idempotent {platform : Platform}
    (text : jsstring) (options : SlugOptions) (sep : cu) (r : jsstring) :
  separatorOf options = [sep] ->
  asciiNotUpper sep = true ->
  convertToSlug (JSString text) options = Returns r ->
  convertToSlug (JSString r) options = Returns r.
Proof.
  intros Hsep Hplain Hr.
  rewrite (convertToSlug_stages text options Hsep) in Hr. injection Hr as <-.
  rewrite (convertToSlug_stages _ options Hsep). f_equal.
  destruct (slugStages_shape sep (allowDotsOf options) text) as (H1 & H2 & H3 & H4).
  apply slugStages_fixed; try assumption.
  apply plain_asciiNotUpper, Hplain.
Qed.

Lemma convertToSlug_idempotent_witness :
  separatorOf noOptions = [45%N] /\
  asciiNotUpper 45 = true /\
  convertToSlug (platform := latin1Platform) (JSString (str "Hello World"))
    noOptions = Returns (str "hello-world") /\
  convertToSlug (platform := latin1Platform) (JSString (str "hello-world"))
    noOptions = Returns (str "hello-world").
Proof.
  assert (H1 : separatorOf noOptions = [45%N]) by reflexivity.
  assert (H2 : asciiNotUpper 45 = true) by reflexivity.
  assert (H3 : convertToSlug (platform := latin1Platform)
                 (JSString (str "Hello World")) noOptions
               = Returns (str "hello-world")) by reflexivity.
  exact (conj H1 (conj H2 (conj H3
           (convertToSlug_idempotent (platform := latin1Platform)
              (str "Hello World") noOptions H1 H2 H3)))).
Defined.

(** ** C3: unique slugs *)

(** C3: for every [baseSlug], every list [existingSlugs] and every
    separator, generateUniqueSlug returns: the loop ends within the fuel
    it is given.  The result is [baseSlug] when that is not in
    [existingSlugs]; otherwise it is [baseSlug + separator + n] for the
    smallest [n >= 1] for which that string is not in [existingSlugs].  In
    both cases the result is not in [existingSlugs]. *)
Theorem generateUniqueSlug_unique
    (baseSlug : jsstring) (existingSlugs : list jsstring) (options : SlugOptions) :
  exists r,
    generateUniqueSlug baseSlug existingSlugs options = Some r /\
    ~ In r existingSlugs /\
    (~ In baseSlug existingSlugs -> r = baseSlug) /\
    (In baseSlug existingSlugs ->
     exists n, (1 <= n)%N /\
       r = baseSlug ++ separatorOf options ++ numberToString n /\
       forall m, (1 <= m < n)%N ->
         In (baseSlug ++ separatorOf options ++ numberToString m) existingSlugs).
Proof.
  destruct (generateUniqueSlug_spec baseSlug existingSlugs options)
    as (r & Hr & Hfree & Hbase & Hsuffix).
  exists r. repeat split.
  - exact Hr.
  - intros Hin. apply includes_In in Hin. congruence.
  - intros Hn. apply Hbase.
    destruct (includes existingSlugs baseSlug) eqn:E; [|reflexivity].
    apply includes_In in E. contradiction.
  - intros Hin. apply includes_In in Hin.
    destruct (Hsuffix Hin) as (n & Hn & Heq & Hbelow).
    exists n. repeat split; [exact Hn | exact Heq |].
    intros m Hm. apply includes_In, Hbelow, Hm.
Qed.

Lemma generateUniqueSlug_unique_witness :
  generateUniqueSlug (str "hello-world")
    [str "hello-world"; str "hello-world-1"] noOptions
    = Some (str "hello-world-2") /\
  exists r,
    generateUniqueSlug (str "hello-world")
      [str "hello-world"; str "hello-world-1"] noOptions = Some r /\
    ~ In r [str "hello-world"; str "hello-world-1"] /\
    (~ In (str "hello-world") [str "hello-world"; str "hello-world-1"] ->
     r = str "hello-world") /\
    (In (str "hello-world") [str "hello-world"; str "hello-world-1"] ->
     exists n, (1 <= n)%N /\
       r = str "hello-world" ++ separatorOf noOptions ++ numberToString n /\
       forall m, (1 <= m < n)%N ->
         In (str "hello-world" ++ separatorOf noOptions ++ numberToString m)
            [str "hello-world"; str "hello-world-1"]).
Proof.
  split; [reflexivity|].
  exact (generateUniqueSlug_unique (str "hello-world")
           [str "hello-world"; str "hello-world-1"] noOptions).
Defined.

(** ** C4: what isValidSlug accepts *)

(** C4: [isValidSlug(candidate, options)] is true exactly when [candidate]
    is not empty, holds only lower-case ASCII letters, digits and
    separator-class characters, begins and ends with a letter or digit,
    and has no two separator-class characters side by side.  The class is
    the hyphen alone when [allowDots] is false, so that a dot makes the
    candidate invalid; it is hyphen and dot when [allowDots] is true:
    ["a.-b"], ["a--b"], ["a..b"] are invalid, ["a-b"], ["a.b"] valid. *)
Theorem isValidSlug_characterisation :
  (forall candidate options,
     isValidSlug (JSString candidate) options = true <->
     candidate <> [] /\
     forallb (fun c => isAlnumLower c || isSeparator 45 (allowDotsOf options) c)
       candidate = true /\
     firstIs isAlnumLower candidate = true /\
     lastIs isAlnumLower candidate = true /\
     adjacent (isSeparator 45 (allowDotsOf options)) candidate = false) /\
  (forall c, isSeparator 45 false c = N.eqb c 45) /\
  (forall c, isSeparator 45 true c = N.eqb c 45 || N.eqb c 46) /\
  (forall candidate options,
     allowDotsOf options = false -> In 46%N candidate ->
     isValidSlug (JSString candidate) options = false) /\
  isValidSlug (JSString (str "a.-b")) withDots = false /\
  isValidSlug (JSString (str "a--b")) withDots = false /\
  isValidSlug (JSString (str "a..b")) withDots = false /\
  isValidSlug (JSString (str "a-b")) withDots = true /\
  isValidSlug (JSString (str "a.b")) withDots = true.
Proof.
  assert (Hdisj : forall ad c, isSeparator 45 ad c = true -> isAlnumLower c = false).
  { intros ad c H. apply isSeparator_cases in H.
    destruct H as [->|[_ ->]]; reflexivity. }
  assert (Hiff : forall candidate options,
     isValidSlug (JSString candidate) options = true <->
     wellFormed isAlnumLower (isSeparator 45 (allowDotsOf options)) candidate).
  { intros candidate options. rewrite isValidSlug_accepts.
    apply accepts_wellFormed. apply Hdisj. }
  split; [exact Hiff|].
  split; [intros c; unfold isSeparator; apply orb_false_r|].
  split; [intros c; reflexivity|].
  split; [|repeat split; reflexivity].
  intros candidate options Hd Hin.
  destruct (isValidSlug (JSString candidate) options) eqn:E; [|reflexivity].
  apply Hiff in E. destruct E as (_ & Hall & _).
  rewrite forallb_forall in Hall. specialize (Hall _ Hin).
  rewrite Hd in Hall. discriminate.
Qed.

Lemma isValidSlug_characterisation_witness :
  allowDotsOf noOptions = false /\ In 46%N (str "a.b") /\
  isValidSlug (JSString (str "a.b")) noOptions = false.
Proof.
  assert (H1 : allowDotsOf noOptions = false) by reflexivity.
  assert (H2 : In 46%N (str "a.b")) by (right; left; reflexivity).
  exact (conj H1 (conj H2
    (proj1 (proj2 (proj2 (proj2 isValidSlug_characterisation)))
       (str "a.b") noOptions H1 H2))).
Defined.

(** ** C5: the stages of convertToSlug *)

(** C5, as stated, fails for a separator that is not one character: the
    source does not put the separator into the text as it is written, it
    hands it to [replace] as a replacement template and to [RegExp] as
    pattern text.  With the separator ["$'"], [convertToSlug("a b")] is
    ["abb"]: in place of the white space, [replace] puts the text that
    follows it.  The listed stages give ["a$'b"], and none of them brings
    a letter into the text. *)
Lemma convertToSlug_separator_not_verbatim :
  convertToSlug (platform := latin1Platform) (JSString (str "a b"))
    (withSeparator (str "$'")) = Returns (str "abb") /\
  listedStages (platform := latin1Platform) (str "$'")
    (allowDotsOf (withSeparator (str "$'"))) (str "a b") = str "a$'b" /\
  str "abb" <> str "a$'b" /\
  filter isAlnumLower (str "abb") <> filter isAlnumLower (str "a b").
Proof. repeat split; try reflexivity; discriminate. Qed.

(** C5, amended: for every [text], and for a separator that is left out
    or is one character, [convertToSlug(text, options)] is the
    composition of the stages of its contract in their order:
    lower-casing, canonical decomposition with removal of combining
    marks, folding of dots into the separator unless dots are allowed,
    runs of white space and underscore replaced by the separator, removal
    of what is not a lower-case letter, digit, separator or allowed dot,
    collapsing of runs of separator and dot, trimming of separator and
    dot at both ends; these are the listed stages that fail for longer
    separators.  With the default options ["Hello World!!!"] gives
    ["hello-world"], ["HELLO"] gives ["hello"] and ["Café & Restaurant"]
    gives ["cafe-restaurant"], on every platform.  The white-space trim
    of the source after lower-casing adds nothing to these stages: what
    it removes would become separators that the last stage trims. *)
Theorem convertToSlug_performs_stages {platform : Platform} :
  (forall text options sep,
     separatorOf options = [sep] ->
     convertToSlug (JSString text) options =
     Returns (contractStages sep (allowDotsOf options) text)) /\
  (forall text options sep,
     separatorOf options = [sep] ->
     convertToSlug (JSString text) options =
     Returns (listedStages (separatorOf options) (allowDotsOf options) text)) /\
  convertToSlug (JSString (str "Hello World!!!")) noOptions
    = Returns (str "hello-world") /\
  convertToSlug (JSString (str "HELLO")) noOptions = Returns (str "hello") /\
  convertToSlug (JSString cafeRestaurant) noOptions
    = Returns (str "cafe-restaurant").
Proof.
  split.
  { intros text options sep H.
    rewrite (convertToSlug_stages text options H), slugStages_contract.
    reflexivity. }
  split.
  { intros text options sep H.
    rewrite (convertToSlug_stages text options H), slugStages_contract.
    rewrite H, listedStages_single. reflexivity. }
  repeat split;
    match goal with
    | |- convertToSlug (JSString ?t) ?o = _ =>
        rewrite (@convertToSlug_latin1 platform t o 45%N eq_refl eq_refl)
    end; reflexivity.
Qed.

Lemma convertToSlug_performs_stages_witness :
  separatorOf noOptions = [45%N] /\
  convertToSlug (platform := latin1Platform) (JSString (str "  Hello World!!!  "))
    noOptions
  = Returns (contractStages (platform := latin1Platform) 45
               (allowDotsOf noOptions) (str "  Hello World!!!  ")) /\
  contractStages (platform := latin1Platform) 45 (allowDotsOf noOptions)
    (str "  Hello World!!!  ") = str "hello-world".
Proof.
  assert (H1 : separatorOf noOptions = [45%N]) by reflexivity.
  exact (conj H1 (conj
    (proj1 (convertToSlug_performs_stages (platform := latin1Platform))
       (str "  Hello World!!!  ") noOptions 45%N H1) eq_refl)).
Defined.

(** ** C6: dots win when runs are collapsed *)



(** ** C7: what isValidName accepts *)

(** C7, as stated, fails when an allowed special character is itself a
    letter or digit: with [allowedSpecialChars = ["a"]] the name ["aa"] is
    accepted, although two allowed special characters stand side by
    side. *)
Lemma isValidName_alphanumeric_special :
  isValidName (JSString (str "aa")) (withSpecials [str "a"]) = Returns true /\
  adjacent (isSpecial [str "a"]) (str "aa") = true.
Proof. split; reflexivity. Qed.

(** C7, amended: for every [candidate] and every [allowedSpecialChars],
    isValidName returns, and returns true exactly when [candidate] is not
    empty, begins and ends with a letter or digit (upper case included),
    every character is a letter, a digit or occurs in
    [allowedSpecialChars], and no two characters that are neither letter
    nor digit stand side by side, whichever allowed characters they are.
    With the default options ["John  Doe"] is rejected and ["John Doe"]
    accepted. *)
Theorem isValidName_characterisation :
  (forall candidate options,
     exists b, isValidName (JSString candidate) options = Returns b) /\
  (forall candidate options,
     isValidName (JSString candidate) options = Returns true <->
     candidate <> [] /\
     forallb (fun c => isAlnum c || isSpecial (specialsOf options) c)
       candidate = true /\
     firstIs isAlnum candidate = true /\
     lastIs isAlnum candidate = true /\
     adjacent (fun c => negb (isAlnum c)) candidate = false) /\
  isValidName (JSString (str "John  Doe")) noNameOptions = Returns false /\
  isValidName (JSString (str "John Doe")) noNameOptions = Returns true.
Proof.
  split; [intros candidate options; rewrite isValidName_accepts; eauto|].
  split; [|split; reflexivity].
  intros candidate options. rewrite isValidName_accepts.
  rewrite <- (accepts_iff isAlnum (isSpecial (specialsOf options))).
  split; [intros H; injection H as H; exact H | intros ->; reflexivity].
Qed.

(** ** C8: the stages of normalizeName *)

(** C8: for every [text] and every [allowedSpecialChars],
    [normalizeName(text, options)] trims white space, deletes every
    character that is neither letter nor digit nor in
    [allowedSpecialChars] (case is kept), replaces every run of two or
    more allowed special characters by the first character of the run, and
    trims allowed special characters at both ends; with the default
    options ["  John   Doe  "] gives ["John Doe"]. *)
Theorem normalizeName_performs_stages :
  (forall text options,
     normalizeName (JSString text) options =
     Returns (nameStages (specialsOf options) text)) /\
  (forall entries c,
     Forall (fun e => length e = 1) entries ->
     (isSpecial entries c = true <-> In [c] entries)) /\
  normalizeName (JSString (str "  John   Doe  ")) noNameOptions
    = Returns (str "John Doe").
Proof.
  split; [exact normalizeName_stages|]. split; [|reflexivity].
  intros entries c Hone. unfold isSpecial. rewrite existsb_exists. split.
  - intros (e & He & Hc). rewrite Forall_forall in Hone. specialize (Hone _ He).
    destruct e as [|x [|y e']]; try discriminate.
    unfold includesChar in Hc. simpl in Hc. rewrite orb_false_r in Hc.
    apply N.eqb_eq in Hc. subst. exact He.
  - intros H. exists [c]. split; [exact H|].
    unfold includesChar. simpl. rewrite N.eqb_refl. reflexivity.
Qed.

Lemma normalizeName_performs_stages_witness :
  Forall (fun e : jsstring => length e = 1) [str " "; str "."] /\
  (isSpecial [str " "; str "."] 46 = true <-> In [46%N] [str " "; str "."]).
Proof.
  assert (H1 : Forall (fun e : jsstring => length e = 1) [str " "; str "."])
    by (repeat constructor).
  exact (conj H1
    (proj1 (proj2 normalizeName_performs_stages) [str " "; str "."] 46%N H1)).
Defined.

(** ** C9: no exceptions *)

(** C9, as stated, fails: convertToSlug throws a SyntaxError when the
    separator is the empty string, because the pattern it then builds for
    collapsing separators is ["+"]. *)
Lemma convertToSlug_empty_separator_throws :
  convertToSlug (platform := latin1Platform) (JSString (str "a"))
    (withSeparator []) = Throws SyntaxError.
Proof. reflexivity. Qed.

(** C9, amended: on the empty string and on every value that is not a
    string, isValidSlug and isValidName return false and convertToSlug and
    normalizeName return the empty string, without an exception, whatever
    the options.  isValidSlug, isValidName and normalizeName throw on no
    input at all; convertToSlug does not throw when the separator is left
    out or is one code unit. *)
Theorem guards_and_no_exceptions {platform : Platform} :
  (forall v options, rejected v -> isValidSlug v options = false) /\
  (forall v options, rejected v -> isValidName v options = Returns false) /\
  (forall v options, rejected v -> convertToSlug v options = Returns []) /\
  (forall v options, rejected v -> normalizeName v options = Returns []) /\
  (forall v options, exists b, isValidName v options = Returns b) /\
  (forall v options, exists r, normalizeName v options = Returns r) /\
  (forall v options sep,
     separatorOf options = [sep] ->
     exists r, convertToSlug v options = Returns r).
Proof.
  repeat split.
  - intros v options H. unfold isValidSlug. rewrite (rejected_guard H). reflexivity.
  - intros v options H. unfold isValidName. rewrite (rejected_guard H). reflexivity.
  - intros v options H. unfold convertToSlug. rewrite (rejected_guard H). reflexivity.
  - intros v options H. unfold normalizeName. rewrite (rejected_guard H). reflexivity.
  - intros v options.
    destruct (negb (ToBoolean v) || negb (typeofIsString v)) eqn:G.
    + unfold isValidName. rewrite G. eauto.
    + apply accepted_guard in G. destruct G as (s & -> & _).
      rewrite isValidName_accepts. eauto.
  - intros v options.
    destruct (negb (ToBoolean v) || negb (typeofIsString v)) eqn:G.
    + unfold normalizeName. rewrite G. eauto.
    + apply accepted_guard in G. destruct G as (s & -> & _).
      rewrite normalizeName_stages. eauto.
  - intros v options sep Hsep.
    destruct (negb (ToBoolean v) || negb (typeofIsString v)) eqn:G.
    + unfold convertToSlug. rewrite G. eauto.
    + apply accepted_guard in G. destruct G as (s & -> & _).
      rewrite (convertToSlug_stages s options Hsep). eauto.
Qed.

Lemma guards_and_no_exceptions_witness :
  rejected JSNull /\ separatorOf (withSeparator (str "_")) = [95%N] /\
  isValidSlug JSNull noOptions = false /\
  convertToSlug (platform := latin1Platform) JSNull noOptions = Returns [] /\
  exists r, convertToSlug (platform := latin1Platform) (JSString (str "a b"))
              (withSeparator (str "_")) = Returns r.
Proof.
  assert (H1 : rejected JSNull) by (right; reflexivity).
  assert (H2 : separatorOf (withSeparator (str "_")) = [95%N]) by reflexivity.
  destruct (guards_and_no_exceptions (platform := latin1Platform))
    as (G1 & _ & G3 & _ & _ & _ & G7).
  exact (conj H1 (conj H2 (conj (G1 JSNull noOptions H1)
    (conj (G3 JSNull noOptions H1)
       (G7 (JSString (str "a b")) (withSeparator (str "_")) 95%N H2))))).
Defined.

(** ** C10: validity of normalized names *)

(** C10: for every [text] and every options value, if
    [normalizeName(text, options)] returns a non-empty string then
    isValidName accepts it under the same options.  This holds for every
    [allowedSpecialChars], those whose entries are single characters that
    are neither letter nor digit among them. *)
Theorem normalizeName_valid
    (text : jsstring) (options : NameOptions) (r : jsstring) :
  normalizeName (JSString text) options = Returns r ->
  r <> [] ->
  isValidName (JSString r) options = Returns true.
Proof.
  intros Hr Hne. rewrite normalizeName_stages in Hr. injection Hr as <-.
  rewrite isValidName_accepts. f_equal.
  destruct (nameStages_shape (specialsOf options) text) as (H1 & H2 & H3 & H4).
  apply shaped_accepts; assumption.
Qed.

Lemma normalizeName_valid_witness :
  normalizeName (JSString (str "  John   Doe  ")) noNameOptions
    = Returns (str "John Doe") /\
  str "John Doe" <> [] /\
  isValidName (JSString (str "John Doe")) noNameOptions = Returns true.
Proof.
  assert (H1 : normalizeName (JSString (str "  John   Doe  ")) noNameOptions
               = Returns (str "John Doe")) by reflexivity.
  assert (H2 : str "John Doe" <> []) by discriminate.
  exact (conj H1 (conj H2
           (normalizeName_valid (str "  John   Doe  ") noNameOptions H1 H2))).
Defined.

(** * Further properties: lemmas *)

(** ** Accepted texts, joined and compared *)

Section AcceptsCompose.

Variables (alnum sep : cu -> bool).

Lemma accepts_app y : forall x b,
  accepts alnum sep b x = true ->
  accepts alnum sep b (x ++ y) = accepts alnum sep true y.
Proof.
  induction x as [|c x IH]; intros b H; simpl in *.
  - subst b. reflexivity.
  - destruct (alnum c); [apply IH, H|].
    destruct (sep c && b); [apply IH, H | discriminate].
Qed.

Lemma accepts_join x c y b :
  accepts alnum sep b x = true ->
  alnum c = false -> sep c = true ->
  accepts alnum sep false y = true ->
  accepts alnum sep b (x ++ c :: y) = true.
Proof.
  intros Hx Ha Hs Hy. rewrite accepts_app by exact Hx.
  simpl. rewrite Ha, Hs. exact Hy.
Qed.

Lemma accepts_letters : forall s b,
  forallb alnum s = true -> (s = [] -> b = true) ->
  accepts alnum sep b s = true.
Proof.
  induction s as [|c s IH]; intros b H Hb; simpl in *.
  - apply Hb. reflexivity.
  - apply andb_true_iff in H. destruct H as [Hc Hs]. rewrite Hc.
    apply IH; [exact Hs | reflexivity].
Qed.

End AcceptsCompose.

Lemma accepts_weaken (alnum sep alnum' sep' : cu -> bool) :
  (forall c, alnum c = true -> alnum' c = true) ->
  (forall c, sep c = true -> sep' c = true) ->
  forall s b b', (b = true -> b' = true) ->
  accepts alnum sep b s = true -> accepts alnum' sep' b' s = true.
Proof.
  intros Ha Hs. induction s as [|c s IH]; intros b b' Hb H; simpl in *.
  - apply Hb, H.
  - destruct (alnum c) eqn:Ac.
    + rewrite (Ha _ Ac). apply (IH true true); auto.
    + destruct (sep c) eqn:Sc; [|discriminate].
      destruct b; [|discriminate]. simpl in H. rewrite (Hb eq_refl).
      destruct (alnum' c).
      * apply (IH false true); [discriminate | exact H].
      * rewrite (Hs _ Sc). simpl. apply (IH false false); auto.
Qed.

(** ** What a filter keeps through the stages *)

Section Kept.

Variable a : cu -> bool.

Lemma filter_none s :
  (forall c, In c s -> a c = false) -> filter a s = [].
Proof.
  induction s as [|c s IH]; intros H; [reflexivity|]. simpl.
  rewrite (H c) by (left; reflexivity). apply IH. intros x Hx. apply H. right. exact Hx.
Qed.

Lemma filter_filter_kept (q : cu -> bool) s :
  (forall c, a c = true -> q c = true) ->
  filter a (filter q s) = filter a s.
Proof.
  intros H. induction s as [|c s IH]; [reflexivity|]. simpl.
  destruct (q c) eqn:Q; simpl.
  - rewrite IH. reflexivity.
  - destruct (a c) eqn:A; [|exact IH]. rewrite (H _ A) in Q. discriminate.
Qed.

Lemma filter_map_kept (f : cu -> cu) s :
  (forall c, a c = true -> f c = c) ->
  (forall c, a c = false -> a (f c) = false) ->
  filter a (map f s) = filter a s.
Proof.
  intros H1 H2. induction s as [|c s IH]; [reflexivity|]. simpl.
  destruct (a c) eqn:A.
  - rewrite (H1 _ A), A, IH. reflexivity.
  - rewrite (H2 _ A). exact IH.
Qed.

Section Runs.

Variables (p : cu -> bool) (g : jsstring -> jsstring).
Hypothesis p_out : forall c, p c = true -> a c = false.
Hypothesis g_out : forall run, forallb p run = true -> filter a (emit g run) = [].

Lemma filter_collapseFrom_kept : forall s run,
  forallb p run = true ->
  filter a (collapseFrom p g run s) = filter a s.
Proof.
  induction s as [|c s IH]; intros run Hrun; simpl.
  - apply g_out, Hrun.
  - destruct (p c) eqn:Pc.
    + rewrite (@p_out _ Pc). apply IH.
      rewrite forallb_app, Hrun. simpl. rewrite Pc. reflexivity.
    + rewrite filter_app, (@g_out _ Hrun). simpl.
      rewrite (IH [] eq_refl). reflexivity.
Qed.

Lemma filter_replaceRuns_kept s :
  filter a (replaceRuns p g s) = filter a s.
Proof. apply filter_collapseFrom_kept. reflexivity. Qed.

Lemma filter_dropWhile_kept s : filter a (dropWhile p s) = filter a s.
Proof.
  induction s as [|c s IH]; [reflexivity|]. simpl.
  destruct (p c) eqn:Pc; [|reflexivity].
  rewrite (@p_out _ Pc). exact IH.
Qed.

Lemma filter_dropWhileEnd_kept s : filter a (dropWhileEnd p s) = filter a s.
Proof.
  induction s as [|c s IH]; [reflexivity|]. simpl.
  destruct (dropWhileEnd p s) as [|x t] eqn:D.
  - simpl in IH. destruct (p c) eqn:Pc.
    + rewrite (@p_out _ Pc). exact IH.
    + simpl. rewrite <- IH. reflexivity.
  - change (filter a (c :: x :: t)) with
      (if a c then c :: filter a (x :: t) else filter a (x :: t)).
    rewrite IH. reflexivity.
Qed.

Lemma filter_stripEnds_kept s : filter a (stripEnds p s) = filter a s.
Proof.
  unfold stripEnds. rewrite filter_dropWhileEnd_kept. apply filter_dropWhile_kept.
Qed.

End Runs.

(** A text over [a] and [sep] that does not begin with [sep] is empty
    when it has nothing of [a]. *)
Lemma no_letters_empty (sep : cu -> bool) s :
  forallb (fun c => a c || sep c) s = true ->
  firstIs sep s = false -> filter a s = [] -> s = [].
Proof.
  destruct s as [|c s]; [reflexivity|]. simpl. intros H F E.
  apply andb_true_iff in H. destruct H as [H _]. rewrite F, orb_false_r in H.
  rewrite H in E. discriminate.
Qed.

End Kept.

(** ** Valid slugs *)

Lemma separator_not_alnumLower allowDots c :
  isSeparator 45 allowDots c = true -> isAlnumLower c = false.
Proof.
  intros H. apply isSeparator_cases in H. destruct H as [->|[_ ->]]; reflexivity.
Qed.

Lemma class_not_alnumLower sep allowDots c :
  isAlnumLower sep = false ->
  isSeparator sep allowDots c = true -> isAlnumLower c = false.
Proof.
  intros Hs H. apply isSeparator_cases in H.
  destruct H as [->|[_ ->]]; [exact Hs | reflexivity].
Qed.

Lemma validSlug_shape s options :
  isValidSlug (JSString s) options = true ->
  s <> [] /\
  forallb (fun c => isAlnumLower c || isSeparator 45 (allowDotsOf options) c) s
    = true /\
  adjacent (isSeparator 45 (allowDotsOf options)) s = false /\
  firstIs (isSeparator 45 (allowDotsOf options)) s = false /\
  lastIs (isSeparator 45 (allowDotsOf options)) s = false.
Proof.
  rewrite isValidSlug_accepts.
  pose proof (separator_not_alnumLower (allowDotsOf options)) as Hd.
  intros H. apply (accepts_wellFormed _ _ Hd) in H.
  destruct H as (H1 & H2 & H3 & H4 & H5). repeat split; try assumption.
  - apply (firstIs_disjoint _ _ Hd), H3.
  - apply (lastIs_disjoint _ _ Hd), H4.
Qed.

Lemma slugStages_valid {platform : Platform} allowDots text options :
  allowDotsOf options = allowDots ->
  slugStages 45 allowDots text <> [] ->
  isValidSlug (JSString (slugStages 45 allowDots text)) options = true.
Proof.
  intros <- Hne. rewrite isValidSlug_accepts.
  destruct (slugStages_shape 45 (allowDotsOf options) text) as (H1 & H2 & H3 & H4).
  apply shaped_accepts; assumption.
Qed.

Lemma convertToSlug_of_valid {platform : Platform} s options :
  separatorOf options = str "-" ->
  isValidSlug (JSString s) options = true ->
  convertToSlug (JSString s) options = Returns s.
Proof.
  intros Hsep Hv. rewrite (convertToSlug_stages s options Hsep). f_equal.
  destruct (validSlug_shape s options Hv) as (_ & H1 & H2 & H3 & H4).
  apply slugStages_fixed; try assumption.
  apply plain_asciiNotUpper. reflexivity.
Qed.

(** ** The letters and digits of a slug *)

Lemma alnumLower_not_mark c :
  isAlnumLower c = true -> negb (isCombiningMark c) = true.
Proof.
  intros H. apply isAlnumLower_bounds in H. unfold isCombiningMark.
  destruct H as [H|H]; decide_leb; reflexivity.
Qed.

Lemma slug_letters {platform : Platform} sep allowDots text :
  isAlnumLower sep = false ->
  filter isAlnumLower (slugStages sep allowDots text) =
  filter isAlnumLower (normalizeNFD (toLowerCase text)).
Proof.
  intros Hsep. rewrite slugStages_contract.
  unfold contractStages, finished, cleaned.
  assert (Hclass : forall c, isSeparator sep allowDots c = true -> isAlnumLower c = false)
    by (intros c; apply class_not_alnumLower, Hsep).
  rewrite filter_stripEnds_kept by exact Hclass.
  rewrite filter_replaceRuns_kept; [|exact Hclass|].
  2:{ intros run _. destruct run as [|x run]; [reflexivity|].
      simpl emit. unfold collapsed.
      destruct (includesChar (x :: run) 46); simpl; [reflexivity|].
      rewrite Hsep. reflexivity. }
  rewrite filter_filter_kept by (intros c H; rewrite H; reflexivity).
  rewrite filter_replaceRuns_kept; [|exact alnumLower_not_space|].
  2:{ intros run _. destruct run as [|x run]; [reflexivity|].
      simpl. rewrite Hsep. reflexivity. }
  assert (Hdots : filter isAlnumLower
            (if allowDots
             then filter (fun c => negb (isCombiningMark c)) (normalizeNFD (toLowerCase text))
             else map (fun c => if N.eqb c 46 then sep else c)
                    (filter (fun c => negb (isCombiningMark c))
                       (normalizeNFD (toLowerCase text)))) =
          filter isAlnumLower
            (filter (fun c => negb (isCombiningMark c)) (normalizeNFD (toLowerCase text)))).
  { destruct allowDots; [reflexivity|]. apply filter_map_kept.
    - intros c H. destruct (N.eqb_spec c 46) as [->|]; [discriminate | reflexivity].
    - intros c H. destruct (N.eqb c 46); [exact Hsep | exact H]. }
  rewrite Hdots. apply filter_filter_kept, alnumLower_not_mark.
Qed.

Lemma slug_empty_iff {platform : Platform} sep allowDots text :
  isAlnumLower sep = false ->
  slugStages sep allowDots text = [] <->
  filter isAlnumLower (normalizeNFD (toLowerCase text)) = [].
Proof.
  intros Hsep. rewrite <- (slug_letters sep allowDots text Hsep). split.
  - intros ->. reflexivity.
  - destruct (slugStages_shape sep allowDots text) as (H1 & _ & H3 & _).
    apply (no_letters_empty isAlnumLower (isSeparator sep allowDots)); assumption.
Qed.

(** ** Numbered candidates *)

Lemma digitsOf_alnumLower u : forallb isAlnumLower (digitsOf u) = true.
Proof. induction u; simpl; auto. Qed.

Lemma digitsOf_nonempty u : u <> Decimal.Nil -> digitsOf u <> [].
Proof. destruct u; [congruence | discriminate ..]. Qed.

Lemma numberToString_nonempty n : numberToString n <> [].
Proof.
  unfold numberToString. apply digitsOf_nonempty.
  destruct n as [|p]; [discriminate|]. apply DecimalPos.Unsigned.to_uint_nonnil.
Qed.

Lemma candidate_valid baseSlug n validation :
  isValidSlug (JSString baseSlug) validation = true ->
  isValidSlug (JSString (baseSlug ++ str "-" ++ numberToString n)) validation = true.
Proof.
  rewrite !isValidSlug_accepts. intros H.
  apply accepts_join; [exact H | reflexivity | reflexivity |].
  apply accepts_letters; [apply digitsOf_alnumLower|].
  intros E. destruct (numberToString_nonempty n E).
Qed.

Lemma candidates_distinct b s : forall len start,
  NoDup (map (fun k => candidate b s (N.of_nat k)) (seq start len)).
Proof.
  induction len as [|len IH]; intros start; simpl; constructor.
  - rewrite in_map_iff. intros (k & E & Hk). apply candidate_inj in E.
    apply in_seq in Hk. lia.
  - apply IH.
Qed.

Lemma generateUniqueSlug_bound baseSlug existingSlugs options :
  In baseSlug existingSlugs ->
  exists n, (1 <= n <= N.of_nat (length existingSlugs))%N /\
    generateUniqueSlug baseSlug existingSlugs options =
    Some (baseSlug ++ separatorOf options ++ numberToString n).
Proof.
  intros Hin. apply includes_In in Hin.
  destruct (generateUniqueSlug_spec baseSlug existingSlugs options)
    as (r & Hr & _ & _ & Hsuffix).
  destruct (Hsuffix Hin) as (n & Hn & Heq & Hbelow). subst r.
  exists n. split; [|exact Hr]. split; [exact Hn|].
  set (taken := baseSlug ::
         map (fun k => candidate baseSlug (separatorOf options) (N.of_nat k))
           (seq 1 (N.to_nat n - 1))).
  assert (Hnd : NoDup taken).
  { constructor; [|apply candidates_distinct].
    rewrite in_map_iff. intros (k & E & _).
    exact (@base_not_candidate _ _ _ (eq_sym E)). }
  assert (Hincl : incl taken existingSlugs).
  { intros x [<-|Hx]; [apply includes_In, Hin|].
    apply in_map_iff in Hx. destruct Hx as (k & <- & Hk). apply in_seq in Hk.
    apply includes_In. apply Hbelow. lia. }
  pose proof (NoDup_incl_length Hnd Hincl) as Hlen.
  unfold taken in Hlen. simpl in Hlen. rewrite length_map, length_seq in Hlen. lia.
Qed.

(** ** Parts of a text *)

Lemma in_firstn (n : nat) (s : jsstring) c : In c (firstn n s) -> In c s.
Proof.
  intros H. rewrite <- (firstn_skipn n s). apply in_or_app. left. exact H.
Qed.

Lemma in_skipn (n : nat) (s : jsstring) c : In c (skipn n s) -> In c s.
Proof.
  intros H. rewrite <- (firstn_skipn n s). apply in_or_app. right. exact H.
Qed.

(** ** Valid and normalised names *)

Lemma alnum_not_whiteSpace c : isWhiteSpace c = true -> isAlnum c = false.
Proof.
  intros H. apply isWhiteSpace_bounds in H. unfold isAlnum.
  destruct H as [H|H]; decide_leb; reflexivity.
Qed.

Lemma alnumLower_alnum c : isAlnumLower c = true -> isAlnum c = true.
Proof.
  unfold isAlnumLower, isAlnum. intros H.
  apply orb_true_iff in H. destruct H as [H|H]; rewrite H; auto using orb_true_r.
Qed.

Section NameFixed.

Variables (allowed : list jsstring) (r : jsstring).

Let special := isSpecial allowed.

Hypothesis n_chars : forallb (fun c => isAlnum c || special c) r = true.
Hypothesis n_adjacent : adjacent special r = false.
Hypothesis n_first : firstIs special r = false.
Hypothesis n_last : lastIs special r = false.

Lemma n_trim : trim r = r.
Proof.
  unfold trim. change (stripEnds isWhiteSpace r = r).
  destruct r as [|x t] eqn:E; [reflexivity|]. rewrite <- E in *.
  assert (Hne : r <> []) by (rewrite E; discriminate).
  apply stripEnds_fixed.
  - apply (firstIs_disjoint isAlnum isWhiteSpace alnum_not_whiteSpace).
    apply (firstIs_other isAlnum special); assumption.
  - apply (lastIs_disjoint isAlnum isWhiteSpace alnum_not_whiteSpace).
    apply (lastIs_other isAlnum special); assumption.
Qed.

Lemma nameStages_fixed : nameStages allowed r = r.
Proof.
  unfold nameStages. rewrite n_trim. fold special.
  rewrite (filter_all _ _ n_chars).
  rewrite replaceRuns_fixed; [|intros c _; reflexivity | exact n_adjacent].
  apply stripEnds_fixed; assumption.
Qed.

End NameFixed.

Lemma nameStages_idempotent allowed text :
  nameStages allowed (nameStages allowed text) = nameStages allowed text.
Proof.
  destruct (nameStages_shape allowed text) as (H1 & H2 & H3 & H4).
  apply nameStages_fixed; assumption.
Qed.

Lemma validName_fixed allowed name :
  (forall c, isSpecial allowed c = true -> isAlnum c = false) ->
  accepts isAlnum (isSpecial allowed) false name = true ->
  nameStages allowed name = name.
Proof.
  intros Hd H. apply (accepts_wellFormed _ _ Hd) in H.
  destruct H as (H1 & H2 & H3 & H4 & H5).
  apply nameStages_fixed; try assumption.
  - apply (firstIs_disjoint _ _ Hd), H3.
  - apply (lastIs_disjoint _ _ Hd), H4.
Qed.

Lemma name_letters allowed text :
  (forall c, isSpecial allowed c = true -> isAlnum c = false) ->
  filter isAlnum (nameStages allowed text) = filter isAlnum text.
Proof.
  intros Hd. unfold nameStages.
  rewrite filter_stripEnds_kept by exact Hd.
  rewrite filter_replaceRuns_kept; [|exact Hd|].
  2:{ intros run Hrun. destruct run as [|x run]; [reflexivity|].
      cbn [emit]. apply filter_none. intros c Hc. apply Hd.
      rewrite forallb_forall in Hrun. apply Hrun.
      destruct (2 <=? length (x :: run)); [|exact Hc].
      apply (in_firstn _ _ _ Hc). }
  rewrite filter_filter_kept by (intros c H; rewrite H; reflexivity).
  unfold trim. change (filter isAlnum (stripEnds isWhiteSpace text) = filter isAlnum text).
  apply filter_stripEnds_kept, alnum_not_whiteSpace.
Qed.

Lemma name_empty_iff allowed text :
  (forall c, isSpecial allowed c = true -> isAlnum c = false) ->
  nameStages allowed text = [] <-> filter isAlnum text = [].
Proof.
  intros Hd. rewrite <- (name_letters allowed text Hd). split.
  - intros ->. reflexivity.
  - destruct (nameStages_shape allowed text) as (H1 & _ & H3 & _).
    apply (no_letters_empty isAlnum (isSpecial allowed)); assumption.
Qed.

(** ** lastIndexOf and slice *)

Lemma lastIndexFrom_absent c : forall s i found,
  ~ In c s -> lastIndexFrom c i found s = found.
Proof.
  induction s as [|x s IH]; intros i found H; [reflexivity|]. simpl.
  destruct (N.eqb_spec x c) as [->|_].
  - destruct H. left. reflexivity.
  - apply IH. intros Hin. apply H. right. exact Hin.
Qed.

Lemma lastIndexFrom_split c ext : forall base i found,
  ~ In c ext ->
  lastIndexFrom c i found (base ++ c :: ext) = (i + Z.of_nat (length base))%Z.
Proof.
  induction base as [|x base IH]; intros i found H.
  - simpl. rewrite N.eqb_refl, lastIndexFrom_absent by exact H. lia.
  - cbn [app lastIndexFrom length]. rewrite IH by exact H. lia.
Qed.

Lemma lastIndexOf_split base ext c :
  ~ In c ext -> lastIndexOf (base ++ c :: ext) c = Z.of_nat (length base).
Proof. intros H. unfold lastIndexOf. rewrite lastIndexFrom_split by exact H. lia. Qed.

Lemma lastIndexOf_leading s c :
  ~ In c (tl s) -> (lastIndexOf s c <= 0)%Z.
Proof.
  unfold lastIndexOf. destruct s as [|x s]; simpl; intros H; [lia|].
  rewrite lastIndexFrom_absent by exact H. destruct (N.eqb x c); lia.
Qed.

Lemma slice_take s k :
  (0 <= k)%Z -> slice s 0 (Some k) = firstn (Z.to_nat k) s.
Proof.
  intros Hk. unfold slice, sliceIndex.
  replace (0 <? 0)%Z with false by reflexivity.
  replace (k <? 0)%Z with false by (symmetry; apply Z.ltb_ge; exact Hk).
  rewrite (Z.min_l 0) by lia. cbn [Z.to_nat skipn]. rewrite Z.sub_0_r.
  destruct (Z.le_ge_cases k (Z.of_nat (length s))) as [H|H].
  - rewrite Z.min_l by exact H. reflexivity.
  - rewrite Z.min_r by lia. rewrite Nat2Z.id.
    rewrite !firstn_all2 by lia. reflexivity.
Qed.

Lemma slice_prefix base rest :
  slice (base ++ rest) 0 (Some (Z.of_nat (length base))) = base.
Proof.
  rewrite slice_take by lia. rewrite Nat2Z.id.
  rewrite firstn_app, Nat.sub_diag, firstn_all. simpl. apply app_nil_r.
Qed.

Lemma slice_suffix base c ext :
  slice (base ++ c :: ext) (Z.of_nat (length base) + 1) None = ext.
Proof.
  unfold slice, sliceIndex. rewrite length_app. cbn [length].
  replace (Z.of_nat (length base) + 1 <? 0)%Z with false
    by (symmetry; apply Z.ltb_ge; lia).
  rewrite Z.min_l by lia.
  replace (Z.to_nat (Z.of_nat (length base) + 1)) with (length base + 1) by lia.
  replace (Z.to_nat (Z.of_nat (length base + S (length ext)) -
                     (Z.of_nat (length base) + 1))) with (length ext) by lia.
  replace (base ++ c :: ext) with ((base ++ [c]) ++ ext)
    by (rewrite <- app_assoc; reflexivity).
  rewrite skipn_app.
  replace (length base + 1) with (length (base ++ [c]))
    by (rewrite length_app; reflexivity).
  rewrite skipn_all, Nat.sub_diag. simpl. apply firstn_all.
Qed.

Lemma slice_In s from to c : In c (slice s from to) -> In c s.
Proof. unfold slice. intros H. apply in_firstn, in_skipn in H. exact H. Qed.

(** ** The digest in hexadecimal *)

Lemma below_256 (P : N -> bool) :
  forallb P (map N.of_nat (seq 0 256)) = true ->
  forall b, (b < 256)%N -> P b = true.
Proof.
  intros H b Hb. rewrite forallb_forall in H. apply H.
  apply in_map_iff. exists (N.to_nat b). split; [apply N2Nat.id|].
  apply in_seq. lia.
Qed.

Lemma byteHex_length b :
  (b < 256)%N -> length (padStart 2 48 (numberToHex b)) = 2.
Proof.
  intros Hb.
  apply Nat.eqb_eq.
  apply (below_256 (fun b => length (padStart 2 48 (numberToHex b)) =? 2));
    [vm_compute; reflexivity | exact Hb].
Qed.

Lemma byteHex_digits b :
  (b < 256)%N -> forallb isHexDigit (padStart 2 48 (numberToHex b)) = true.
Proof.
  apply (below_256 (fun b => forallb isHexDigit (padStart 2 48 (numberToHex b)))).
  vm_compute. reflexivity.
Qed.

Lemma hexText_length digest :
  Forall (fun b => (b < 256)%N) digest ->
  length (concat (map (fun b => padStart 2 48 (numberToHex b)) digest)) =
  2 * length digest.
Proof.
  induction 1 as [|b d Hb _ IH]; [reflexivity|].
  cbn [map concat length]. rewrite length_app, IH, byteHex_length by exact Hb. lia.
Qed.

Lemma hexText_digits digest :
  Forall (fun b => (b < 256)%N) digest ->
  forallb isHexDigit
    (concat (map (fun b => padStart 2 48 (numberToHex b)) digest)) = true.
Proof.
  induction 1 as [|b d Hb _ IH]; [reflexivity|].
  cbn [map concat]. rewrite forallb_app, IH, byteHex_digits by exact Hb. reflexivity.
Qed.

Lemma hexDigit_alnumLower c : isHexDigit c = true -> isAlnumLower c = true.
Proof.
  unfold isHexDigit, isAlnumLower. intros H.
  apply orb_true_iff in H. destruct H as [H|H].
  - rewrite H. apply orb_true_r.
  - apply andb_true_iff in H. destruct H as [H1 H2].
    apply N.leb_le in H1, H2. apply orb_true_iff. left.
    apply andb_true_iff. split; apply N.leb_le; lia.
Qed.

Section Hashed.

Context {platform : Platform}.

Variable sha256 : list N -> list N.

Lemma hashContent_digits buffer hashLength :
  Forall (fun b => (b < 256)%N) (sha256 buffer) ->
  forallb isHexDigit (hashContent sha256 buffer hashLength) = true.
Proof.
  intros H. apply forallb_forall. intros c Hc.
  unfold hashContent in Hc. apply slice_In in Hc.
  pose proof (hexText_digits H) as Hd. rewrite forallb_forall in Hd.
  apply Hd, Hc.
Qed.

Lemma hashContent_length buffer hashLength :
  Forall (fun b => (b < 256)%N) (sha256 buffer) ->
  (0 <= orDefault 8 hashLength <= 2 * Z.of_nat (length (sha256 buffer)))%Z ->
  length (hashContent sha256 buffer hashLength) =
  Z.to_nat (orDefault 8%Z hashLength).
Proof.
  intros H Hk. unfold hashContent. rewrite slice_take by lia.
  rewrite length_firstn, (hexText_length H). lia.
Qed.

Lemma sanitizeFilename_stages name :
  sanitizeFilename (JSString name) = Returns (slugStages 45 true name).
Proof.
  unfold sanitizeFilename.
  apply (convertToSlug_stages name
           {| opt_separator := None; opt_allowDots := Some true |} eq_refl).
Qed.

Lemma sanitizeFilename_returns v : exists r, sanitizeFilename v = Returns r.
Proof.
  destruct (negb (ToBoolean v) || negb (typeofIsString v)) eqn:G.
  - unfold sanitizeFilename, convertToSlug. rewrite G. eauto.
  - apply accepted_guard in G. destruct G as (s & -> & _).
    rewrite sanitizeFilename_stages. eauto.
Qed.

Lemma getHashedFilename_split buffer base ext options safeBase :
  base <> [] -> ~ In 46%N ext ->
  sanitizeFilename (JSString base) = Returns safeBase ->
  getHashedFilename sha256 buffer (base ++ str "." ++ ext) options =
  Returns (safeBase ++ str "." ++
           hashContent sha256 buffer (Some (orDefault 8%Z (opt_hashLength options))) ++
           match ext with [] => [] | _ => str "." ++ ext end).
Proof.
  intros Hb Hext Hs. unfold getHashedFilename.
  change (str "." ++ ext) with (46%N :: ext).
  rewrite lastIndexOf_split by exact Hext.
  replace (0 <? Z.of_nat (length base))%Z with true
    by (symmetry; apply Z.ltb_lt; destruct base; [congruence | simpl; lia]).
  rewrite slice_prefix, slice_suffix, Hs. cbn [bind].
  destruct ext; [rewrite app_nil_r|]; reflexivity.
Qed.

Lemma getHashedFilename_whole buffer originalName options safeBase :
  ~ In 46%N (tl originalName) ->
  sanitizeFilename (JSString originalName) = Returns safeBase ->
  getHashedFilename sha256 buffer originalName options =
  Returns (safeBase ++ str "." ++
           hashContent sha256 buffer (Some (orDefault 8%Z (opt_hashLength options)))).
Proof.
  intros Hd Hs. unfold getHashedFilename.
  replace (0 <? lastIndexOf originalName 46)%Z with false
    by (symmetry; apply Z.ltb_ge, lastIndexOf_leading, Hd).
  rewrite Hs. reflexivity.
Qed.

End Hashed.

(** ** Hypotheses that can be run *)

Lemma plainSpecials_spec allowed :
  plainSpecials allowed = true ->
  forall c, isSpecial allowed c = true -> isAlnum c = false.
Proof.
  unfold plainSpecials, isSpecial. intros H c Hc.
  apply existsb_exists in Hc. destruct Hc as (e & He & Hc).
  rewrite forallb_forall in H. specialize (H _ He).
  unfold includesChar in Hc. apply existsb_exists in Hc.
  destruct Hc as (x & Hx & E). apply N.eqb_eq in E. subst x.
  rewrite forallb_forall in H. specialize (H _ Hx).
  apply negb_true_iff in H. exact H.
Qed.

Lemma includesChar_false s c : includesChar s c = false -> ~ In c s.
Proof.
  unfold includesChar. intros H Hin.
  assert (E : existsb (N.eqb c) s = true)
    by (apply existsb_exists; exists c; split; [exact Hin | apply N.eqb_refl]).
  congruence.
Qed.

Lemma isByte_Forall digest :
  forallb isByte digest = true -> Forall (fun b => (b < 256)%N) digest.
Proof.
  intros H. apply Forall_forall. intros b Hb.
  rewrite forallb_forall in H. apply N.ltb_lt, H, Hb.
Qed.

Lemma isSpecial_incl allowed allowed' c :
  incl allowed allowed' ->
  isSpecial allowed c = true -> isSpecial allowed' c = true.
Proof.
  unfold isSpecial. intros Hi H. apply existsb_exists in H.
  destruct H as (e & He & Hc). apply existsb_exists. exists e. auto.
Qed.

Lemma isSpecial_entry allowed c :
  In [c] allowed -> isSpecial allowed c = true.
Proof.
  intros H. unfold isSpecial. apply existsb_exists. exists [c].
  split; [exact H|]. unfold includesChar. simpl. rewrite N.eqb_refl. reflexivity.
Qed.

Lemma validSlug_with_dots v options :
  isValidSlug v options = true -> isValidSlug v filenameOptions = true.
Proof.
  destruct (negb (ToBoolean v) || negb (typeofIsString v)) eqn:G.
  - unfold isValidSlug. rewrite G. discriminate.
  - apply accepted_guard in G. destruct G as (s & -> & _).
    rewrite !isValidSlug_accepts.
    apply accepts_weaken; auto.
    intros c H. apply isSeparator_cases in H.
    destruct H as [->|[_ ->]]; reflexivity.
Qed.

(** * Further properties *)

(** ** Slugs *)

(** X1: a valid slug is a fixed point of convertToSlug: if
    [isValidSlug(s, options)] is true and the separator is the hyphen (the
    default), [convertToSlug(s, options)] returns [s] itself, on every
    platform. *)
Theorem convertToSlug_fixes_valid_slugs {platform : Platform}
    (s : jsstring) (options : SlugOptions) :
  separatorOf options = str "-" ->
  isValidSlug (JSString s) options = true ->
  convertToSlug (JSString s) options = Returns s.
Proof. apply convertToSlug_of_valid. Qed.

Lemma convertToSlug_fixes_valid_slugs_witness :
  separatorOf withDots = str "-" /\
  isValidSlug (JSString (str "my-file.tar.gz")) withDots = true /\
  convertToSlug (platform := latin1Platform) (JSString (str "my-file.tar.gz"))
    withDots = Returns (str "my-file.tar.gz").
Proof.
  assert (H1 : separatorOf withDots = str "-") by reflexivity.
  assert (H2 : isValidSlug (JSString (str "my-file.tar.gz")) withDots = true)
    by reflexivity.
  exact (conj H1 (conj H2
    (convertToSlug_fixes_valid_slugs (platform := latin1Platform)
       (str "my-file.tar.gz") withDots H1 H2))).
Defined.

(** X2: convertToSlug neither adds, drops nor reorders letters and digits:
    for a separator of one code unit that is not itself a lower-case
    letter or digit, the lower-case letters and digits of the result are
    those of the lower-cased, decomposed text, in the same order. *)
Theorem convertToSlug_keeps_letters {platform : Platform}
    (text : jsstring) (options : SlugOptions) (sep : cu) :
  separatorOf options = [sep] ->
  isAlnumLower sep = false ->
  exists r,
    convertToSlug (JSString text) options = Returns r /\
    filter isAlnumLower r =
    filter isAlnumLower (normalizeNFD (toLowerCase text)).
Proof.
  intros Hsep Ha. exists (slugStages sep (allowDotsOf options) text).
  split; [apply convertToSlug_stages, Hsep | apply slug_letters, Ha].
Qed.

Lemma convertToSlug_keeps_letters_witness :
  separatorOf noOptions = [45%N] /\ isAlnumLower 45 = false /\
  exists r,
    convertToSlug (platform := latin1Platform) (JSString cafeRestaurant)
      noOptions = Returns r /\
    filter isAlnumLower r =
    filter isAlnumLower
      (normalizeNFD (Platform := latin1Platform)
         (toLowerCase (Platform := latin1Platform) cafeRestaurant)).
Proof.
  assert (H1 : separatorOf noOptions = [45%N]) by reflexivity.
  assert (H2 : isAlnumLower 45 = false) by reflexivity.
  exact (conj H1 (conj H2
    (convertToSlug_keeps_letters (platform := latin1Platform)
       cafeRestaurant noOptions H1 H2))).
Defined.

(** X3: convertToSlug returns the empty string exactly when the
    lower-cased, decomposed text has no lower-case letter and no digit,
    for a separator of one code unit that is not itself one. *)
Theorem convertToSlug_empty_iff {platform : Platform}
    (text : jsstring) (options : SlugOptions) (sep : cu) :
  separatorOf options = [sep] ->
  isAlnumLower sep = false ->
  (convertToSlug (JSString text) options = Returns [] <->
   filter isAlnumLower (normalizeNFD (toLowerCase text)) = []).
Proof.
  intros Hsep Ha. rewrite (convertToSlug_stages text options Hsep).
  rewrite <- (slug_empty_iff sep (allowDotsOf options) text Ha).
  split; [intros H; injection H as H; exact H | intros ->; reflexivity].
Qed.

Lemma convertToSlug_empty_iff_witness :
  separatorOf noOptions = [45%N] /\ isAlnumLower 45 = false /\
  (convertToSlug (platform := latin1Platform) (JSString (str " _.!? "))
     noOptions = Returns [] <->
   filter isAlnumLower
     (normalizeNFD (Platform := latin1Platform)
        (toLowerCase (Platform := latin1Platform) (str " _.!? "))) = []).
Proof.
  assert (H1 : separatorOf noOptions = [45%N]) by reflexivity.
  assert (H2 : isAlnumLower 45 = false) by reflexivity.
  exact (conj H1 (conj H2
    (convertToSlug_empty_iff (platform := latin1Platform)
       (str " _.!? ") noOptions H1 H2))).
Defined.

(** X4: allowing dots never turns a valid slug away: whatever the value
    and the options, if isValidSlug accepts it then it accepts it with
    [allowDots: true] as well. *)
Theorem isValidSlug_allowDots_monotone
    (candidate : jsvalue) (options : SlugOptions) :
  isValidSlug candidate options = true ->
  isValidSlug candidate
    {| opt_separator := opt_separator options; opt_allowDots := Some true |}
  = true.
Proof. intros H. exact (validSlug_with_dots candidate options H). Qed.

Lemma isValidSlug_allowDots_monotone_witness :
  isValidSlug (JSString (str "hello-world")) noOptions = true /\
  isValidSlug (JSString (str "hello-world"))
    {| opt_separator := opt_separator noOptions; opt_allowDots := Some true |}
  = true.
Proof.
  assert (H1 : isValidSlug (JSString (str "hello-world")) noOptions = true)
    by reflexivity.
  exact (conj H1
    (isValidSlug_allowDots_monotone (JSString (str "hello-world")) noOptions H1)).
Defined.

(** X5: generateUniqueSlug keeps slugs valid: with the hyphen as
    separator (the default), if [baseSlug] is a valid slug then so is the
    slug returned, under the same validation options. *)
Theorem generateUniqueSlug_keeps_valid
    (baseSlug : jsstring) (existingSlugs : list jsstring)
    (options validation : SlugOptions) :
  separatorOf options = str "-" ->
  isValidSlug (JSString baseSlug) validation = true ->
  exists r,
    generateUniqueSlug baseSlug existingSlugs options = Some r /\
    isValidSlug (JSString r) validation = true.
Proof.
  intros Hsep Hv.
  destruct (generateUniqueSlug_spec baseSlug existingSlugs options)
    as (r & Hr & _ & Hbase & Hsuffix).
  exists r. split; [exact Hr|].
  destruct (includes existingSlugs baseSlug) eqn:E.
  - destruct (Hsuffix eq_refl) as (n & _ & -> & _).
    rewrite Hsep. apply candidate_valid, Hv.
  - rewrite (Hbase eq_refl). exact Hv.
Qed.

Lemma generateUniqueSlug_keeps_valid_witness :
  separatorOf noOptions = str "-" /\
  isValidSlug (JSString (str "post")) noOptions = true /\
  exists r,
    generateUniqueSlug (str "post") [str "post"; str "post-1"] noOptions
      = Some r /\
    isValidSlug (JSString r) noOptions = true.
Proof.
  assert (H1 : separatorOf noOptions = str "-") by reflexivity.
  assert (H2 : isValidSlug (JSString (str "post")) noOptions = true)
    by reflexivity.
  exact (conj H1 (conj H2
    (generateUniqueSlug_keeps_valid (str "post") [str "post"; str "post-1"]
       noOptions noOptions H1 H2))).
Defined.

(** X6: the number generateUniqueSlug appends is never larger than the
    number of existing slugs: when [baseSlug] is taken, the result is
    [baseSlug + separator + n] with [1 <= n <= existingSlugs.length]. *)
Theorem generateUniqueSlug_counter_bound
    (baseSlug : jsstring) (existingSlugs : list jsstring)
    (options : SlugOptions) :
  In baseSlug existingSlugs ->
  exists n, (1 <= n <= N.of_nat (length existingSlugs))%N /\
    generateUniqueSlug baseSlug existingSlugs options =
    Some (baseSlug ++ separatorOf options ++ numberToString n).
Proof. apply generateUniqueSlug_bound. Qed.

Lemma generateUniqueSlug_counter_bound_witness :
  In (str "post") [str "post-1"; str "post"; str "other"] /\
  exists n, (1 <= n <= N.of_nat (length [str "post-1"; str "post"; str "other"]))%N /\
    generateUniqueSlug (str "post") [str "post-1"; str "post"; str "other"]
      noOptions =
    Some (str "post" ++ separatorOf noOptions ++ numberToString n).
Proof.
  assert (H1 : In (str "post") [str "post-1"; str "post"; str "other"])
    by (right; left; reflexivity).
  exact (conj H1
    (generateUniqueSlug_counter_bound (str "post")
       [str "post-1"; str "post"; str "other"] noOptions H1)).
Defined.

(** X23: with any separator of one code unit, what convertToSlug returns
    is made of lower-case letters, digits, the separator and, if dots are
    allowed, dots only; it neither begins nor ends with a separator or
    dot, and no two of them stand side by side. *)
Theorem convertToSlug_shape {platform : Platform}
    (text : jsstring) (options : SlugOptions) (sep : cu) :
  separatorOf options = [sep] ->
  exists r,
    convertToSlug (JSString text) options = Returns r /\
    forallb (fun c => isAlnumLower c || isSeparator sep (allowDotsOf options) c) r
      = true /\
    adjacent (isSeparator sep (allowDotsOf options)) r = false /\
    firstIs (isSeparator sep (allowDotsOf options)) r = false /\
    lastIs (isSeparator sep (allowDotsOf options)) r = false.
Proof.
  intros Hsep. exists (slugStages sep (allowDotsOf options) text).
  split; [apply convertToSlug_stages, Hsep|].
  apply slugStages_shape.
Qed.

Lemma convertToSlug_shape_witness :
  separatorOf (withSeparator (str "_")) = [95%N] /\
  exists r,
    convertToSlug (platform := latin1Platform) (JSString (str "__Hello, World.txt__"))
      (withSeparator (str "_")) = Returns r /\
    forallb (fun c => isAlnumLower c ||
                      isSeparator 95 (allowDotsOf (withSeparator (str "_"))) c) r
      = true /\
    adjacent (isSeparator 95 (allowDotsOf (withSeparator (str "_")))) r = false /\
    firstIs (isSeparator 95 (allowDotsOf (withSeparator (str "_")))) r = false /\
    lastIs (isSeparator 95 (allowDotsOf (withSeparator (str "_")))) r = false.
Proof.
  assert (H1 : separatorOf (withSeparator (str "_")) = [95%N]) by reflexivity.
  exact (conj H1
    (convertToSlug_shape (platform := latin1Platform)
       (str "__Hello, World.txt__") (withSeparator (str "_")) H1)).
Defined.

(** ** Names *)

(** X7: normalizeName is idempotent for every [allowedSpecialChars]:
    it returns, and normalising its result again returns the result
    unchanged. *)
Theorem normalizeName_idempotent (text : jsstring) (options : NameOptions) :
  exists r,
    normalizeName (JSString text) options = Returns r /\
    normalizeName (JSString r) options = Returns r.
Proof.
  exists (nameStages (specialsOf options) text).
  rewrite !normalizeName_stages, nameStages_idempotent. split; reflexivity.
Qed.

(** X8: a valid name is a fixed point of normalizeName, provided no
    allowed special character is itself a letter or digit: if
    [isValidName(name, options)] is true then [normalizeName(name,
    options)] returns [name]. *)
Theorem normalizeName_fixes_valid_names
    (name : jsstring) (options : NameOptions) :
  plainSpecials (specialsOf options) = true ->
  isValidName (JSString name) options = Returns true ->
  normalizeName (JSString name) options = Returns name.
Proof.
  intros Hp Hv. rewrite isValidName_accepts in Hv. injection Hv as Hv.
  rewrite normalizeName_stages. f_equal.
  apply validName_fixed; [apply plainSpecials_spec, Hp | exact Hv].
Qed.

Lemma normalizeName_fixes_valid_names_witness :
  plainSpecials (specialsOf (withSpecials [str " "; str "."])) = true /\
  isValidName (JSString (str "Test File.text"))
    (withSpecials [str " "; str "."]) = Returns true /\
  normalizeName (JSString (str "Test File.text"))
    (withSpecials [str " "; str "."]) = Returns (str "Test File.text").
Proof.
  assert (H1 : plainSpecials (specialsOf (withSpecials [str " "; str "."])) = true)
    by reflexivity.
  assert (H2 : isValidName (JSString (str "Test File.text"))
                 (withSpecials [str " "; str "."]) = Returns true)
    by reflexivity.
  exact (conj H1 (conj H2
    (normalizeName_fixes_valid_names (str "Test File.text")
       (withSpecials [str " "; str "."]) H1 H2))).
Defined.

(** X9: normalizeName neither adds, drops nor reorders letters and
    digits, provided no allowed special character is itself one: the
    letters and digits of the result are those of the text, in the same
    order and case. *)
Theorem normalizeName_keeps_letters (text : jsstring) (options : NameOptions) :
  plainSpecials (specialsOf options) = true ->
  exists r,
    normalizeName (JSString text) options = Returns r /\
    filter isAlnum r = filter isAlnum text.
Proof.
  intros Hp. exists (nameStages (specialsOf options) text).
  split; [apply normalizeName_stages|].
  apply name_letters, plainSpecials_spec, Hp.
Qed.

Lemma normalizeName_keeps_letters_witness :
  plainSpecials (specialsOf noNameOptions) = true /\
  exists r,
    normalizeName (JSString (str "  John@  Doe #2 ")) noNameOptions = Returns r /\
    filter isAlnum r = filter isAlnum (str "  John@  Doe #2 ").
Proof.
  assert (H1 : plainSpecials (specialsOf noNameOptions) = true) by reflexivity.
  exact (conj H1
    (normalizeName_keeps_letters (str "  John@  Doe #2 ") noNameOptions H1)).
Defined.

(** X10: normalizeName returns the empty string exactly when the text has
    no ASCII letter and no digit, provided no allowed special character is
    itself one. *)
Theorem normalizeName_empty_iff (text : jsstring) (options : NameOptions) :
  plainSpecials (specialsOf options) = true ->
  (normalizeName (JSString text) options = Returns [] <->
   filter isAlnum text = []).
Proof.
  intros Hp. rewrite normalizeName_stages.
  rewrite <- (name_empty_iff (specialsOf options) text (plainSpecials_spec _ Hp)).
  split; [intros H; injection H as H; exact H | intros ->; reflexivity].
Qed.

Lemma normalizeName_empty_iff_witness :
  plainSpecials (specialsOf noNameOptions) = true /\
  (normalizeName (JSString (str " @ # ")) noNameOptions = Returns [] <->
   filter isAlnum (str " @ # ") = []).
Proof.
  assert (H1 : plainSpecials (specialsOf noNameOptions) = true) by reflexivity.
  exact (conj H1 (normalizeName_empty_iff (str " @ # ") noNameOptions H1)).
Defined.

(** X11: allowing more special characters never turns a valid name away:
    if every entry of [allowed] is an entry of [allowed'], a value that
    isValidName accepts under [allowed] is accepted under [allowed']. *)
Theorem isValidName_more_allowed
    (name : jsvalue) (allowed allowed' : list jsstring) :
  incl allowed allowed' ->
  isValidName name (withSpecials allowed) = Returns true ->
  isValidName name (withSpecials allowed') = Returns true.
Proof.
  intros Hi.
  destruct (negb (ToBoolean name) || negb (typeofIsString name)) eqn:G.
  - unfold isValidName. rewrite G. discriminate.
  - apply accepted_guard in G. destruct G as (s & -> & _).
    rewrite !isValidName_accepts. intros H. injection H as H. f_equal.
    revert H. apply accepts_weaken; auto.
    intros c. apply isSpecial_incl, Hi.
Qed.

Lemma isValidName_more_allowed_witness :
  incl [str " "] [str "."; str " "] /\
  isValidName (JSString (str "John Doe")) (withSpecials [str " "]) = Returns true /\
  isValidName (JSString (str "John Doe")) (withSpecials [str "."; str " "])
    = Returns true.
Proof.
  assert (H1 : incl [str " "] [str "."; str " "])
    by (intros e He; right; exact He).
  assert (H2 : isValidName (JSString (str "John Doe")) (withSpecials [str " "])
               = Returns true) by reflexivity.
  exact (conj H1 (conj H2
    (isValidName_more_allowed (JSString (str "John Doe")) H1 H2))).
Defined.

(** X12: a valid slug is a valid name once the hyphen is an allowed
    special character, and the dot too if the slug was validated with
    [allowDots]. *)
Theorem validSlug_is_validName
    (candidate : jsvalue) (options : SlugOptions) (allowed : list jsstring) :
  In (str "-") allowed ->
  (allowDotsOf options = true -> In (str ".") allowed) ->
  isValidSlug candidate options = true ->
  isValidName candidate (withSpecials allowed) = Returns true.
Proof.
  intros Hh Hd.
  destruct (negb (ToBoolean candidate) || negb (typeofIsString candidate)) eqn:G.
  - unfold isValidSlug. rewrite G. discriminate.
  - apply accepted_guard in G. destruct G as (s & -> & _).
    rewrite isValidSlug_accepts, isValidName_accepts. intros H. f_equal.
    revert H. apply accepts_weaken; auto using alnumLower_alnum.
    intros c Hc. apply isSeparator_cases in Hc.
    destruct Hc as [->|[E ->]]; apply isSpecial_entry; auto.
Qed.

Lemma validSlug_is_validName_witness :
  In (str "-") [str " "; str "-"] /\
  (allowDotsOf noOptions = true -> In (str ".") [str " "; str "-"]) /\
  isValidSlug (JSString (str "hello-world-2")) noOptions = true /\
  isValidName (JSString (str "hello-world-2")) (withSpecials [str " "; str "-"])
    = Returns true.
Proof.
  assert (H1 : In (str "-") [str " "; str "-"]) by (right; left; reflexivity).
  assert (H2 : allowDotsOf noOptions = true -> In (str ".") [str " "; str "-"])
    by discriminate.
  assert (H3 : isValidSlug (JSString (str "hello-world-2")) noOptions = true)
    by reflexivity.
  exact (conj H1 (conj H2 (conj H3
    (validSlug_is_validName (JSString (str "hello-world-2")) noOptions
       [str " "; str "-"] H1 H2 H3)))).
Defined.

(** ** File names *)

(** X13: sanitizeFilename never throws, and what it returns is the empty
    string or a valid slug with [allowDots: true]; on the empty string and
    on a value that is not a string it returns the empty string. *)
Theorem sanitizeFilename_valid {platform : Platform} (name : jsvalue) :
  exists r,
    sanitizeFilename name = Returns r /\
    (r <> [] -> isValidSlug (JSString r) filenameOptions = true) /\
    (rejected name -> r = []).
Proof.
  destruct (negb (ToBoolean name) || negb (typeofIsString name)) eqn:G.
  - exists []. unfold sanitizeFilename, convertToSlug. rewrite G.
    split; [reflexivity|]. split; [congruence | reflexivity].
  - pose proof G as G'. apply accepted_guard in G'. destruct G' as (s & -> & Hs).
    exists (slugStages 45 true s). split; [apply sanitizeFilename_stages|].
    split; [apply slugStages_valid; reflexivity|].
    intros H. apply rejected_guard in H. congruence.
Qed.

(** X14: sanitizeFilename is idempotent, and it leaves a valid dotted slug
    as it is: sanitising its own result returns that result, and if
    [isValidSlug(s, {allowDots: true})] is true then [sanitizeFilename(s)]
    returns [s]. *)
Theorem sanitizeFilename_idempotent {platform : Platform} :
  (forall name, exists r,
     sanitizeFilename name = Returns r /\
     sanitizeFilename (JSString r) = Returns r) /\
  (forall s,
     isValidSlug (JSString s) filenameOptions = true ->
     sanitizeFilename (JSString s) = Returns s).
Proof.
  assert (Hfix : forall s,
     isValidSlug (JSString s) filenameOptions = true ->
     sanitizeFilename (JSString s) = Returns s).
  { intros s H. apply (convertToSlug_of_valid s filenameOptions eq_refl H). }
  split; [|exact Hfix].
  intros name.
  destruct (negb (ToBoolean name) || negb (typeofIsString name)) eqn:G.
  - exists []. unfold sanitizeFilename, convertToSlug. rewrite G.
    split; reflexivity.
  - apply accepted_guard in G. destruct G as (s & -> & _).
    exists (slugStages 45 true s). split; [apply sanitizeFilename_stages|].
    destruct (slugStages 45 true s) as [|c t] eqn:E; [reflexivity|].
    apply Hfix. rewrite <- E. apply slugStages_valid; [reflexivity|].
    rewrite E. discriminate.
Qed.

Lemma sanitizeFilename_idempotent_witness :
  isValidSlug (JSString (str "my-cool-file-1.txt")) filenameOptions = true /\
  sanitizeFilename (platform := latin1Platform)
    (JSString (str "my-cool-file-1.txt")) = Returns (str "my-cool-file-1.txt") /\
  sanitizeFilename (platform := latin1Platform)
    (JSString (str "  My Cool File #1.txt  ")) = Returns (str "my-cool-file-1.txt").
Proof.
  assert (H1 : isValidSlug (JSString (str "my-cool-file-1.txt")) filenameOptions
               = true) by reflexivity.
  exact (conj H1 (conj
    (proj2 (sanitizeFilename_idempotent (platform := latin1Platform))
       (str "my-cool-file-1.txt") H1) eq_refl)).
Defined.

(** X15: the hash hashContent returns is made of lower-case hexadecimal
    digits, whatever [hashLength] is, and it has exactly [hashLength] of
    them (8 when [hashLength] is left out) when [0 <= hashLength] and the
    digest has at least that many digits (sixty-four for SHA-256). *)
Theorem hashContent_hex (sha256 : list N -> list N)
    (buffer : list N) (hashLength : option Z) :
  forallb isByte (sha256 buffer) = true ->
  forallb isHexDigit (hashContent sha256 buffer hashLength) = true /\
  ((0 <= orDefault 8 hashLength <= 2 * Z.of_nat (length (sha256 buffer)))%Z ->
   Z.of_nat (length (hashContent sha256 buffer hashLength)) =
   orDefault 8%Z hashLength).
Proof.
  intros H. apply isByte_Forall in H. split.
  - apply hashContent_digits, H.
  - intros Hk. rewrite (hashContent_length sha256 buffer hashLength H Hk). lia.
Qed.

Lemma hashContent_hex_witness :
  forallb isByte (sampleDigest [104; 105]%N) = true /\
  (0 <= orDefault 8 (Some 12) <= 2 * Z.of_nat (length (sampleDigest [104; 105]%N)))%Z /\
  forallb isHexDigit (hashContent sampleDigest [104; 105]%N (Some 12%Z)) = true /\
  Z.of_nat (length (hashContent sampleDigest [104; 105]%N (Some 12%Z))) =
  orDefault 8%Z (Some 12%Z).
Proof.
  assert (H1 : forallb isByte (sampleDigest [104; 105]%N) = true) by reflexivity.
  assert (H2 : (0 <= orDefault 8 (Some 12)
                  <= 2 * Z.of_nat (length (sampleDigest [104; 105]%N)))%Z)
    by (vm_compute; split; discriminate).
  exact (conj H1 (conj H2 (conj
    (proj1 (hashContent_hex sampleDigest [104; 105]%N (Some 12%Z) H1))
    (proj2 (hashContent_hex sampleDigest [104; 105]%N (Some 12%Z) H1) H2)))).
Defined.

(** X16: getHashedFilename splits the name at its last dot, sanitises what
    stands before it and keeps what stands after it as it is: for
    [originalName = base + "." + ext] with [base] not empty and no dot in
    [ext], the result is [sanitizeFilename(base) + "." + hash + "." + ext],
    and [sanitizeFilename(base) + "." + hash] when [ext] is empty. *)
Theorem getHashedFilename_with_extension {platform : Platform}
    (sha256 : list N -> list N) (buffer : list N) (base ext : jsstring)
    (options : HashedFilenameOptions) :
  base <> [] -> includesChar ext 46 = false ->
  exists safeBase,
    sanitizeFilename (JSString base) = Returns safeBase /\
    getHashedFilename sha256 buffer (base ++ str "." ++ ext) options =
    Returns (safeBase ++ str "." ++
             hashContent sha256 buffer (Some (orDefault 8%Z (opt_hashLength options))) ++
             match ext with [] => [] | _ => str "." ++ ext end).
Proof.
  intros Hb He. destruct (sanitizeFilename_returns (JSString base)) as (sb & Hs).
  exists sb. split; [exact Hs|].
  apply getHashedFilename_split; [exact Hb | apply includesChar_false, He | exact Hs].
Qed.

Lemma getHashedFilename_with_extension_witness :
  str "My Image.v2" <> [] /\ includesChar (str "PNG") 46 = false /\
  exists safeBase,
    sanitizeFilename (platform := latin1Platform) (JSString (str "My Image.v2"))
      = Returns safeBase /\
    getHashedFilename (platform := latin1Platform) sampleDigest [1; 2; 3]%N
      (str "My Image.v2" ++ str "." ++ str "PNG") {| opt_hashLength := None |} =
    Returns (safeBase ++ str "." ++
             hashContent sampleDigest [1; 2; 3]%N
               (Some (orDefault 8%Z (opt_hashLength {| opt_hashLength := None |}))) ++
             match str "PNG" with [] => [] | _ => str "." ++ str "PNG" end).
Proof.
  assert (H1 : str "My Image.v2" <> []) by discriminate.
  assert (H2 : includesChar (str "PNG") 46 = false) by reflexivity.
  exact (conj H1 (conj H2
    (getHashedFilename_with_extension (platform := latin1Platform)
       sampleDigest [1; 2; 3]%N (str "PNG") {| opt_hashLength := None |} H1 H2))).
Defined.

(** X17: a name without a dot, or whose only dot is its first character,
    has no extension for getHashedFilename: the whole name is sanitised
    and the result is [sanitizeFilename(originalName) + "." + hash]. *)
Theorem getHashedFilename_without_extension {platform : Platform}
    (sha256 : list N -> list N) (buffer : list N) (originalName : jsstring)
    (options : HashedFilenameOptions) :
  includesChar (tl originalName) 46 = false ->
  exists safeBase,
    sanitizeFilename (JSString originalName) = Returns safeBase /\
    getHashedFilename sha256 buffer originalName options =
    Returns (safeBase ++ str "." ++
             hashContent sha256 buffer (Some (orDefault 8%Z (opt_hashLength options)))).
Proof.
  intros Hd.
  destruct (sanitizeFilename_returns (JSString originalName)) as (sb & Hs).
  exists sb. split; [exact Hs|].
  apply getHashedFilename_whole; [apply includesChar_false, Hd | exact Hs].
Qed.

Lemma getHashedFilename_without_extension_witness :
  includesChar (tl (str ".gitignore")) 46 = false /\
  exists safeBase,
    sanitizeFilename (platform := latin1Platform) (JSString (str ".gitignore"))
      = Returns safeBase /\
    getHashedFilename (platform := latin1Platform) sampleDigest [1; 2; 3]%N
      (str ".gitignore") {| opt_hashLength := Some 4%Z |} =
    Returns (safeBase ++ str "." ++
             hashContent sampleDigest [1; 2; 3]%N
               (Some (orDefault 8%Z (opt_hashLength {| opt_hashLength := Some 4%Z |})))).
Proof.
  assert (H1 : includesChar (tl (str ".gitignore")) 46 = false) by reflexivity.
  exact (conj H1
    (getHashedFilename_without_extension (platform := latin1Platform)
       sampleDigest [1; 2; 3]%N (str ".gitignore")
       {| opt_hashLength := Some 4%Z |} H1)).
Defined.

(** X18: getHashedFilename turns a clean name into a valid dotted slug:
    when the digest is made of bytes, [hashLength] is at least one and at
    most the number of digits of the digest, the part before the last dot
    sanitises to a non-empty text and the extension is empty or itself a
    valid slug, the result passes [isValidSlug(..., {allowDots: true})]. *)
Theorem getHashedFilename_valid {platform : Platform}
    (sha256 : list N -> list N) (buffer : list N) (base ext : jsstring)
    (options : HashedFilenameOptions) (safeBase : jsstring) :
  forallb isByte (sha256 buffer) = true ->
  (1 <= orDefault 8 (opt_hashLength options)
     <= 2 * Z.of_nat (length (sha256 buffer)))%Z ->
  base <> [] -> includesChar ext 46 = false ->
  sanitizeFilename (JSString base) = Returns safeBase -> safeBase <> [] ->
  (ext <> [] -> isValidSlug (JSString ext) filenameOptions = true) ->
  exists r,
    getHashedFilename sha256 buffer (base ++ str "." ++ ext) options = Returns r /\
    isValidSlug (JSString r) filenameOptions = true.
Proof.
  intros Hbytes Hk Hb He Hs Hne Hext.
  apply isByte_Forall in Hbytes.
  rewrite (@getHashedFilename_split platform sha256 buffer base ext options
             safeBase Hb (@includesChar_false _ _ He) Hs).
  eexists. split; [reflexivity|].
  rewrite sanitizeFilename_stages in Hs. injection Hs as <-.
  pose proof (slugStages_valid base filenameOptions eq_refl Hne) as Hsb.
  set (hash := hashContent sha256 buffer (Some (orDefault 8%Z (opt_hashLength options)))).
  assert (Hhash : accepts isAlnumLower (isSeparator 45 true) false hash = true).
  { apply accepts_letters.
    - apply forallb_forall. intros c Hc. apply hexDigit_alnumLower.
      pose proof (@hashContent_digits sha256 buffer
                    (Some (orDefault 8%Z (opt_hashLength options))) Hbytes) as Hd.
      rewrite forallb_forall in Hd. apply Hd, Hc.
    - intros E.
      assert (Hk' : (0 <= orDefault 8 (opt_hashLength options)
                       <= 2 * Z.of_nat (length (sha256 buffer)))%Z) by lia.
      pose proof (@hashContent_length sha256 buffer
                    (Some (orDefault 8%Z (opt_hashLength options))) Hbytes Hk') as Hl.
      fold hash in Hl. rewrite E in Hl. simpl in Hl. lia. }
  rewrite isValidSlug_accepts in *. change (allowDotsOf filenameOptions) with true in *.
  change (str "." ++ hash ++ match ext with [] => [] | _ => str "." ++ ext end)
    with (46%N :: hash ++ match ext with [] => [] | _ => 46%N :: ext end).
  apply accepts_join; [exact Hsb | reflexivity | reflexivity |].
  destruct ext as [|x ext]; [rewrite app_nil_r; exact Hhash|].
  apply accepts_join; [exact Hhash | reflexivity | reflexivity |].
  apply Hext. discriminate.
Qed.

Lemma getHashedFilename_valid_witness :
  forallb isByte (sampleDigest [1; 2; 3]%N) = true /\
  (1 <= orDefault 8 (opt_hashLength {| opt_hashLength := None |})
     <= 2 * Z.of_nat (length (sampleDigest [1; 2; 3]%N)))%Z /\
  str "myImage" <> [] /\ includesChar (str "png") 46 = false /\
  sanitizeFilename (platform := latin1Platform) (JSString (str "myImage"))
    = Returns (str "myimage") /\
  str "myimage" <> [] /\
  (str "png" <> [] -> isValidSlug (JSString (str "png")) filenameOptions = true) /\
  exists r,
    getHashedFilename (platform := latin1Platform) sampleDigest [1; 2; 3]%N
      (str "myImage" ++ str "." ++ str "png") {| opt_hashLength := None |}
      = Returns r /\
    isValidSlug (JSString r) filenameOptions = true.
Proof.
  assert (H1 : forallb isByte (sampleDigest [1; 2; 3]%N) = true) by reflexivity.
  assert (H2 : (1 <= orDefault 8 (opt_hashLength {| opt_hashLength := None |})
                  <= 2 * Z.of_nat (length (sampleDigest [1; 2; 3]%N)))%Z)
    by (vm_compute; split; discriminate).
  assert (H3 : str "myImage" <> []) by discriminate.
  assert (H4 : includesChar (str "png") 46 = false) by reflexivity.
  assert (H5 : sanitizeFilename (platform := latin1Platform)
                 (JSString (str "myImage")) = Returns (str "myimage"))
    by reflexivity.
  assert (H6 : str "myimage" <> []) by discriminate.
  assert (H7 : str "png" <> [] ->
               isValidSlug (JSString (str "png")) filenameOptions = true)
    by (intros _; reflexivity).
  exact (conj H1 (conj H2 (conj H3 (conj H4 (conj H5 (conj H6 (conj H7
    (getHashedFilename_valid (platform := latin1Platform) sampleDigest
       [1; 2; 3]%N {| opt_hashLength := None |} H1 H2 H3 H4 H5 H6 H7)))))))).
Defined.

(** ** The Zod helpers *)

Lemma validSlug_any_dots s options validation :
  allowDotsOf options = false ->
  isValidSlug (JSString s) options = true ->
  isValidSlug (JSString s) validation = true.
Proof.
  rewrite !isValidSlug_accepts. intros ->.
  apply accepts_weaken; auto.
  intros c H. apply isSeparator_cases in H.
  destruct H as [->|[E _]]; [reflexivity | discriminate].
Qed.

(** X19: what zodSlugTransform produces passes zodSlugValidation and the
    validator of slugSchema.create: when the transform runs with the
    hyphen as separator (the default) and with the [allowDots] of the
    validation options, a non-empty result is accepted, whatever the
    message. *)
Theorem zodSlugTransform_validates {platform : Platform}
    (transformOptions : option SlugOptions)
    (optionsOrMessage : messageOrOptions SlugValidationOptions)
    (text r : jsstring) :
  separatorOf (orDefault noOptions transformOptions) = str "-" ->
  allowDotsOf (orDefault noOptions transformOptions) =
    orDefault false (slug_allowDots (slugValidationOptions optionsOrMessage)) ->
  zodSlugTransform transformOptions (JSString text) = Returns r ->
  r <> [] ->
  zodSlugValidation optionsOrMessage (JSString r) = true /\
  validate (slugSchema_create optionsOrMessage) (JSString r) = true.
Proof.
  intros Hsep Hd Hr Hne. unfold zodSlugTransform in Hr.
  rewrite (convertToSlug_stages text _ Hsep) in Hr. injection Hr as <-.
  assert (H : zodSlugValidation optionsOrMessage
                (JSString (slugStages 45
                   (allowDotsOf (orDefault noOptions transformOptions)) text))
              = true).
  { unfold zodSlugValidation. apply slugStages_valid; [|exact Hne].
    symmetry. exact Hd. }
  split; [exact H|]. exact H.
Qed.

Lemma zodSlugTransform_validates_witness :
  separatorOf (orDefault noOptions (Some withDots)) = str "-" /\
  allowDotsOf (orDefault noOptions (Some withDots)) =
    orDefault false
      (slug_allowDots
         (slugValidationOptions
            (Options {| slug_message := None; slug_allowDots := Some true |}))) /\
  zodSlugTransform (platform := latin1Platform) (Some withDots)
    (JSString (str "My File.-v2")) = Returns (str "my-file.v2") /\
  str "my-file.v2" <> [] /\
  zodSlugValidation
    (Options {| slug_message := None; slug_allowDots := Some true |})
    (JSString (str "my-file.v2")) = true /\
  validate
    (slugSchema_create
       (Options {| slug_message := None; slug_allowDots := Some true |}))
    (JSString (str "my-file.v2")) = true.
Proof.
  assert (H1 : separatorOf (orDefault noOptions (Some withDots)) = str "-")
    by reflexivity.
  assert (H2 : allowDotsOf (orDefault noOptions (Some withDots)) =
               orDefault false
                 (slug_allowDots
                    (slugValidationOptions
                       (Options {| slug_message := None;
                                   slug_allowDots := Some true |}))))
    by reflexivity.
  assert (H3 : zodSlugTransform (platform := latin1Platform) (Some withDots)
                 (JSString (str "My File.-v2")) = Returns (str "my-file.v2"))
    by reflexivity.
  assert (H4 : str "my-file.v2" <> []) by discriminate.
  exact (conj H1 (conj H2 (conj H3 (conj H4
    (zodSlugTransform_validates (platform := latin1Platform) (Some withDots)
       (Options {| slug_message := None; slug_allowDots := Some true |})
       (str "My File.-v2") H1 H2 H3 H4))))).
Defined.

(** X20: what zodNameTransform produces passes zodNameValidation and the
    validator of nameSchema.create: when both are given the same
    [allowedSpecialChars], a non-empty result is accepted, whatever the
    message and whatever those characters are. *)
Theorem zodNameTransform_validates
    (transformOptions : option NameOptions)
    (optionsOrMessage : messageOrOptions NameValidationOptions)
    (text r : jsstring) :
  specialsOf (orDefault noNameOptions transformOptions) =
    orDefault [str " "]
      (name_allowedSpecialChars (nameValidationOptions optionsOrMessage)) ->
  zodNameTransform transformOptions (JSString text) = Returns r ->
  r <> [] ->
  zodNameValidation optionsOrMessage (JSString r) = Returns true /\
  validate (nameSchema_create optionsOrMessage) (JSString r) = Returns true.
Proof.
  intros Hs Hr Hne. unfold zodNameTransform in Hr.
  rewrite normalizeName_stages in Hr. injection Hr as <-.
  assert (H : zodNameValidation optionsOrMessage
                (JSString (nameStages
                   (specialsOf (orDefault noNameOptions transformOptions)) text))
              = Returns true).
  { unfold zodNameValidation. rewrite isValidName_accepts. f_equal.
    change (specialsOf {| opt_allowedSpecialChars :=
              name_allowedSpecialChars (nameValidationOptions optionsOrMessage) |})
      with (orDefault [str " "]
              (name_allowedSpecialChars (nameValidationOptions optionsOrMessage))).
    rewrite <- Hs.
    destruct (nameStages_shape
                (specialsOf (orDefault noNameOptions transformOptions)) text)
      as (H1 & H2 & H3 & H4).
    apply shaped_accepts; assumption. }
  split; [exact H|]. exact H.
Qed.

Lemma zodNameTransform_validates_witness :
  specialsOf (orDefault noNameOptions None) =
    orDefault [str " "]
      (name_allowedSpecialChars (nameValidationOptions (Message (str "Bad name")))) /\
  zodNameTransform None (JSString (str "  John   Doe  ")) = Returns (str "John Doe") /\
  str "John Doe" <> [] /\
  zodNameValidation (Message (str "Bad name")) (JSString (str "John Doe"))
    = Returns true /\
  validate (nameSchema_create (Message (str "Bad name"))) (JSString (str "John Doe"))
    = Returns true.
Proof.
  assert (H1 : specialsOf (orDefault noNameOptions None) =
               orDefault [str " "]
                 (name_allowedSpecialChars
                    (nameValidationOptions (Message (str "Bad name")))))
    by reflexivity.
  assert (H2 : zodNameTransform None (JSString (str "  John   Doe  "))
               = Returns (str "John Doe")) by reflexivity.
  assert (H3 : str "John Doe" <> []) by discriminate.
  exact (conj H1 (conj H2 (conj H3
    (zodNameTransform_validates None (Message (str "Bad name"))
       (str "  John   Doe  ") H1 H2 H3)))).
Defined.

(** X21: the schemas built by slugSchema.create and nameSchema.create
    never carry an empty message (a custom message is kept when it is not
    empty, the default replaces a missing or empty one), and a message
    does not change what they validate: with a message only, they
    validate as isValidSlug and isValidName do with their default
    options. *)
Theorem schema_message_and_validation :
  (forall arg, message (slugSchema_create arg) <> []) /\
  (forall arg, message (nameSchema_create arg) <> []) /\
  (forall c m, message (slugSchema_create (Message (c :: m))) = c :: m) /\
  (forall c m, message (nameSchema_create (Message (c :: m))) = c :: m) /\
  message (slugSchema_create (Message [])) = message (slugSchema_create NoArgument) /\
  message (nameSchema_create (Message [])) = message (nameSchema_create NoArgument) /\
  (forall m v, validate (slugSchema_create (Message m)) v = isValidSlug v noOptions) /\
  (forall m v, validate (nameSchema_create (Message m)) v = isValidName v noNameOptions).
Proof.
  repeat split; try reflexivity.
  - intros arg. unfold slugSchema_create. cbn [message].
    destruct (slug_message (slugValidationOptions arg)) as [[|c m]|];
      discriminate.
  - intros arg. unfold nameSchema_create. cbn [message].
    destruct (name_message (nameValidationOptions arg)) as [[|c m]|];
      discriminate.
Qed.

(** X22: what autoSlugSchema.transform produces passes the validator of
    slugSchema.create, whatever the message, when the transform runs with
    the hyphen as separator (left out or given) and the validator allows
    dots if the options of the transform do: a non-empty result is then
    accepted.  The options reach convertToSlug whole, so a transform that
    was given [allowDots] needs a validator that allows dots. *)
Theorem autoSlugSchema_validates {platform : Platform}
    (options : option SlugOptions)
    (customMessageOrOptions : messageOrOptions SlugValidationOptions)
    (text r : jsstring) :
  separatorOf (orDefault noOptions options) = str "-" ->
  (allowDotsOf (orDefault noOptions options) = true ->
   orDefault false
     (slug_allowDots (slugValidationOptions customMessageOrOptions)) = true) ->
  autoSlugSchema_transform options (JSString text) = Returns r ->
  r <> [] ->
  validate (slugSchema_create customMessageOrOptions) (JSString r) = true.
Proof.
  intros Hsep Hd Hr Hne.
  unfold autoSlugSchema_transform, zodSlugTransform in Hr.
  rewrite (convertToSlug_stages text _ Hsep) in Hr. injection Hr as <-.
  set (o := orDefault noOptions options) in *.
  pose proof (slugStages_valid text o eq_refl Hne) as Hv.
  destruct (Bool.bool_dec (allowDotsOf o) true) as [E|E].
  - change (isValidSlug (JSString (slugStages 45 (allowDotsOf o) text))
              {| opt_separator := None;
                 opt_allowDots :=
                   slug_allowDots (slugValidationOptions customMessageOrOptions) |}
            = true).
    rewrite isValidSlug_accepts in *.
    change (allowDotsOf
              {| opt_separator := None;
                 opt_allowDots :=
                   slug_allowDots (slugValidationOptions customMessageOrOptions) |})
      with (orDefault false
              (slug_allowDots (slugValidationOptions customMessageOrOptions))).
    rewrite (Hd E). rewrite E in *. exact Hv.
  - apply not_true_is_false in E.
    exact (validSlug_any_dots _ o _ E Hv).
Qed.

Lemma autoSlugSchema_validates_witness :
  separatorOf
    (orDefault noOptions
       (Some {| opt_separator := Some (str "-"); opt_allowDots := Some true |}))
    = str "-" /\
  (allowDotsOf
     (orDefault noOptions
        (Some {| opt_separator := Some (str "-"); opt_allowDots := Some true |}))
     = true ->
   orDefault false
     (slug_allowDots
        (slugValidationOptions
           (Options {| slug_message := Some (str "Invalid");
                       slug_allowDots := Some true |}))) = true) /\
  autoSlugSchema_transform (platform := latin1Platform)
    (Some {| opt_separator := Some (str "-"); opt_allowDots := Some true |})
    (JSString (str "Hello World.txt")) = Returns (str "hello-world.txt") /\
  str "hello-world.txt" <> [] /\
  validate
    (slugSchema_create
       (Options {| slug_message := Some (str "Invalid");
                   slug_allowDots := Some true |}))
    (JSString (str "hello-world.txt")) = true.
Proof.
  assert (H1 : separatorOf
                 (orDefault noOptions
                    (Some {| opt_separator := Some (str "-");
                             opt_allowDots := Some true |})) = str "-")
    by reflexivity.
  assert (H2 : allowDotsOf
                 (orDefault noOptions
                    (Some {| opt_separator := Some (str "-");
                             opt_allowDots := Some true |})) = true ->
               orDefault false
                 (slug_allowDots
                    (slugValidationOptions
                       (Options {| slug_message := Some (str "Invalid");
                                   slug_allowDots := Some true |}))) = true)
    by (intros _; reflexivity).
  assert (H3 : autoSlugSchema_transform (platform := latin1Platform)
                 (Some {| opt_separator := Some (str "-");
                          opt_allowDots := Some true |})
                 (JSString (str "Hello World.txt"))
               = Returns (str "hello-world.txt")) by reflexivity.
  assert (H4 : str "hello-world.txt" <> []) by discriminate.
  exact (conj H1 (conj H2 (conj H3 (conj H4
    (autoSlugSchema_validates (platform := latin1Platform)
       (Some {| opt_separator := Some (str "-"); opt_allowDots := Some true |})
       (Options {| slug_message := Some (str "Invalid");
                   slug_allowDots := Some true |})
       (str "Hello World.txt") H1 H2 H3 H4))))).
Defined.

(** The condition on dots is needed: the same transform result is turned
    away by the validator that slugSchema.create builds without
    arguments. *)
Lemma autoSlugSchema_forwards_allowDots :
  autoSlugSchema_transform (platform := latin1Platform)
    (Some {| opt_separator := Some (str "-"); opt_allowDots := Some true |})
    (JSString (str "Hello World.txt")) = Returns (str "hello-world.txt") /\
  validate (slugSchema_create NoArgument) (JSString (str "hello-world.txt"))
    = false.
Proof. split; reflexivity. Qed.

(** ** Edge cases of the options *)

Lemma guard_nonempty (s : jsstring) :
  s <> [] -> negb (ToBoolean (JSString s)) || negb (typeofIsString (JSString s)) = false.
Proof. destruct s; [congruence | reflexivity]. Qed.

(** X24: with the empty string as separator convertToSlug throws a
    SyntaxError on every non-empty text when dots are not allowed (the
    pattern it builds for runs of separators is ["+"]), and returns when
    dots are allowed. *)
Theorem convertToSlug_empty_separator {platform : Platform}
    (text : jsstring) (options : SlugOptions) :
  text <> [] ->
  separatorOf options = [] ->
  (allowDotsOf options = false ->
   convertToSlug (JSString text) options = Throws SyntaxError) /\
  (allowDotsOf options = true ->
   exists r, convertToSlug (JSString text) options = Returns r).
Proof.
  intros Hne Hsep. unfold separatorOf in Hsep. unfold allowDotsOf.
  unfold convertToSlug. rewrite (guard_nonempty Hne), Hsep.
  split; intros ->.
  - reflexivity.
  - eexists. reflexivity.
Qed.

Lemma convertToSlug_empty_separator_witness :
  str "Hello World" <> [] /\ separatorOf (withSeparator []) = [] /\
  allowDotsOf (withSeparator []) = false /\
  convertToSlug (platform := latin1Platform) (JSString (str "Hello World"))
    (withSeparator []) = Throws SyntaxError.
Proof.
  assert (H1 : str "Hello World" <> []) by discriminate.
  assert (H2 : separatorOf (withSeparator []) = []) by reflexivity.
  assert (H3 : allowDotsOf (withSeparator []) = false) by reflexivity.
  exact (conj H1 (conj H2 (conj H3
    (proj1 (convertToSlug_empty_separator (platform := latin1Platform)
              (withSeparator []) H1 H2) H3)))).
Defined.

(** X25: with no allowed special character at all, normalizeName keeps
    exactly the ASCII letters and digits of the text: the result is the
    text with every other character removed. *)
Theorem normalizeName_without_specials (text : jsstring) :
  normalizeName (JSString text) (withSpecials []) =
  Returns (filter isAlnum text).
Proof.
  rewrite normalizeName_stages. f_equal.
  change (specialsOf (withSpecials [])) with (@nil jsstring).
  rewrite <- (name_letters [] text) by discriminate.
  destruct (nameStages_shape [] text) as (H & _).
  symmetry. apply filter_all.
  erewrite forallb_pointwise; [exact H|].
  intros c. simpl. rewrite orb_false_r. reflexivity.
Qed.
